(** * kubetop: a shallow embedding of [kubetop.go]

    The dashboard lists nodes, services, deployments and pods, turns every
    item into a seven-field display row, merges the rows of the four
    fetchers, sorts them and prints one table per cycle.

    Part I holds the definitions, translated function by function from
    [kubetop.go] and, for [sort.Sort], from package [sort] of Go's
    library; Part II holds the lemmas and theorems about them.

    Go values are represented as follows.
    - [string]: a Go string is a sequence of bytes; [len] is
      [String.length], [s[a:b]] is [String.substring a (b - a) s] and [<]
      is the byte-wise lexicographic [String.ltb].
    - [int], [int32], [time.Duration]: [Z].
    - [float64]: the kernel's binary64 floats ([PrimFloat]).
    - slices: lists; a slice indexed out of range panics in Go, and the
      indexed operations below return [None] there.
    - [map[string]bool]: [gmap string bool].
    - [log.Fatal] and a nil dereference end the process: [Result]. *)

From Stdlib Require Import ZArith Floats Uint63 DecimalString.
From Stdlib Require Import Sorting.Sorted Sorting.Permutation.
From stdpp Require Import gmap strings list fin_maps.

Open Scope Z_scope.

(* ===================================================================== *)
(** * Part I: definitions                                                 *)
(* ===================================================================== *)

(** ** Go strings and formatting *)

(** [len(s)] *)
Definition len (s : string) : nat := String.length s.

(** [s[a:b]], for [a <= b <= len(s)] (Go panics otherwise; every use
    below is guarded). *)
Definition slice (s : string) (a b : nat) : string :=
  String.substring a (b - a) s.

(** [s[a:]] *)
Definition slice_from (s : string) (a : nat) : string :=
  String.substring a (len s - a) s.

(** [strings.Join(elems, sep)] *)
Definition strings_Join (elems : list string) (sep : string) : string :=
  String.concat sep elems.

(** [strings.HasPrefix(s, prefix)] *)
Definition strings_HasPrefix (s prefix : string) : bool :=
  String.prefix prefix s.

(** [strings.TrimPrefix(s, prefix)] *)
Definition strings_TrimPrefix (s prefix : string) : string :=
  if strings_HasPrefix s prefix then slice_from s (len prefix) else s.

(** The verb [%d]. *)
Definition fmt_d (z : Z) : string := NilZero.string_of_int (Z.to_int z).

(** ** [truncate] *)

Definition truncate_max : nat := 20.
Definition truncate_rightLen : nat := 5.

Definition truncate (s : string) : string :=
  if (len s <? truncate_max)%nat then s
  else slice s 0 (truncate_max - 3 - truncate_rightLen)
         +:+ "..." +:+ slice_from s (len s - truncate_rightLen).

(** ** [time.Duration] and [shortHumanDuration] *)

(** A [time.Duration] is an [int64] count of nanoseconds. *)
Definition Duration := Z.

Definition Nanosecond : Duration := 1.
Definition Second : Duration := 1000000000 * Nanosecond.
Definition Minute : Duration := 60 * Second.
Definition Hour : Duration := 60 * Minute.
Definition Day : Duration := 24 * Hour.

Definition is_Duration (d : Z) : Prop := - 2 ^ 63 <= d < 2 ^ 63.

(** The conversion [float64(n)] of an integer with [|n| < 2^63]; it rounds
    to nearest even, as [PrimFloat.of_uint63] does. *)
Definition float64 (n : Z) : float :=
  if n <? 0 then PrimFloat.opp (PrimFloat.of_uint63 (Uint63.of_Z (- n)))
  else PrimFloat.of_uint63 (Uint63.of_Z n).

(** The conversion [int(f)] of a finite [float64]: the fraction is
    discarded (truncation towards zero). *)
Definition int_of_float64 (f : float) : Z :=
  match Prim2SF f with
  | S754_finite sgn m e =>
      let v := if 0 <=? e then Z.pos m * 2 ^ e else Z.pos m / 2 ^ (- e) in
      if sgn then - v else v
  | _ => 0
  end.

(** [d.Seconds()], [d.Minutes()] and [d.Hours()] of package [time]: the
    whole units and the remaining nanoseconds are converted separately,
    [float64(d / unit) + float64(d % unit) / float64(unit)]; Go's [/] and
    [%] on integers truncate towards zero ([Z.quot], [Z.rem]). *)
Definition Duration_in (unit : Duration) (d : Duration) : float :=
  PrimFloat.add (float64 (Z.quot d unit))
                (PrimFloat.div (float64 (Z.rem d unit)) (float64 unit)).

Definition Duration_Seconds : Duration -> float := Duration_in Second.
Definition Duration_Minutes : Duration -> float := Duration_in Minute.
Definition Duration_Hours : Duration -> float := Duration_in Hour.

Definition shortHumanDuration (d : Duration) : string :=
  let seconds := int_of_float64 (Duration_Seconds d) in
  if seconds <? -1 then "<invalid>"
  else if seconds <? 0 then "0s"
  else if seconds <? 60 then fmt_d seconds +:+ "s"
  else
    let minutes := int_of_float64 (Duration_Minutes d) in
    if minutes <? 60 then fmt_d minutes +:+ "m"
    else
      let hours := int_of_float64 (Duration_Hours d) in
      if hours <? 24 then fmt_d hours +:+ "h"
      else if hours <? 24 * 364 then fmt_d (Z.quot hours 24) +:+ "d"
      else
        fmt_d (int_of_float64
                 (PrimFloat.div (PrimFloat.div (Duration_Hours d) (float64 24))
                                (float64 365)))
          +:+ "y".

(** The same branches with the four conversions taken exactly, the
    [float64] values replaced by the rationals they stand for:
    [int(d.Seconds())] is [d / Second] truncated, and so on. *)
Definition shortHumanDuration_exact (d : Duration) : string :=
  let seconds := Z.quot d Second in
  if seconds <? -1 then "<invalid>"
  else if seconds <? 0 then "0s"
  else if seconds <? 60 then fmt_d seconds +:+ "s"
  else
    let minutes := Z.quot d Minute in
    if minutes <? 60 then fmt_d minutes +:+ "m"
    else
      let hours := Z.quot d Hour in
      if hours <? 24 then fmt_d hours +:+ "h"
      else if hours <? 24 * 364 then fmt_d (Z.quot hours 24) +:+ "d"
      else fmt_d (Z.quot d (365 * (24 * Hour))) +:+ "y".

(** The age format as the specification words it, in exact integer
    arithmetic: the unit is chosen by the range of [d], and the number is
    the count of whole units. *)
Definition age_format (d : Duration) : string :=
  if d <=? - (2 * Second) then "<invalid>"
  else if d <? 0 then "0s"
  else if d <? Minute then fmt_d (Z.quot d Second) +:+ "s"
  else if d <? Hour then fmt_d (Z.quot d Minute) +:+ "m"
  else if d <? Day then fmt_d (Z.quot d Hour) +:+ "h"
  else if d <? 364 * Day then fmt_d (Z.quot d Day) +:+ "d"
  else fmt_d (Z.quot d (365 * Day)) +:+ "y".

(** ** [lcp] *)

(** The loop [for _, s := range l[1:]] that tracks the smallest and the
    largest string seen. *)
Definition lcp_minmax_step (mm : string * string) (s : string)
  : string * string :=
  let '(min, max) := mm in
  if String.ltb s min then (s, max)
  else if String.ltb max s then (min, s)
  else (min, max).

Definition lcp_minmax (l0 : string) (rest : list string) : string * string :=
  fold_left lcp_minmax_step rest (l0, l0).

(** [min[i] == max[i]], both indices in range. *)
Definition byte_eqb_at (i : nat) (min max : string) : bool :=
  match String.get i min, String.get i max with
  | Some a, Some b => Ascii.eqb a b
  | _, _ => false
  end.

(** The loop [for i := 0; i < len(min) && i < len(max); i++], started at
    index [i]; [fuel] bounds the iterations, and [S (len min)] of them
    are never used up. *)
Fixpoint lcp_scan (fuel i : nat) (min max : string) : string :=
  match fuel with
  | O => min
  | S fuel' =>
      if (i <? len min)%nat && (i <? len max)%nat then
        if byte_eqb_at i min max then lcp_scan fuel' (S i) min max
        else slice min 0 i
      else min
  end.

Definition lcp (l : list string) : string :=
  match l with
  | [] => ""
  | [l0] => l0
  | l0 :: rest =>
      let '(min, max) := lcp_minmax l0 rest in
      lcp_scan (S (len min)) 0 min max
  end.


(** The longest common prefix of two strings, character by character. *)
Fixpoint common_prefix (a b : string) : string :=
  match a, b with
  | String c a', String d b' =>
      if Ascii.eqb c d then String c (common_prefix a' b') else ""
  | _, _ => ""
  end.

(** [a <= b] in the byte-wise lexicographic order of Go strings. *)
Definition string_le (a b : string) : Prop := String.ltb b a = false.

(** The lexicographic minimum and maximum of a list. *)
Definition is_lex_min (m : string) (l : list string) : Prop :=
  In m l /\ forall s, In s l -> string_le m s.

Definition is_lex_max (m : string) (l : list string) : Prop :=
  In m l /\ forall s, In s l -> string_le s m.

(** What the first loop of [lcp] maintains: [min] and [max] are among the
    strings seen so far and enclose them all. *)
Definition minmax_inv (seen : list string) (mm : string * string) : Prop :=
  is_lex_min (fst mm) seen /\ is_lex_max (snd mm) seen.

(** ** [Row], [Rows] and the [sort.Interface] methods of [Rows] *)

(** [type Row []string] and [type Rows []Row]. *)
Abbreviation Row := (list string) (only parsing).
Abbreviation Rows := (list (list string)) (only parsing).

(** [fmt.Sprintf("%s", row)] for a [Row]: a slice of strings prints as its
    elements separated by single spaces, between square brackets. *)
Definition Sprintf_s (row : Row) : string :=
  "[" +:+ strings_Join row " " +:+ "]".

(** [func (r Rows) Len() int] *)
Definition Rows_Len (r : Rows) : nat := length r.

(** [func (r Rows) Swap(i, j int)]: [r[i], r[j] = r[j], r[i]]. *)
Definition Rows_Swap (r : Rows) (i j : nat) : option Rows :=
  match r !! i, r !! j with
  | Some ri, Some rj => Some (<[j := ri]> (<[i := rj]> r))
  | _, _ => None
  end.

(** [func (r Rows) Less(i, j int) bool] *)
Definition Rows_Less (r : Rows) (i j : nat) : option bool :=
  match r !! i, r !! j with
  | Some ri, Some rj => Some (String.ltb (Sprintf_s ri) (Sprintf_s rj))
  | _, _ => None
  end.

(** The comparison [Rows_Less] makes, on two rows. *)
Definition Row_less (a b : Row) : bool :=
  String.ltb (Sprintf_s a) (Sprintf_s b).

(** [a] is not after [b]: [b] is not less than [a]. *)
Definition Row_le (a b : Row) : Prop :=
  string_le (Sprintf_s a) (Sprintf_s b).

(** ** [sort.Sort]

    [sort.Sort] belongs to Go's library. It reaches the data through
    [Len], [Less] and [Swap] only, it leaves the data in ascending order as
    determined by [Less], and it is not guaranteed to be stable. That
    contract is what the development assumes of it. *)

(** What a sequence of [Swap] calls can turn [r] into. *)
Inductive sort_swaps : Rows -> Rows -> Prop :=
| sort_swaps_refl r : sort_swaps r r
| sort_swaps_step r i j r' r'' :
    Rows_Swap r i j = Some r' -> sort_swaps r' r'' -> sort_swaps r r''.

(** Ascending order as determined by [Less]: no later row is less than an
    earlier one. *)
Definition sort_ascending (r : Rows) : Prop :=
  forall i j : nat, (i < j < Rows_Len r)%nat -> Rows_Less r j i = Some false.

Definition sort_Sort_contract (sorter : Rows -> Rows) : Prop :=
  forall r, sort_swaps r (sorter r) /\ sort_ascending (sorter r).

(** A sorting function that meets the contract: an insertion sort;
    [before x y] tells whether the inserted row [x] stops in front of
    [y]. *)
Fixpoint insert_row (before : Row -> Row -> bool) (x : Row) (l : Rows) : Rows :=
  match l with
  | [] => [x]
  | y :: l' => if before x y then x :: l else y :: insert_row before x l'
  end.

Definition sort_with (before : Row -> Row -> bool) (r : Rows) : Rows :=
  fold_right (insert_row before) [] r.

(** Rows that compare equal keep their order. *)
Definition insertionSort : Rows -> Rows :=
  sort_with (fun x y => negb (Row_less y x)).

(** ** [sort.Sort] as package [sort] implements it

    The quicksort of Go's library up to release 1.18, the releases the
    program was written for: [Sort] calls [quickSort], which partitions
    around a median of three ([doPivot]), falls back on [heapSort] when
    the recursion gets too deep, and finishes ranges of at most 12
    elements with one Shell pass and [insertionSort]. The data is reached
    through [Len], [Less] and [Swap] only. Later releases sort with
    another algorithm; what all of them document is the contract
    above. *)

(** [data.Less(i, j)] and [data.Swap(i, j)] on indices in range (the sort
    uses no other). *)
Definition data_Less (r : Rows) (i j : nat) : bool :=
  match Rows_Less r i j with
  | Some b => b
  | None => false
  end.

Definition data_Swap (r : Rows) (i j : nat) : Rows :=
  match Rows_Swap r i j with
  | Some r' => r'
  | None => r
  end.

(** [for j := i; j > a && data.Less(j, j-1); j-- { data.Swap(j, j-1) }] *)
Fixpoint go_insert (a j : nat) (r : Rows) : Rows :=
  match j with
  | O => r
  | S j' =>
      if (a <? j)%nat && data_Less r j j'
      then go_insert a j' (data_Swap r j j')
      else r
  end.

(** [n] rounds of the loop [for i := a + 1; i < b; i++], from [i] on. *)
Fixpoint go_insertionSort_loop (n a i : nat) (r : Rows) : Rows :=
  match n with
  | O => r
  | S n' => go_insertionSort_loop n' a (S i) (go_insert a i r)
  end.

Definition go_insertionSort (r : Rows) (a b : nat) : Rows :=
  go_insertionSort_loop (b - (a + 1)) a (a + 1) r.

(** [n] rounds of the Shell pass
    [for i := a + 6; i < b; i++ { if data.Less(i, i-6) { data.Swap(i, i-6) } }],
    from [i] on. *)
Fixpoint go_shell_pass (n i : nat) (r : Rows) : Rows :=
  match n with
  | O => r
  | S n' =>
      go_shell_pass n' (S i)
        (if data_Less r i (i - 6) then data_Swap r i (i - 6) else r)
  end.

(** [siftDown(data, lo, hi, first)], [root] starting at [lo]; each round
    moves [root] to a child below [hi], so [hi] rounds are never used
    up. *)
Fixpoint go_siftDown (fuel : nat) (r : Rows) (root hi first : nat) : Rows :=
  match fuel with
  | O => r
  | S fuel' =>
      let child := (2 * root + 1)%nat in
      if (hi <=? child)%nat then r
      else
        let child :=
          if (child + 1 <? hi)%nat
             && data_Less r (first + child) (first + child + 1)
          then (child + 1)%nat else child in
        if negb (data_Less r (first + root) (first + child)) then r
        else go_siftDown fuel' (data_Swap r (first + root) (first + child))
               child hi first
  end.

(** [for i := (hi - 1) / 2; i >= 0; i-- { siftDown(data, i, hi, first) }],
    the rounds [i = n - 1, ..., 0]. *)
Fixpoint go_heapify (n : nat) (r : Rows) (hi first : nat) : Rows :=
  match n with
  | O => r
  | S i => go_heapify i (go_siftDown hi r i hi first) hi first
  end.

(** [for i := hi - 1; i >= 0; i-- { data.Swap(first, first+i);
    siftDown(data, lo, i, first) }], the rounds [i = n - 1, ..., 0]. *)
Fixpoint go_heap_pop (n : nat) (r : Rows) (first : nat) : Rows :=
  match n with
  | O => r
  | S i =>
      go_heap_pop i
        (go_siftDown i (data_Swap r first (first + i)) 0 i first) first
  end.

Definition go_heapSort (r : Rows) (a b : nat) : Rows :=
  let hi := (b - a)%nat in
  go_heap_pop hi (go_heapify ((hi - 1) / 2 + 1) r hi a) a.

(** [medianOfThree(data, m1, m0, m2)] moves the median of the three rows
    to [m1]. *)
Definition go_medianOfThree (r : Rows) (m1 m0 m2 : nat) : Rows :=
  let r := if data_Less r m1 m0 then data_Swap r m1 m0 else r in
  if data_Less r m2 m1 then
    let r := data_Swap r m2 m1 in
    if data_Less r m1 m0 then data_Swap r m1 m0 else r
  else r.

(** The scanning loops of [doPivot]; each returns the index it stops at,
    and [n], at least the distance between the two indices, is never used
    up before the loop test fails. *)

(** [for ; a < c && data.Less(a, pivot); a++ {}] *)
Fixpoint go_scan_less (n : nat) (r : Rows) (pivot a c : nat) : nat :=
  match n with
  | O => a
  | S n' =>
      if (a <? c)%nat && data_Less r a pivot
      then go_scan_less n' r pivot (S a) c else a
  end.

(** [for ; b < c && !data.Less(pivot, b); b++ {}] *)
Fixpoint go_scan_not_greater (n : nat) (r : Rows) (pivot b c : nat) : nat :=
  match n with
  | O => b
  | S n' =>
      if (b <? c)%nat && negb (data_Less r pivot b)
      then go_scan_not_greater n' r pivot (S b) c else b
  end.

(** [for ; b < c && data.Less(pivot, c-1); c-- {}] *)
Fixpoint go_scan_greater (n : nat) (r : Rows) (pivot b c : nat) : nat :=
  match n with
  | O => c
  | S n' =>
      if (b <? c)%nat && data_Less r pivot (c - 1)
      then go_scan_greater n' r pivot b (c - 1) else c
  end.

(** [for ; a < b && !data.Less(b-1, pivot); b-- {}] *)
Fixpoint go_scan_not_less (n : nat) (r : Rows) (pivot a b : nat) : nat :=
  match n with
  | O => b
  | S n' =>
      if (a <? b)%nat && negb (data_Less r (b - 1) pivot)
      then go_scan_not_less n' r pivot a (b - 1) else b
  end.

(** The partition loop of [doPivot]: rows greater than the pivot go to the
    right; it returns the data, [b] and [c]. *)
Fixpoint go_partition (fuel : nat) (r : Rows) (pivot b c : nat)
  : Rows * nat * nat :=
  match fuel with
  | O => (r, b, c)
  | S fuel' =>
      let b := go_scan_not_greater c r pivot b c in
      let c := go_scan_greater c r pivot b c in
      if (c <=? b)%nat then (r, b, c)
      else go_partition fuel' (data_Swap r b (c - 1)) pivot (S b) (c - 1)
  end.

(** The loop of [doPivot] that protects against many duplicates: rows
    equal to the pivot go to the middle; it returns the data and [b]. *)
Fixpoint go_protect (fuel : nat) (r : Rows) (pivot a b : nat) : Rows * nat :=
  match fuel with
  | O => (r, b)
  | S fuel' =>
      let b := go_scan_not_less b r pivot a b in
      let a := go_scan_less b r pivot a b in
      if (b <=? a)%nat then (r, b)
      else go_protect fuel' (data_Swap r a (b - 1)) pivot (S a) (b - 1)
  end.

(** [doPivot(data, lo, hi)]: the data, [midlo] and [midhi]. *)
Definition go_doPivot (r : Rows) (lo hi : nat) : Rows * nat * nat :=
  let m := ((lo + hi) / 2)%nat in
  let r :=
    if (40 <? hi - lo)%nat then
      let s := ((hi - lo) / 8)%nat in
      let r := go_medianOfThree r lo (lo + s) (lo + 2 * s) in
      let r := go_medianOfThree r m (m - s) (m + s) in
      go_medianOfThree r (hi - 1) (hi - 1 - s) (hi - 1 - 2 * s)
    else r in
  let r := go_medianOfThree r lo m (hi - 1) in
  let pivot := lo in
  let a := go_scan_less hi r pivot (lo + 1) (hi - 1) in
  let '(r, b, c) := go_partition hi r pivot a (hi - 1) in
  let protectAgainstDuplicates := (hi - c <? 5)%nat in
  let '(r, b, c, protectAgainstDuplicates) :=
    if negb protectAgainstDuplicates && (hi - c <? (hi - lo) / 4)%nat then
      let '(r, c, dups) :=
        if negb (data_Less r pivot (hi - 1))
        then (data_Swap r c (hi - 1), S c, 1%nat) else (r, c, 0%nat) in
      let '(b, dups) :=
        if negb (data_Less r (b - 1) pivot)
        then ((b - 1)%nat, S dups) else (b, dups) in
      let '(r, b, dups) :=
        if negb (data_Less r m pivot)
        then (data_Swap r m (b - 1), (b - 1)%nat, S dups) else (r, b, dups) in
      (r, b, c, (1 <? dups)%nat)
    else (r, b, c, protectAgainstDuplicates) in
  let '(r, b) :=
    if protectAgainstDuplicates then go_protect hi r pivot a b else (r, b) in
  (data_Swap r pivot (b - 1), (b - 1)%nat, c).

(** [maxDepth(n)]: twice the number of binary digits of [n]. *)
Fixpoint go_bits (fuel n : nat) : nat :=
  match fuel with
  | O => O
  | S fuel' => if (0 <? n)%nat then S (go_bits fuel' (n / 2)) else O
  end.

Definition go_maxDepth (n : nat) : nat := 2 * go_bits n n.

(** [quickSort(data, a, b, maxDepth)]. Every round of its loop and every
    call within it works on a shorter range, so [fuel] above the length of
    the range is not used up; [None] if it were. *)
Fixpoint go_quickSort (fuel : nat) (r : Rows) (a b maxDepth : nat)
  : option Rows :=
  match fuel with
  | O => None
  | S fuel' =>
      if (12 <? b - a)%nat then
        match maxDepth with
        | O => Some (go_heapSort r a b)
        | S maxDepth' =>
            let '(r, mlo, mhi) := go_doPivot r a b in
            if (mlo - a <? b - mhi)%nat then
              match go_quickSort fuel' r a mlo maxDepth' with
              | Some r => go_quickSort fuel' r mhi b maxDepth'
              | None => None
              end
            else
              match go_quickSort fuel' r mhi b maxDepth' with
              | Some r => go_quickSort fuel' r a mlo maxDepth'
              | None => None
              end
        end
      else if (1 <? b - a)%nat then
        Some (go_insertionSort (go_shell_pass (b - (a + 6)) (a + 6) r) a b)
      else Some r
  end.

(** [sort.Sort(data)] *)
Definition go_Sort (r : Rows) : option Rows :=
  let n := Rows_Len r in
  go_quickSort (S n) r 0 n (go_maxDepth n).

(** [sort.Sort] as a function on row sequences: [go_Sort] returns for
    every input. *)
Definition sort_Sort (r : Rows) : Rows :=
  match go_Sort r with
  | Some s => s
  | None => r
  end.

(** *** What the proofs about [sort.Sort] speak of *)

(** The rendering of the row at index [i]. *)
Definition row_key (r : Rows) (i : nat) : string :=
  match r !! i with
  | Some row => Sprintf_s row
  | None => ""
  end.

(** What swaps of rows within [a, b) can turn [r] into. *)
Inductive swaps_in (a b : nat) : Rows -> Rows -> Prop :=
| swaps_in_refl r : swaps_in a b r r
| swaps_in_step r i j r' :
    (a <= i < b)%nat -> (a <= j < b)%nat -> (b <= length r)%nat ->
    swaps_in a b (data_Swap r i j) r' -> swaps_in a b r r'.

(** The rows of [a, b) are in ascending order. *)
Definition sorted_range (r : Rows) (a b : nat) : Prop :=
  forall i j : nat, (a <= i)%nat -> (i < j)%nat -> (j < b)%nat ->
    string_le (row_key r i) (row_key r j).

(** Every row of [a, b) has a rendering in [P]. *)
Definition range_all (P : string -> Prop) (r : Rows) (a b : nat) : Prop :=
  forall k : nat, (a <= k < b)%nat -> P (row_key r k).

(** [c] is a child of [p] in the heap. *)
Definition heap_child (p c : nat) : Prop :=
  (c = 2 * p + 1 \/ c = 2 * p + 2)%nat.

(** In the heap of [hi] rows that starts at [first], every parent from
    [root0] on, [skip] apart, is not less than its children. *)
Definition heap_but (r : Rows) (first hi root0 : nat) (skip : option nat)
  : Prop :=
  forall p c : nat, (root0 <= p)%nat -> heap_child p c -> (c < hi)%nat ->
    skip <> Some p ->
    string_le (row_key r (first + c)) (row_key r (first + p)).

(** The order in which the specification describes the table: the fields
    of two rows compared one by one, left to right. *)
Fixpoint Row_fields_compare (a b : Row) : comparison :=
  match a, b with
  | [], [] => Eq
  | [], _ :: _ => Lt
  | _ :: _, [] => Gt
  | x :: a', y :: b' =>
      match String.compare x y with
      | Eq => Row_fields_compare a' b'
      | c => c
      end
  end.

Definition fields_ascending (r : Rows) : Prop :=
  StronglySorted (fun a b => Row_fields_compare a b <> Gt) r.

(** No two different rows of [r] print alike. *)
Definition distinct_renderings (r : Rows) : Prop :=
  forall a b, In a r -> In b r -> Sprintf_s a = Sprintf_s b -> a = b.

(** ** Outcomes *)

(** A function of the program returns, or ends the process: by [log.Fatal]
    (exit status 1) or by the panic of a nil dereference. *)
Inductive Result (A : Type) : Type :=
| Returns (a : A)
| LogFatal
| NilPanic.
Arguments Returns {A} a.
Arguments LogFatal {A}.
Arguments NilPanic {A}.

(** What a [List] call of the client gives back: the items, or an error. *)
Inductive ListResult (A : Type) : Type :=
| Listed (items : list A)
| ListError.
Arguments Listed {A} items.
Arguments ListError {A}.

(** ** The objects of the cluster API, with the fields the program reads *)

Definition Time := Z.

Record ObjectMeta := {
  Name : string;
  Namespace : string;
  CreationTimestamp : Time
}.

(** [NodeCondition], [PodCondition] and [DeploymentCondition]. *)
Record Condition := { cond_Type : string; cond_Status : string }.

Record NodeAddress := { Address : string }.

Record Node := {
  node_ObjectMeta : ObjectMeta;
  node_Phase : string;
  node_Conditions : list Condition;
  node_Addresses : list NodeAddress
}.

Record LoadBalancerIngress := { IP : string; Hostname : string }.

Record ServicePort := { port_Name : string }.

Record Service := {
  svc_ObjectMeta : ObjectMeta;
  svc_Ingress : list LoadBalancerIngress;
  svc_Ports : list ServicePort;
  svc_ExternalIPs : list string;
  svc_ClusterIP : string
}.

(** [Spec.Replicas] is a pointer ([*int32]): [None] is nil. *)
Record Deployment := {
  dep_ObjectMeta : ObjectMeta;
  dep_Conditions : list Condition;
  dep_AvailableReplicas : Z;
  dep_Replicas : Z;
  dep_Spec_Replicas : option Z
}.

Record Pod := {
  pod_ObjectMeta : ObjectMeta;
  pod_Phase : string;
  pod_Conditions : list Condition;
  pod_PodIP : string;
  pod_NodeName : string
}.

(** ** The package-level variables and the clock

    The six colour functions come from [color.New(...).SprintFunc()] and
    are kept abstract; [flagNamespace] is the value of the [-namespace]
    flag; [time_Since t] is what [time.Since(t)] returns when a row is
    built. *)
Record Env := {
  colorNode : string -> string;
  colorPod : string -> string;
  colorService : string -> string;
  colorDeployment : string -> string;
  colorFailed : string -> string;
  colorWarning : string -> string;
  flagNamespace : string;
  time_Since : Time -> Duration
}.

(** ** The fetchers *)

Section Fetchers.
Context (env : Env).

(** [*flagNamespace != "" && ns != *flagNamespace] *)
Definition other_namespace (ns : string) : bool :=
  negb (String.eqb (flagNamespace env) "")
    && negb (String.eqb ns (flagNamespace env)).

(** The loop over the conditions of an item: the types of the conditions
    whose status is ["True"] are appended to [statuses]. *)
Definition true_conditions (statuses : list string) (cs : list Condition)
  : list string :=
  fold_left
    (fun statuses c =>
       if String.eqb (cond_Status c) "True"
       then statuses ++ [cond_Type c] else statuses)
    cs statuses.

(** The loop [for _, item := range items] of a fetcher. The body skips
    the item ([continue], [Returns None]), appends a row, or ends the
    process. *)
Fixpoint range_items {A : Type} (body : A -> Result (option Row))
    (items : list A) (rows : Rows) : Result Rows :=
  match items with
  | [] => Returns rows
  | item :: items' =>
      match body item with
      | Returns None => range_items body items' rows
      | Returns (Some row) => range_items body items' (rows ++ [row])
      | LogFatal => LogFatal
      | NilPanic => NilPanic
      end
  end.

(** [shortHumanDuration(time.Since(t))] *)
Definition age (t : Time) : string :=
  shortHumanDuration (time_Since env t).

(** *** [getNodes] *)

(** The loop that drops the addresses already seen in [addressesMap]. *)
Definition node_addresses_step (st : gmap string bool * list string)
    (addr : NodeAddress) : gmap string bool * list string :=
  let '(addressesMap, addresses) := st in
  match addressesMap !! Address addr with
  | Some true => (addressesMap, addresses)
  | _ => (<[Address addr := true]> addressesMap, addresses ++ [Address addr])
  end.

Definition node_addresses (node : Node) : list string :=
  snd (fold_left node_addresses_step (node_Addresses node) (∅, [])).

Definition getNodes_body (node : Node) : Result (option Row) :=
  let meta := node_ObjectMeta node in
  if other_namespace (Namespace meta) then Returns None
  else
    let statuses :=
      if (0 <? len (node_Phase node))%nat then [node_Phase node] else [] in
    let statuses := true_conditions statuses (node_Conditions node) in
    let addresses := node_addresses node in
    Returns (Some [
      colorNode env "[node]";
      colorNode env (Namespace meta);
      colorNode env (Name meta);
      colorNode env (strings_Join statuses " ");
      colorNode env "";
      colorNode env (strings_Join addresses " ");
      colorNode env (age (CreationTimestamp meta))
    ]).

(** The value of [getNodes] is the [Rows] it sends on the channel. *)
Definition getNodes (nodes : ListResult Node) : Result Rows :=
  match nodes with
  | ListError => LogFatal
  | Listed items => range_items getNodes_body items []
  end.

(** *** [getServices] *)

Definition getServices_body (service : Service) : Result (option Row) :=
  let meta := svc_ObjectMeta service in
  if String.eqb (Namespace meta) "kube-system" then Returns None
  else if other_namespace (Namespace meta) then Returns None
  else
    let statuses :=
      map (fun c => IP c +:+ " " +:+ Hostname c) (svc_Ingress service) in
    let ports := map port_Name (svc_Ports service) in
    let ips := svc_ExternalIPs service in
    let ips :=
      if negb (String.eqb (svc_ClusterIP service) "")
      then ips ++ [svc_ClusterIP service] else ips in
    Returns (Some [
      colorService env "[svc]";
      colorService env (Namespace meta);
      colorService env (Name meta);
      colorService env (strings_Join statuses ",");
      colorService env "";
      colorService env
        (strings_Join ips " " +:+ " " +:+ strings_Join ports " ");
      colorService env (age (CreationTimestamp meta))
    ]).

Definition getServices (services : ListResult Service) : Result Rows :=
  match services with
  | ListError => LogFatal
  | Listed items => range_items getServices_body items []
  end.

(** *** [getDeployments] *)

(** [fmt.Sprintf("%d/%d/%d %s", available, replicas, desired, conds)] *)
Definition replicas_status (available replicas desired : Z)
    (statuses : list string) : string :=
  fmt_d available +:+ "/" +:+ fmt_d replicas +:+ "/" +:+ fmt_d desired
    +:+ " " +:+ strings_Join statuses " ".

Definition getDeployments_body (dep : Deployment) : Result (option Row) :=
  let meta := dep_ObjectMeta dep in
  if String.eqb (Namespace meta) "kube-system" then Returns None
  else if other_namespace (Namespace meta) then Returns None
  else
    let statuses := true_conditions [] (dep_Conditions dep) in
    match dep_Spec_Replicas dep with
    | None => NilPanic
    | Some desired =>
        let text :=
          replicas_status (dep_AvailableReplicas dep) (dep_Replicas dep)
            desired statuses in
        let status :=
          if dep_AvailableReplicas dep <? desired
          then colorFailed env text else colorDeployment env text in
        Returns (Some [
          colorDeployment env "[deploy]";
          colorDeployment env (Namespace meta);
          colorDeployment env (Name meta);
          status;
          colorDeployment env "";
          colorDeployment env "";
          colorDeployment env (age (CreationTimestamp meta))
        ])
    end.

Definition getDeployments (deps : ListResult Deployment) : Result Rows :=
  match deps with
  | ListError => LogFatal
  | Listed items => range_items getDeployments_body items []
  end.

(** *** [getPods] *)

Definition getPods_body (lcpNodes : string) (pod : Pod)
  : Result (option Row) :=
  let meta := pod_ObjectMeta pod in
  if String.eqb (Namespace meta) "kube-system" then Returns None
  else if other_namespace (Namespace meta) then Returns None
  else
    let status := pod_Phase pod in
    let statuses := true_conditions [status] (pod_Conditions pod) in
    let status :=
      if String.eqb status "Running"
      then colorPod env (strings_Join statuses " ")
      else colorFailed env (strings_Join statuses " ") in
    Returns (Some [
      colorPod env "[pod]";
      colorPod env (Namespace meta);
      colorPod env (truncate (Name meta));
      status;
      colorPod env (strings_TrimPrefix (pod_NodeName pod) lcpNodes);
      colorPod env (pod_PodIP pod);
      colorPod env (age (CreationTimestamp meta))
    ]).

Definition getPods (lcpNodes : string) (pods : ListResult Pod)
  : Result Rows :=
  match pods with
  | ListError => LogFatal
  | Listed items => range_items (getPods_body lcpNodes) items []
  end.

End Fetchers.

(** An item the deployment loop does not skip. *)
Definition dep_listed (env : Env) (dep : Deployment) : Prop :=
  String.eqb (Namespace (dep_ObjectMeta dep)) "kube-system" = false /\
  other_namespace env (Namespace (dep_ObjectMeta dep)) = false.

(** ** [render] *)

(** The table handed to the table writer: the header set and the rows
    appended, in the order of the calls. *)
Record Table := { table_header : Row; table_rows : list Row }.

(** The first loop of [render]: [log.Fatalf] at the first row whose length
    differs from the header's. *)
Fixpoint render_check (header : Row) (rows : Rows) : Result unit :=
  match rows with
  | [] => Returns tt
  | row :: rows' =>
      if negb (length header =? length row)%nat then LogFatal
      else render_check header rows'
  end.

Definition render (header : Row) (rows : Rows) : Result Table :=
  match render_check header rows with
  | Returns _ => Returns {| table_header := header; table_rows := rows |}
  | LogFatal => LogFatal
  | NilPanic => NilPanic
  end.

(** The header [main] passes to [render]. *)
Definition main_header : Row :=
  ["Type"; "Namespace"; "Name"; "Status"; "Node"; "IPs"; "Age"].

(** ** One cycle of [main]: the goroutines and their interleavings

    A cycle starts a collector goroutine that ranges over the channel [ch]
    and appends what it receives to the shared variable [rows], and four
    fetcher goroutines that each send one [Rows] value on [ch] and then
    call [wg.Done()]. [main] waits in [wg.Wait()], closes [ch], sorts
    [rows] and renders it. The goroutines are interleaved statement by
    statement; [ch] is unbuffered, so a send and its receive are one joint
    step of a fetcher and the collector. *)

(** Where a fetcher goroutine stands: before its [List] call; at
    [ch <- rows] with the rows it built; after the send, before the
    deferred [wg.Done()]; finished. *)
Inductive FetcherPC : Type :=
| FStart
| FSend (rows : Rows)
| FSent
| FDone.

(** The collector: blocked in [range ch]; holding a received [r], before
    [rows = append(rows, r...)]; returned. *)
Inductive CollectorPC : Type :=
| CRecv
| CAppend (r : Rows)
| CExit.

(** [main]: in [wg.Wait()]; before [close(ch)]; before [sort.Sort(rows)];
    before [render(..., rows)]; in [time.Sleep]. *)
Inductive MainPC : Type :=
| MWait
| MClose
| MSort
| MRender
| MSleep.

Record Cycle := {
  fetchers : list FetcherPC;
  collector : CollectorPC;
  main : MainPC;
  closed : bool;
  rows : Rows;
  screen : option Table
}.

Definition set_fetchers (f : list FetcherPC) (c : Cycle) : Cycle :=
  {| fetchers := f; collector := collector c; main := main c;
     closed := closed c; rows := rows c; screen := screen c |}.
Definition set_collector (k : CollectorPC) (c : Cycle) : Cycle :=
  {| fetchers := fetchers c; collector := k; main := main c;
     closed := closed c; rows := rows c; screen := screen c |}.
Definition set_main (m : MainPC) (c : Cycle) : Cycle :=
  {| fetchers := fetchers c; collector := collector c; main := m;
     closed := closed c; rows := rows c; screen := screen c |}.
Definition set_closed (b : bool) (c : Cycle) : Cycle :=
  {| fetchers := fetchers c; collector := collector c; main := main c;
     closed := b; rows := rows c; screen := screen c |}.
Definition set_rows (r : Rows) (c : Cycle) : Cycle :=
  {| fetchers := fetchers c; collector := collector c; main := main c;
     closed := closed c; rows := r; screen := screen c |}.
Definition set_screen (t : option Table) (c : Cycle) : Cycle :=
  {| fetchers := fetchers c; collector := collector c; main := main c;
     closed := closed c; rows := rows c; screen := t |}.

(** The process runs a cycle, or has ended ([log.Fatal] or a panic). *)
Inductive Process : Type :=
| Running (c : Cycle)
| Exited.

(** The state after [rows = make(Rows, 0)], [ch = make(chan Rows)] and the
    five [go] statements. *)
Definition cycle_start : Cycle :=
  {| fetchers := [FStart; FStart; FStart; FStart];
     collector := CRecv; main := MWait; closed := false;
     rows := []; screen := None |}.

Inductive Action : Type :=
| AList (i : nat)      (* fetcher [i]: the [List] call and the loop over the items *)
| ASend (i : nat)      (* fetcher [i]: [ch <- rows], received by the collector *)
| ADone (i : nat)      (* fetcher [i]: the deferred [wg.Done()] *)
| AAppend              (* collector: [rows = append(rows, r...)] *)
| ACollectorExit       (* collector: [range ch] ends on the closed channel *)
| AWait                (* main: [wg.Wait()] returns *)
| AClose               (* main: [close(ch)] *)
| ASort                (* main: [clear(); sort.Sort(rows)] *)
| ARender.             (* main: [render(Row{...}, rows)] *)

Definition is_FDone (f : FetcherPC) : bool :=
  match f with FDone => true | _ => false end.

Section Cycle.
(** [sorter] stands for [sort.Sort]; [fetched] holds the outcomes of
    [getNodes], [getServices], [getDeployments] and [getPods] in this
    cycle, in the order of their [go] statements. *)
Context (sorter : Rows -> Rows) (fetched : list (Result Rows)).

Definition step (a : Action) (c : Cycle) : option Process :=
  match a with
  | AList i =>
      match fetchers c !! i, fetched !! i with
      | Some FStart, Some (Returns r) =>
          Some (Running (set_fetchers (<[i := FSend r]> (fetchers c)) c))
      | Some FStart, Some _ => Some Exited
      | _, _ => None
      end
  | ASend i =>
      match fetchers c !! i, collector c with
      | Some (FSend r), CRecv =>
          if closed c then Some Exited
          else Some (Running (set_collector (CAppend r)
                       (set_fetchers (<[i := FSent]> (fetchers c)) c)))
      | _, _ => None
      end
  | ADone i =>
      match fetchers c !! i with
      | Some FSent =>
          Some (Running (set_fetchers (<[i := FDone]> (fetchers c)) c))
      | _ => None
      end
  | AAppend =>
      match collector c with
      | CAppend r =>
          Some (Running (set_collector CRecv (set_rows (rows c ++ r) c)))
      | _ => None
      end
  | ACollectorExit =>
      match collector c with
      | CRecv =>
          if closed c then Some (Running (set_collector CExit c)) else None
      | _ => None
      end
  | AWait =>
      match main c with
      | MWait =>
          if forallb is_FDone (fetchers c)
          then Some (Running (set_main MClose c)) else None
      | _ => None
      end
  | AClose =>
      match main c with
      | MClose => Some (Running (set_main MSort (set_closed true c)))
      | _ => None
      end
  | ASort =>
      match main c with
      | MSort => Some (Running (set_main MRender (set_rows (sorter (rows c)) c)))
      | _ => None
      end
  | ARender =>
      match main c with
      | MRender =>
          match render main_header (rows c) with
          | Returns t => Some (Running (set_main MSleep (set_screen (Some t) c)))
          | _ => Some Exited
          end
      | _ => None
      end
  end.

(** A schedule, run from a process state; [None] when an action of the
    schedule is not enabled. Nothing runs after the process has ended. *)
Fixpoint run (schedule : list Action) (p : Process) : option Process :=
  match schedule, p with
  | [], _ => Some p
  | a :: schedule', Running c =>
      match step a c with
      | Some p' => run schedule' p'
      | None => None
      end
  | _ :: _, Exited => None
  end.

(** The states a cycle can reach. *)
Inductive reachable : Process -> Prop :=
| reachable_start : reachable (Running cycle_start)
| reachable_step c a p :
    reachable (Running c) -> step a c = Some p -> reachable p.

End Cycle.

(** ** The cycle of [main] on the four fetchers *)

(** The outcomes of the four fetchers of a cycle, in the order of their
    [go] statements. *)
Definition cycle_fetched (env : Env) (lcpNodes : string)
    (nodes : ListResult Node) (services : ListResult Service)
    (deps : ListResult Deployment) (pods : ListResult Pod)
  : list (Result Rows) :=
  [ getNodes env nodes; getServices env services;
    getDeployments env deps; getPods env lcpNodes pods ].

(** The [List] call of fetcher [i] returned an error. *)
Definition list_failed (i : nat)
    (nodes : ListResult Node) (services : ListResult Service)
    (deps : ListResult Deployment) (pods : ListResult Pod) : Prop :=
  match i with
  | 0%nat => nodes = ListError
  | 1%nat => services = ListError
  | 2%nat => deps = ListError
  | 3%nat => pods = ListError
  | _ => False
  end.

Definition seven_fields (row : Row) : Prop := length row = 7%nat.

(** All the rows the fetchers of a cycle return. *)
Definition fetched_rows (fetched : list (Result Rows)) : Rows :=
  concat (map (fun o => match o with Returns r => r | _ => [] end) fetched).

(** What [main] still has to do in a cycle whose fetcher [i] ended the
    process or has not run: it waits, and nothing is on the screen. *)
Definition held_back (i : nat) (p : Process) : Prop :=
  match p with
  | Exited => True
  | Running c =>
      fetchers c !! i = Some FStart /\ main c = MWait /\ screen c = None
  end.

(** [P] holds of every row a cycle holds: in [rows], in a fetcher about
    to send, in the collector about to append. *)
Definition cycle_rows_all (P : Row -> Prop) (c : Cycle) : Prop :=
  List.Forall P (rows c) /\
  List.Forall
    (fun f => match f with FSend r => List.Forall P r | _ => True end)
    (fetchers c) /\
  match collector c with CAppend r => List.Forall P r | _ => True end.

(** ** Sample data

    An environment without colours (the colour functions return their
    argument, as they do when colouring is switched off), whose clock
    reads 1000 seconds. *)
Definition plain_env (flag : string) : Env :=
  {| colorNode := fun s => s;
     colorPod := fun s => s;
     colorService := fun s => s;
     colorDeployment := fun s => s;
     colorFailed := fun s => s;
     colorWarning := fun s => s;
     flagNamespace := flag;
     time_Since := fun t => 1000 * Second - t |}.

Definition sample_meta (name ns : string) : ObjectMeta :=
  {| Name := name; Namespace := ns; CreationTimestamp := 700 * Second |}.

Definition sample_node : Node :=
  {| node_ObjectMeta := sample_meta "node-a1" "";
     node_Phase := "";
     node_Conditions := [{| cond_Type := "Ready"; cond_Status := "True" |}];
     node_Addresses := [{| Address := "10.0.0.1" |}; {| Address := "10.0.0.1" |}] |}.

Definition sample_service : Service :=
  {| svc_ObjectMeta := sample_meta "web" "default";
     svc_Ingress := [];
     svc_Ports := [{| port_Name := "http" |}];
     svc_ExternalIPs := [];
     svc_ClusterIP := "10.96.0.7" |}.

Definition sample_deployment (desired : option Z) : Deployment :=
  {| dep_ObjectMeta := sample_meta "web" "default";
     dep_Conditions := [{| cond_Type := "Available"; cond_Status := "True" |}];
     dep_AvailableReplicas := 1;
     dep_Replicas := 2;
     dep_Spec_Replicas := desired |}.

Definition sample_pod (phase : string) (conds : list Condition)
    (node ip : string) : Pod :=
  {| pod_ObjectMeta := sample_meta "web" "default";
     pod_Phase := phase;
     pod_Conditions := conds;
     pod_PodIP := ip;
     pod_NodeName := node |}.

(** Two pods of one name: the first is pending on [node-a2], the second
    is pending and scheduled on [node-a1]. *)
Definition two_pending_pods : list Pod :=
  [ sample_pod "Pending" [] "node-a2" "10.0.0.2";
    sample_pod "Pending"
      [{| cond_Type := "PodScheduled"; cond_Status := "True" |}]
      "node-a1" "10.0.0.1" ].

(** The cluster of the end-to-end scenario: two nodes, one service, one
    deployment with one of two replicas available, one pod on the first
    node. *)
Definition sample_nodes : list Node :=
  [ sample_node;
    {| node_ObjectMeta := sample_meta "node-a2" "";
       node_Phase := "";
       node_Conditions := [{| cond_Type := "Ready"; cond_Status := "True" |}];
       node_Addresses := [{| Address := "10.0.0.2" |}] |} ].

Definition sample_lcpNodes : string :=
  lcp (map (fun node => Name (node_ObjectMeta node)) sample_nodes).

Definition sample_fetched : list (Result Rows) :=
  cycle_fetched (plain_env "") sample_lcpNodes
    (Listed sample_nodes) (Listed [sample_service])
    (Listed [sample_deployment (Some 2)])
    (Listed [sample_pod "Running"
               [{| cond_Type := "Ready"; cond_Status := "True" |}]
               "node-a1" "10.1.0.5"]).

(** The same cycle when the [List] call for the pods fails. *)
Definition sample_fetched_pods_failed : list (Result Rows) :=
  cycle_fetched (plain_env "") sample_lcpNodes
    (Listed sample_nodes) (Listed [sample_service])
    (Listed [sample_deployment (Some 2)]) ListError.

(** A schedule in which the collector appends each [Rows] value before
    the next fetcher sends. *)
Definition orderly_schedule : list Action :=
  [ AList 0; AList 1; AList 2; AList 3;
    ASend 0; AAppend; ADone 0;
    ASend 1; AAppend; ADone 1;
    ASend 2; AAppend; ADone 2;
    ASend 3; AAppend; ADone 3;
    AWait; AClose; ACollectorExit; ASort; ARender ].

(** A schedule in which the collector has received the rows of the pod
    fetcher but is not scheduled again before [main] has rendered. *)
Definition racy_schedule : list Action :=
  [ AList 0; AList 1; AList 2; AList 3;
    ASend 0; AAppend; ADone 0;
    ASend 1; AAppend; ADone 1;
    ASend 2; AAppend; ADone 2;
    ASend 3; ADone 3;
    AWait; AClose; ASort; ARender ].

(** The state in which a schedule leaves the sample cycle. *)
Definition sample_state (fetched : list (Result Rows))
    (schedule : list Action) : Cycle :=
  match run insertionSort fetched schedule (Running cycle_start) with
  | Some (Running c) => c
  | _ => cycle_start
  end.

(** Another interleaving, up to the sort: the pod fetcher sends first. *)
Definition mixed_schedule_sorted : list Action :=
  [ AList 3; AList 0; ASend 3; AAppend; ASend 0; AAppend; AList 1;
    AList 2; ASend 2; AAppend; ASend 1; AAppend;
    ADone 0; ADone 1; ADone 2; ADone 3; AWait; AClose; ASort ].

Definition sample_pod_row : Row :=
  ["[pod]"; "default"; "web"; "Running Ready"; "1"; "10.1.0.5"; "5m"].

(** Two different rows with the same rendering [[a b c     ]]. *)
Definition tie_row1 : Row := ["a b"; "c"; ""; ""; ""; ""; ""].
Definition tie_row2 : Row := ["a"; "b c"; ""; ""; ""; ""; ""].

(** A row with the rendering [[k      ]]. *)
Definition key_row (k : string) : Row := [k; ""; ""; ""; ""; ""; ""].

(** Fifteen rows in ascending order, the two rows that print alike in
    the middle, in one order and in the other. *)
Definition tied_rows : Rows :=
  [ key_row "0"; key_row "1"; key_row "2"; key_row "3"; key_row "4";
    key_row "5"; key_row "6"; tie_row1; tie_row2; key_row "b"; key_row "c";
    key_row "d"; key_row "e"; key_row "f"; key_row "g" ].

Definition tied_rows_swapped : Rows :=
  [ key_row "0"; key_row "1"; key_row "2"; key_row "3"; key_row "4";
    key_row "5"; key_row "6"; tie_row2; tie_row1; key_row "b"; key_row "c";
    key_row "d"; key_row "e"; key_row "f"; key_row "g" ].

(** ** Where the rows of a cycle are

    The rows a fetcher still has to hand over: what its [List] call will
    give while it has not run, the rows it built while it waits to send,
    nothing afterwards. *)
Definition pending_rows (f : FetcherPC) (o : Result Rows) : Rows :=
  match f with
  | FStart => match o with Returns r => r | _ => [] end
  | FSend r => r
  | FSent | FDone => []
  end.

Definition in_flight (fs : list FetcherPC) (fetched : list (Result Rows))
  : Rows :=
  concat (zip_with pending_rows fs fetched).

(** The rows the collector has received and not yet appended. *)
Definition collector_held (k : CollectorPC) : Rows :=
  match k with
  | CAppend r => r
  | _ => []
  end.

(** What the program counters of a cycle keep true. All fetchers are done
    once [main] has left [wg.Wait()]; the channel is closed exactly from
    [close(ch)] on; the collector returns only on the closed channel; and
    a table on the screen means that [main] sleeps and that the table
    holds the rows that were in [rows] when [render] ran. *)
Definition cycle_inv (c : Cycle) : Prop :=
  length (fetchers c) = 4%nat /\
  (main c = MWait \/ forallb is_FDone (fetchers c) = true) /\
  closed c = match main c with MWait | MClose => false | _ => true end /\
  (collector c = CExit -> closed c = true) /\
  match screen c with
  | Some t =>
      main c = MSleep /\ table_header t = main_header /\
      exists late, rows c = table_rows t ++ late
  | None => main c <> MSleep
  end.

(** The statements a cycle still has to run, counted generously: every
    step of the cycle lowers the count. *)
Definition fetcher_weight (f : FetcherPC) : nat :=
  match f with FStart => 4 | FSend _ => 3 | FSent => 1 | FDone => 0 end.

Definition collector_weight (k : CollectorPC) : nat :=
  match k with CRecv => 1 | CAppend _ => 2 | CExit => 0 end.

Definition main_weight (m : MainPC) : nat :=
  match m with
  | MWait => 4 | MClose => 3 | MSort => 2 | MRender => 1 | MSleep => 0
  end.

Definition cycle_weight (c : Cycle) : nat :=
  list_sum (map fetcher_weight (fetchers c))
  + collector_weight (collector c) + main_weight (main c).

Definition process_weight (p : Process) : nat :=
  match p with
  | Running c => cycle_weight c
  | Exited => 0
  end.

(** ** What the fetchers show

    The test of the service, deployment and pod loops that lets an item
    through: the item is not in [kube-system], and the namespace flag, if
    set, names its namespace. *)
Definition shown (env : Env) (ns : string) : bool :=
  negb (String.eqb ns "kube-system") && negb (other_namespace env ns).

(** The body of a loop has built a row. *)
Definition is_row (o : Result (option Row)) : bool :=
  match o with
  | Returns (Some _) => true
  | _ => false
  end.

(** The invariant of the address loop of [getNodes], [seen] being the
    addresses already visited. *)
Definition node_addresses_inv (seen : list NodeAddress)
    (st : gmap string bool * list string) : Prop :=
  List.NoDup (snd st) /\
  (forall a, fst st !! a = Some true <-> In a (snd st)) /\
  (forall a, In a (snd st) <-> In a (map Address seen)).

(** ** The start of [main]

    [main] lists the nodes once, collects their names and takes their
    longest common prefix; the pod fetcher strips it from the node name of
    every pod. *)
Definition main_lcpNodes (nodes : list Node) : string :=
  lcp (map (fun node => Name (node_ObjectMeta node)) nodes).

(* ===================================================================== *)
(** * Part II: lemmas and theorems                                        *)
(* ===================================================================== *)

(** ** Strings *)

Lemma append_nil (b : string) : "" +:+ b = b.
Proof. reflexivity. Qed.

Lemma append_cons (x : Ascii.ascii) (a b : string) :
  String x a +:+ b = String x (a +:+ b).
Proof. reflexivity. Qed.

Lemma len_append (a b : string) : len (a +:+ b) = (len a + len b)%nat.
Proof.
  induction a as [|x a IH]; [reflexivity|].
  rewrite append_cons. simpl. now rewrite IH.
Qed.

Lemma append_assoc (a b c : string) : (a +:+ b) +:+ c = a +:+ (b +:+ c).
Proof.
  induction a as [|x a IH]; [reflexivity|].
  rewrite !append_cons. now rewrite IH.
Qed.

Lemma append_empty_r (a : string) : a +:+ "" = a.
Proof.
  induction a as [|x a IH]; [reflexivity|].
  rewrite append_cons. now rewrite IH.
Qed.

Lemma substring_0_append (a b : string) :
  String.substring 0 (len a) (a +:+ b) = a.
Proof.
  induction a as [|x a IH].
  - rewrite append_nil. now destruct b.
  - rewrite append_cons. simpl. now rewrite IH.
Qed.

Lemma substring_0_full (a : string) : String.substring 0 (len a) a = a.
Proof.
  rewrite <- (append_empty_r a) at 2. apply substring_0_append.
Qed.

Lemma substring_skip_append (a b : string) (m : nat) :
  String.substring (len a) m (a +:+ b) = String.substring 0 m b.
Proof.
  induction a as [|x a IH]; [reflexivity|].
  rewrite append_cons. simpl. apply IH.
Qed.

(** A string splits at any index within its length. *)
Lemma string_split_at (n : nat) (s : string) :
  (n <= len s)%nat -> exists a b, s = a +:+ b /\ len a = n.
Proof.
  revert s. induction n as [|n IH]; intros s Hn.
  - exists "", s. split; reflexivity.
  - destruct s as [|c s]; simpl in Hn; [lia|].
    destruct (IH s) as (a & b & -> & Ha); [lia|].
    exists (String c a), b. split; [reflexivity | simpl; now rewrite Ha].
Qed.

(** ** [truncate] *)

Lemma truncate_short (s : string) :
  (len s < 20)%nat -> truncate s = s.
Proof.
  intros H. unfold truncate, truncate_max.
  destruct (Nat.ltb_spec (len s) 20); [reflexivity | lia].
Qed.

(** From 20 characters on, the result is made of the first 12 characters,
    three dots and the last 5 characters. *)
Lemma truncate_long (s : string) :
  (20 <= len s)%nat ->
  exists p mid suf,
    s = p +:+ mid +:+ suf /\ len p = 12%nat /\ len suf = 5%nat /\
    truncate s = p +:+ "..." +:+ suf.
Proof.
  intros H.
  destruct (string_split_at 12 s) as (p & rest & -> & Hp); [lia|].
  rewrite len_append in H.
  destruct (string_split_at (len rest - 5) rest) as (mid & suf & -> & Hm); [lia|].
  rewrite len_append in H, Hm.
  exists p, mid, suf. repeat split; [assumption | lia |].
  unfold truncate, truncate_max, truncate_rightLen, slice, slice_from.
  rewrite !len_append.
  destruct (Nat.ltb_spec (len p + (len mid + len suf)) 20); [lia|].
  replace (20 - 3 - 5 - 0)%nat with (len p) by lia.
  rewrite substring_0_append. do 2 f_equal.
  rewrite <- append_assoc.
  replace (len p + (len mid + len suf) - 5)%nat with (len (p +:+ mid))
    by (rewrite len_append; lia).
  rewrite substring_skip_append.
  replace (len p + (len mid + len suf) - len (p +:+ mid))%nat with (len suf)
    by (rewrite len_append; lia).
  apply substring_0_full.
Qed.

(** C2 (amended). A name of fewer than 20 characters, a 19-character one
    in particular, is returned as it is. A name of more than 20 characters
    is shortened to its first 12 characters, three dots and its last 5
    characters, 20 characters in all; so a 25-character name becomes its
    12-character prefix, ["..."] and its last 5 characters. *)
Theorem truncate_spec (s : string) :
  ((len s < 20)%nat -> truncate s = s) /\
  ((20 < len s)%nat ->
   exists p mid suf,
     s = p +:+ mid +:+ suf /\ len p = 12%nat /\ len suf = 5%nat /\
     truncate s = p +:+ "..." +:+ suf /\ len (truncate s) = 20%nat).
Proof.
  split; [apply truncate_short|].
  intros H. destruct (truncate_long s) as (p & mid & suf & Hs & Hp & Hsuf & Ht); [lia|].
  exists p, mid, suf. repeat split; try assumption.
  rewrite Ht, !len_append, Hp, Hsuf. reflexivity.
Qed.

Lemma truncate_spec_witness :
  truncate "kube-dns-5c6b9d84f7" = "kube-dns-5c6b9d84f7" /\
  exists p mid suf,
    "frontend-7d4b9c6f5-x2x9q" = p +:+ mid +:+ suf /\
    len p = 12%nat /\ len suf = 5%nat /\
    truncate "frontend-7d4b9c6f5-x2x9q" = p +:+ "..." +:+ suf /\
    len (truncate "frontend-7d4b9c6f5-x2x9q") = 20%nat.
Proof.
  split.
  - apply (proj1 (truncate_spec "kube-dns-5c6b9d84f7")). vm_compute. lia.
  - apply (proj2 (truncate_spec "frontend-7d4b9c6f5-x2x9q")). vm_compute. lia.
Defined.

(** C2, as stated, fails: of a 25-character name [truncate] keeps the
    first 12 characters, not the first 17. *)
Lemma truncate_25_keeps_12 :
  len "abcdefghijklmnopqrstuvwxy" = 25%nat /\
  truncate "abcdefghijklmnopqrstuvwxy" = "abcdefghijkl...uvwxy" /\
  truncate "abcdefghijklmnopqrstuvwxy"
    <> slice "abcdefghijklmnopqrstuvwxy" 0 17 +:+ "..."
         +:+ slice_from "abcdefghijklmnopqrstuvwxy" 20.
Proof. repeat split. vm_compute. discriminate. Qed.

(** At exactly 20 characters the test [len(s) < max] already fails, and
    three characters of the name give way to the dots. *)
Lemma truncate_20_changes :
  len "abcdefghijklmnopqrst" = 20%nat /\
  truncate "abcdefghijklmnopqrst" = "abcdefghijkl...pqrst".
Proof. split; reflexivity. Qed.

(** ** [shortHumanDuration] *)

(** The examples of the specification. *)
Lemma shortHumanDuration_examples :
  shortHumanDuration (45 * Second) = "45s" /\
  shortHumanDuration (90 * Second) = "1m" /\
  shortHumanDuration (7200 * Second) = "2h" /\
  shortHumanDuration (10 * Day) = "10d" /\
  shortHumanDuration (400 * Day) = "1y" /\
  shortHumanDuration (- (1 * Second)) = "0s" /\
  shortHumanDuration (- (5 * Second)) = "<invalid>".
Proof. vm_compute. repeat split. Qed.

(** On these durations the exact format and the program agree. *)
Lemma age_format_examples :
  Forall (fun d => shortHumanDuration d = age_format d)
    [45 * Second; 90 * Second; 7200 * Second; 10 * Day; 400 * Day;
     - (1 * Second); - (5 * Second); Minute - 1; Hour - 1; Day - 1;
     1 - 2 * Second; - (2 * Second); 363 * Day; 364 * Day; 364 * Day - 4].
Proof. repeat constructor. Qed.

(** With exact conversions the branches of the program give the format
    of the specification, for every duration. *)
Lemma shortHumanDuration_exact_age_format (d : Duration) :
  shortHumanDuration_exact d = age_format d.
Proof.
  unfold shortHumanDuration_exact, age_format.
  cbv zeta.
  repeat match goal with
         | |- context [?a <? ?b] => destruct (Z.ltb_spec a b)
         | |- context [?a <=? ?b] => destruct (Z.leb_spec a b)
         end;
    try reflexivity;
    unfold Day, Hour, Minute, Second, Nanosecond in *;
    try (exfalso; Z.to_euclidean_division_equations; lia).
  - replace (Z.quot d (1000000000 * 1)) with 0
      by (Z.to_euclidean_division_equations; lia).
    reflexivity.
  - do 2 f_equal. Z.to_euclidean_division_equations; lia.
Qed.

(** C5: one nanosecond short of 364 days the duration is below 364 days,
    so its age is to be given in days (["363d"]); [d.Hours()] however is
    [8735 + 3599999999999 / 3.6e12], which in [float64] rounds to [8736],
    the test [hours < 24*364] fails and the year branch prints ["0y"]. *)
Theorem shortHumanDuration_364d_less_1ns :
  (0 <= 364 * Day - 1 < 364 * Day) /\
  is_Duration (364 * Day - 1) /\
  int_of_float64 (Duration_Hours (364 * Day - 1)) = 8736 /\
  shortHumanDuration (364 * Day - 1) = "0y" /\
  age_format (364 * Day - 1) = "363d".
Proof.
  split; [|split]; [unfold Day, Hour, Minute, Second, Nanosecond; lia
                  | unfold is_Duration, Day, Hour, Minute, Second, Nanosecond; lia |].
  vm_compute. repeat split.
Qed.

(** ** The order of Go strings *)

Lemma ascii_compare_refl (a : Ascii.ascii) : Ascii.compare a a = Eq.
Proof. apply N.compare_refl. Qed.

Lemma ascii_compare_lt_trans (a b c : Ascii.ascii) :
  Ascii.compare a b = Lt -> Ascii.compare b c = Lt -> Ascii.compare a c = Lt.
Proof.
  unfold Ascii.compare. rewrite !N.compare_lt_iff. apply N.lt_trans.
Qed.

Lemma string_compare_refl (s : string) : String.compare s s = Eq.
Proof.
  induction s as [|c s IH]; simpl; [reflexivity|].
  now rewrite ascii_compare_refl.
Qed.

Lemma string_compare_lt_trans (a b c : string) :
  String.compare a b = Lt -> String.compare b c = Lt -> String.compare a c = Lt.
Proof.
  revert b c. induction a as [|x a IH]; intros [|y b] [|z c]; simpl;
    try discriminate; try reflexivity.
  destruct (Ascii.compare x y) eqn:Hxy; try discriminate;
    destruct (Ascii.compare y z) eqn:Hyz; try discriminate; intros Hab Hbc.
  - apply Ascii.compare_eq_iff in Hxy, Hyz. subst.
    rewrite ascii_compare_refl. eauto.
  - apply Ascii.compare_eq_iff in Hxy. subst. now rewrite Hyz.
  - apply Ascii.compare_eq_iff in Hyz. subst. now rewrite Hxy.
  - now rewrite (ascii_compare_lt_trans x y z).
Qed.

Lemma string_compare_gt_lt (a b : string) :
  String.compare a b = Gt <-> String.compare b a = Lt.
Proof.
  rewrite (String.compare_antisym a b).
  destruct (String.compare b a); simpl; split; congruence.
Qed.

Lemma ltb_compare (a b : string) :
  String.ltb a b = true <-> String.compare a b = Lt.
Proof. unfold String.ltb. destruct (String.compare a b); split; congruence. Qed.

Lemma string_le_compare (a b : string) :
  string_le a b <-> String.compare a b <> Gt.
Proof.
  unfold string_le. rewrite string_compare_gt_lt, <- ltb_compare.
  destruct (String.ltb b a); split; congruence.
Qed.

Lemma string_le_refl (a : string) : string_le a a.
Proof. apply string_le_compare. rewrite string_compare_refl. discriminate. Qed.

Lemma string_le_antisym (a b : string) :
  string_le a b -> string_le b a -> a = b.
Proof.
  rewrite !string_le_compare, (string_compare_gt_lt b a).
  destruct (String.compare a b) eqn:E; try congruence.
  intros _ _. now apply String.compare_eq_iff.
Qed.

Lemma string_le_trans (a b c : string) :
  string_le a b -> string_le b c -> string_le a c.
Proof.
  rewrite !string_le_compare. intros Hab Hbc Hac.
  destruct (String.compare a b) eqn:E1; try congruence;
    destruct (String.compare b c) eqn:E2; try congruence.
  - apply String.compare_eq_iff in E1, E2. subst.
    rewrite string_compare_refl in Hac. discriminate.
  - apply String.compare_eq_iff in E1. subst. congruence.
  - apply String.compare_eq_iff in E2. subst. congruence.
  - rewrite (string_compare_lt_trans a b c) in Hac; congruence.
Qed.

Lemma string_le_total (a b : string) : string_le a b \/ string_le b a.
Proof.
  rewrite !string_le_compare, (string_compare_gt_lt b a).
  destruct (String.compare a b); [left | left | right]; congruence.
Qed.

Lemma ltb_true_le (a b : string) : String.ltb a b = true -> string_le a b.
Proof.
  rewrite ltb_compare, string_le_compare. congruence.
Qed.

Lemma ltb_false_le (a b : string) : String.ltb a b = false -> string_le b a.
Proof. trivial. Qed.

(** ** [lcp] *)

Lemma prefix_nil (s : string) : String.prefix "" s = true.
Proof. now destruct s. Qed.

Lemma prefix_cons (c : Ascii.ascii) (p s : string) :
  String.prefix (String c p) (String c s) = String.prefix p s.
Proof. simpl. destruct (Ascii.ascii_dec c c); congruence. Qed.

Lemma prefix_refl (s : string) : String.prefix s s = true.
Proof.
  induction s as [|c s IH]; [reflexivity | now rewrite prefix_cons].
Qed.

Lemma common_prefix_refl (s : string) : common_prefix s s = s.
Proof.
  induction s as [|c s IH]; simpl; [reflexivity|].
  now rewrite Ascii.eqb_refl, IH.
Qed.

(** The common prefix of two strings is a prefix of every string between
    them. *)
Lemma common_prefix_between (a b s : string) :
  string_le a s -> string_le s b ->
  String.prefix (common_prefix a b) s = true.
Proof.
  rewrite !string_le_compare.
  revert b s. induction a as [|c a IH]; intros b s Has Hsb.
  - simpl. apply prefix_nil.
  - destruct b as [|d b]; [apply prefix_nil|]. simpl.
    destruct (Ascii.eqb_spec c d) as [<-|Hcd]; [|apply prefix_nil].
    destruct s as [|e s]; simpl in Has, Hsb; [congruence|].
    destruct (Ascii.compare c e) eqn:Hce; try congruence.
    + apply Ascii.compare_eq_iff in Hce. subst e.
      rewrite ascii_compare_refl in Hsb.
      rewrite prefix_cons. now apply IH.
    + rewrite Ascii.compare_antisym, Hce in Hsb. simpl in Hsb. congruence.
Qed.

Lemma get_len_append (pre : string) (c : Ascii.ascii) (a : string) :
  String.get (len pre) (pre +:+ String c a) = Some c.
Proof.
  induction pre as [|x pre IH]; [reflexivity|].
  rewrite append_cons. simpl. apply IH.
Qed.

Lemma append_snoc (pre : string) (c : Ascii.ascii) (a : string) :
  pre +:+ String c a = (pre +:+ String c "") +:+ a.
Proof. now rewrite append_assoc. Qed.

(** The index loop of [lcp], started behind a common part [pre], yields
    [pre] and the common prefix of the remainders, the first remainder
    being the smaller one. *)
Lemma lcp_scan_common_prefix (a b pre : string) (fuel : nat) :
  String.compare a b <> Gt -> (len a < fuel)%nat ->
  lcp_scan fuel (len pre) (pre +:+ a) (pre +:+ b)
  = pre +:+ common_prefix a b.
Proof.
  revert b pre fuel. induction a as [|c a IH]; intros b pre fuel Hab Hfuel.
  - destruct fuel as [|fuel]; [simpl in Hfuel; lia|].
    simpl. rewrite append_empty_r, Nat.ltb_irrefl. simpl.
    now destruct b.
  - destruct fuel as [|fuel]; [simpl in Hfuel; lia|].
    destruct b as [|d b]; [simpl in Hab; congruence|].
    simpl lcp_scan. rewrite !len_append.
    destruct (Nat.ltb_spec (len pre) (len pre + len (String c a)));
      [|simpl in *; lia].
    destruct (Nat.ltb_spec (len pre) (len pre + len (String d b)));
      [|simpl in *; lia].
    cbn [andb]. unfold byte_eqb_at. rewrite !get_len_append.
    simpl common_prefix. simpl in Hab.
    destruct (Ascii.eqb_spec c d) as [<-|Hcd].
    + rewrite ascii_compare_refl in Hab.
      rewrite (append_snoc pre c a), (append_snoc pre c b).
      replace (S (len pre)) with (len (pre +:+ String c ""))
        by (rewrite len_append; simpl; lia).
      rewrite IH; [|assumption|simpl in Hfuel; lia].
      now rewrite append_assoc.
    + unfold slice. rewrite Nat.sub_0_r, substring_0_append.
      now rewrite append_empty_r.
Qed.

Lemma lcp_minmax_step_inv (seen : list string) (mm : string * string)
    (s : string) :
  minmax_inv seen mm -> minmax_inv (seen ++ [s]) (lcp_minmax_step mm s).
Proof.
  destruct mm as [mn mx]. intros [[Hmn Hlo] [Hmx Hhi]]. simpl in *.
  assert (Hmm : string_le mn mx) by auto.
  unfold lcp_minmax_step, minmax_inv, is_lex_min, is_lex_max.
  destruct (String.ltb s mn) eqn:E1; [|destruct (String.ltb mx s) eqn:E2];
    simpl; repeat split; try (apply in_or_app; simpl; tauto);
    intros t [Ht|[<-|[]]]%in_app_or; auto using string_le_refl.
  - apply ltb_true_le in E1. eauto using string_le_trans.
  - apply ltb_true_le in E1. eauto using string_le_trans.
  - apply ltb_true_le in E2. eauto using string_le_trans.
Qed.

Lemma fold_minmax_inv (rest seen : list string) (mm : string * string) :
  minmax_inv seen mm ->
  minmax_inv (seen ++ rest) (fold_left lcp_minmax_step rest mm).
Proof.
  revert seen mm. induction rest as [|s rest IH]; intros seen mm H; simpl.
  - now rewrite app_nil_r.
  - replace (seen ++ s :: rest) with ((seen ++ [s]) ++ rest)
      by now rewrite <- app_assoc.
    apply IH. now apply lcp_minmax_step_inv.
Qed.

Lemma lcp_minmax_spec (l0 : string) (rest : list string) :
  minmax_inv (l0 :: rest) (lcp_minmax l0 rest).
Proof.
  apply (fold_minmax_inv rest [l0] (l0, l0)).
  repeat split; simpl; auto; intros s [<-|[]]; apply string_le_refl.
Qed.

Lemma is_lex_min_unique (l : list string) (m m' : string) :
  is_lex_min m l -> is_lex_min m' l -> m = m'.
Proof. intros [H1 H2] [H3 H4]. apply string_le_antisym; auto. Qed.

Lemma is_lex_max_unique (l : list string) (m m' : string) :
  is_lex_max m l -> is_lex_max m' l -> m = m'.
Proof. intros [H1 H2] [H3 H4]. apply string_le_antisym; auto. Qed.

(** From two strings on, [lcp] is the common prefix of the minimum and the
    maximum the first loop finds. *)
Lemma lcp_minmax_common_prefix (l0 l1 : string) (rest : list string) :
  lcp (l0 :: l1 :: rest)
  = common_prefix (fst (lcp_minmax l0 (l1 :: rest)))
                  (snd (lcp_minmax l0 (l1 :: rest))).
Proof.
  unfold lcp.
  pose proof (lcp_minmax_spec l0 (l1 :: rest)) as [[Hmn Hlo] [Hmx Hhi]].
  destruct (lcp_minmax l0 (l1 :: rest)) as [mn mx]. simpl in *.
  apply (lcp_scan_common_prefix mn mx "" (S (len mn))); [|lia].
  apply string_le_compare. auto.
Qed.

(** C4. [lcp] of the empty list is the empty string and [lcp] of a single
    name is that name; for every list, the result is a prefix of every
    element, and it is the character-by-character common prefix of the
    lexicographic minimum and maximum of the list. *)
Theorem lcp_spec (l : list string) :
  lcp [] = "" /\
  (forall l0, lcp [l0] = l0) /\
  (forall s, In s l -> String.prefix (lcp l) s = true) /\
  (forall min max,
     is_lex_min min l -> is_lex_max max l -> lcp l = common_prefix min max).
Proof.
  split; [reflexivity|]. split; [reflexivity|].
  destruct l as [|l0 [|l1 rest]].
  - split; [intros s []|]. intros mn mx [[] _].
  - split.
    + intros s [<-|[]]. apply prefix_refl.
    + intros mn mx [[<-|[]] _] [[<-|[]] _]. simpl.
      now rewrite common_prefix_refl.
  - rewrite lcp_minmax_common_prefix.
    pose proof (lcp_minmax_spec l0 (l1 :: rest)) as [Hmin Hmax].
    split.
    + intros s Hs. apply common_prefix_between.
      * now apply Hmin.
      * now apply Hmax.
    + intros mn mx Hmn Hmx.
      now rewrite (is_lex_min_unique _ _ _ Hmin Hmn),
                  (is_lex_max_unique _ _ _ Hmax Hmx).
Qed.

Lemma lcp_spec_witness :
  String.prefix (lcp ["node-a2"; "node-a1"; "node-a3"]) "node-a1" = true /\
  lcp ["node-a2"; "node-a1"; "node-a3"] = common_prefix "node-a1" "node-a3".
Proof.
  destruct (lcp_spec ["node-a2"; "node-a1"; "node-a3"]) as (_ & _ & Hp & Hc).
  split.
  - apply Hp. simpl. tauto.
  - apply Hc; split; simpl; try tauto;
      intros s [<-|[<-|[<-|[]]]]; reflexivity.
Defined.

(** ** [Rows] and [sort.Sort] *)

Lemma insert_head_Permutation (x y : Row) (r : Rows) (j : nat) :
  r !! j = Some y -> Permutation (x :: r) (y :: <[j := x]> r).
Proof.
  revert j. induction r as [|z r IH]; intros [|j] H; simpl in *;
    try discriminate.
  - injection H as ->. apply perm_swap.
  - rewrite perm_swap. rewrite (IH j H) at 1. apply perm_swap.
Qed.

Lemma Rows_Swap_Permutation (r r' : Rows) (i j : nat) :
  Rows_Swap r i j = Some r' -> Permutation r r'.
Proof.
  unfold Rows_Swap. revert i j r'.
  induction r as [|x r IH]; intros [|i] [|j] r'; simpl;
    try discriminate.
  - intros [= <-]. reflexivity.
  - destruct (r !! j) as [y|] eqn:E; [|discriminate].
    intros [= <-]. now apply insert_head_Permutation.
  - destruct (r !! i) as [y|] eqn:E; [|discriminate].
    intros [= <-]. now apply insert_head_Permutation.
  - destruct (r !! i) as [ri|] eqn:Ei; [|discriminate].
    destruct (r !! j) as [rj|] eqn:Ej; [|discriminate].
    intros [= <-]. apply perm_skip, (IH i j).
    now rewrite Ei, Ej.
Qed.

Lemma sort_swaps_Permutation (r r' : Rows) :
  sort_swaps r r' -> Permutation r r'.
Proof.
  induction 1 as [|r i j r' r'' H _ IH]; [reflexivity|].
  now rewrite (Rows_Swap_Permutation _ _ _ _ H).
Qed.

Lemma sort_swaps_trans (a b c : Rows) :
  sort_swaps a b -> sort_swaps b c -> sort_swaps a c.
Proof.
  induction 1; [trivial|]. intros. eapply sort_swaps_step; eauto.
Qed.

Lemma sort_swaps_cons (x : Row) (r r' : Rows) :
  sort_swaps r r' -> sort_swaps (x :: r) (x :: r').
Proof.
  induction 1 as [|r i j r' r'' H _ IH]; [constructor|].
  apply (sort_swaps_step _ (S i) (S j) (x :: r')); [|assumption].
  unfold Rows_Swap in *. simpl.
  destruct (r !! i); [|discriminate]. destruct (r !! j); [|discriminate].
  now injection H as <-.
Qed.

(** Every permutation is reached by swaps. *)
Lemma Permutation_sort_swaps (r r' : Rows) :
  Permutation r r' -> sort_swaps r r'.
Proof.
  induction 1 as [|x l l' _ IH|x y l|l l' l'' _ IH1 _ IH2].
  - constructor.
  - now apply sort_swaps_cons.
  - apply (sort_swaps_step _ 0 1 (x :: y :: l)); [reflexivity | constructor].
  - eapply sort_swaps_trans; eassumption.
Qed.

(** Ascending as [Less] sees it, on indices, is [StronglySorted] for
    [Row_le]. *)
Lemma sort_ascending_cons (x : Row) (r : Rows) :
  sort_ascending (x :: r) -> sort_ascending r /\ List.Forall (Row_le x) r.
Proof.
  intros H. split.
  - intros i j Hij. specialize (H (S i) (S j)). simpl in H.
    apply H. unfold Rows_Len in *. simpl. lia.
  - apply List.Forall_forall. intros y Hy.
    apply list_elem_of_In, list_elem_of_lookup in Hy as [k Hk].
    specialize (H 0%nat (S k)). unfold Rows_Less, Rows_Len in H. simpl in H.
    rewrite Hk in H. apply lookup_lt_Some in Hk.
    assert (Some (String.ltb (Sprintf_s y) (Sprintf_s x)) = Some false) as [= E]
      by (apply H; lia).
    exact E.
Qed.

Lemma sort_ascending_StronglySorted (r : Rows) :
  sort_ascending r <-> StronglySorted Row_le r.
Proof.
  split.
  - induction r as [|x r IH]; intros H; [constructor|].
    apply sort_ascending_cons in H as [H1 H2]. constructor; auto.
  - induction 1 as [|x r Hs IH Hx]; intros i j Hij.
    + unfold Rows_Len in Hij. simpl in Hij. lia.
    + unfold Rows_Len in Hij. simpl in Hij.
      destruct j as [|j]; [lia|]. destruct i as [|i].
      * unfold Rows_Less. simpl.
        destruct (lookup_lt_is_Some_2 r j) as [y Hy]; [lia|]. rewrite Hy.
        f_equal. rewrite List.Forall_forall in Hx. apply Hx.
        apply list_elem_of_In, list_elem_of_lookup. eauto.
      * apply (IH i j). unfold Rows_Len. lia.
Qed.

Lemma Row_le_trans (a b c : Row) : Row_le a b -> Row_le b c -> Row_le a c.
Proof. apply string_le_trans. Qed.

(** What a row sequence is sorted into: a permutation in ascending order. *)
Lemma sort_Sort_contract_sorted (sorter : Rows -> Rows) (r : Rows) :
  sort_Sort_contract sorter ->
  Permutation r (sorter r) /\ StronglySorted Row_le (sorter r).
Proof.
  intros H. destruct (H r) as [Hs Ha]. split.
  - now apply sort_swaps_Permutation.
  - now apply sort_ascending_StronglySorted.
Qed.

(** *** The insertion sort meets the contract *)

Section InsertionSort.
Context (before : Row -> Row -> bool).
Hypothesis before_true : forall x y, before x y = true -> Row_le x y.
Hypothesis before_false : forall x y, before x y = false -> Row_le y x.

Lemma insert_row_Permutation (x : Row) (l : Rows) :
  Permutation (x :: l) (insert_row before x l).
Proof.
  induction l as [|y l IH]; simpl; [reflexivity|].
  destruct (before x y); [reflexivity|].
  rewrite perm_swap. now apply perm_skip.
Qed.

Lemma insert_row_sorted (x : Row) (l : Rows) :
  StronglySorted Row_le l -> StronglySorted Row_le (insert_row before x l).
Proof.
  induction 1 as [|y l Hs IH Hy]; simpl; [repeat constructor|].
  destruct (before x y) eqn:E.
  - constructor; [now constructor|]. constructor; [auto|].
    eapply List.Forall_impl; [|exact Hy]. intros z Hz.
    eapply Row_le_trans; eauto.
  - constructor; [assumption|].
    rewrite <- (insert_row_Permutation x l). constructor; auto.
Qed.

Lemma sort_with_Permutation (r : Rows) : Permutation r (sort_with before r).
Proof.
  induction r as [|x r IH]; simpl; [reflexivity|].
  rewrite <- insert_row_Permutation. now apply perm_skip.
Qed.

Lemma sort_with_sorted (r : Rows) : StronglySorted Row_le (sort_with before r).
Proof.
  induction r as [|x r IH]; simpl; [constructor|].
  now apply insert_row_sorted.
Qed.

Lemma sort_with_contract : sort_Sort_contract (sort_with before).
Proof.
  intros r. split.
  - apply Permutation_sort_swaps, sort_with_Permutation.
  - apply sort_ascending_StronglySorted, sort_with_sorted.
Qed.
End InsertionSort.

Lemma insertionSort_contract : sort_Sort_contract insertionSort.
Proof.
  apply sort_with_contract; intros x y; unfold Row_le, string_le, Row_less.
  - now intros ->%negb_true_iff.
  - intros E%negb_false_iff. now apply ltb_true_le in E.
Qed.

(** *** [sort.Sort] meets the contract

    The library's quicksort returns for every row sequence, reaches it
    through [Swap] only and leaves it in ascending order. *)

Lemma data_Swap_length (r : Rows) (i j : nat) :
  length (data_Swap r i j) = length r.
Proof.
  unfold data_Swap, Rows_Swap.
  destruct (r !! i), (r !! j); trivial.
  now rewrite !length_insert.
Qed.

Lemma row_key_Swap (r : Rows) (i j k : nat) :
  (i < length r)%nat -> (j < length r)%nat ->
  row_key (data_Swap r i j) k
  = if decide (k = j) then row_key r i
    else if decide (k = i) then row_key r j else row_key r k.
Proof.
  intros Hi Hj. unfold data_Swap, Rows_Swap, row_key.
  destruct (lookup_lt_is_Some_2 r i Hi) as [x Hx].
  destruct (lookup_lt_is_Some_2 r j Hj) as [y Hy].
  rewrite Hx, Hy.
  destruct (decide (k = j)) as [->|Hkj].
  - rewrite list_lookup_insert_eq; [reflexivity|]. now rewrite length_insert.
  - rewrite list_lookup_insert_ne by congruence.
    destruct (decide (k = i)) as [->|Hki].
    + now rewrite list_lookup_insert_eq.
    + now rewrite list_lookup_insert_ne by congruence.
Qed.

Lemma data_Less_key (r : Rows) (i j : nat) :
  (i < length r)%nat -> (j < length r)%nat ->
  data_Less r i j = String.ltb (row_key r i) (row_key r j).
Proof.
  intros Hi Hj. unfold data_Less, Rows_Less, row_key.
  destruct (lookup_lt_is_Some_2 r i Hi) as [x ->].
  destruct (lookup_lt_is_Some_2 r j Hj) as [y ->]. reflexivity.
Qed.

Lemma data_Less_true (r : Rows) (i j : nat) :
  (i < length r)%nat -> (j < length r)%nat ->
  data_Less r i j = true ->
  string_le (row_key r i) (row_key r j) /\ row_key r i <> row_key r j.
Proof.
  intros Hi Hj. rewrite data_Less_key by assumption. intros H. split.
  - now apply ltb_true_le.
  - intros E. rewrite E in H. unfold String.ltb in H.
    now rewrite string_compare_refl in H.
Qed.

Lemma data_Less_false (r : Rows) (i j : nat) :
  (i < length r)%nat -> (j < length r)%nat ->
  data_Less r i j = false -> string_le (row_key r j) (row_key r i).
Proof. intros Hi Hj. now rewrite data_Less_key by assumption. Qed.

Lemma swaps_in_trans (a b : nat) (r1 r2 r3 : Rows) :
  swaps_in a b r1 r2 -> swaps_in a b r2 r3 -> swaps_in a b r1 r3.
Proof.
  induction 1 as [|r i j r' Hi Hj Hlen _ IH]; [trivial|].
  intros H. apply (swaps_in_step _ _ r i j); auto.
Qed.

Lemma swaps_in_length (a b : nat) (r r' : Rows) :
  swaps_in a b r r' -> length r' = length r.
Proof.
  induction 1 as [|r i j r' _ _ _ _ IH]; [reflexivity|].
  now rewrite IH, data_Swap_length.
Qed.

Lemma swaps_in_weaken (a b a' b' : nat) (r r' : Rows) :
  (a' <= a)%nat -> (b <= b')%nat -> (b' <= length r)%nat ->
  swaps_in a b r r' -> swaps_in a' b' r r'.
Proof.
  intros Ha Hb Hl H. induction H as [|r i j r' Hi Hj Hlen _ IH]; [constructor|].
  apply (swaps_in_step _ _ r i j); [lia..|].
  apply IH. now rewrite data_Swap_length.
Qed.

Lemma swaps_in_one (a b : nat) (r : Rows) (i j : nat) :
  (a <= i < b)%nat -> (a <= j < b)%nat -> (b <= length r)%nat ->
  swaps_in a b r (data_Swap r i j).
Proof. intros. apply (swaps_in_step _ _ r i j); auto. constructor. Qed.

Lemma swaps_in_outside (a b : nat) (r r' : Rows) (k : nat) :
  swaps_in a b r r' -> (k < a \/ b <= k)%nat -> row_key r' k = row_key r k.
Proof.
  induction 1 as [|r i j r' Hi Hj Hlen _ IH]; intros Hk; [reflexivity|].
  rewrite IH by assumption. rewrite row_key_Swap by lia.
  repeat case_decide; trivial; lia.
Qed.

Lemma swaps_in_range_all (P : string -> Prop) (a b a' b' : nat) (r r' : Rows) :
  swaps_in a b r r' -> (a' <= a)%nat -> (b <= b')%nat ->
  range_all P r a' b' -> range_all P r' a' b'.
Proof.
  induction 1 as [|r i j r' Hi Hj Hlen _ IH]; intros Ha Hb HP; [assumption|].
  apply IH; [assumption..|]. intros k Hk.
  rewrite row_key_Swap by lia.
  repeat case_decide; apply HP; lia.
Qed.

Lemma swaps_in_sort_swaps (a b : nat) (r r' : Rows) :
  swaps_in a b r r' -> sort_swaps r r'.
Proof.
  induction 1 as [|r i j r' Hi Hj Hlen _ IH]; [constructor|].
  apply (sort_swaps_step r i j (data_Swap r i j)); [|assumption].
  unfold data_Swap, Rows_Swap.
  destruct (lookup_lt_is_Some_2 r i) as [x ->]; [lia|].
  destruct (lookup_lt_is_Some_2 r j) as [y ->]; [lia|]. reflexivity.
Qed.

Lemma swaps_in_sorted_outside (a b c d : nat) (r r' : Rows) :
  swaps_in a b r r' -> (d <= a \/ b <= c)%nat ->
  sorted_range r c d -> sorted_range r' c d.
Proof.
  intros H Hd Hs i j Hi Hij Hj.
  rewrite !(swaps_in_outside a b r r') by (assumption || lia).
  now apply Hs.
Qed.

Lemma sorted_range_small (r : Rows) (a b : nat) :
  (b <= a + 1)%nat -> sorted_range r a b.
Proof. intros H i j Hi Hij Hj. lia. Qed.

(** *** [insertionSort] *)

Lemma go_insert_spec (a i : nat) (j : nat) (r : Rows) :
  (a <= j <= i)%nat -> (i < length r)%nat ->
  sorted_range r a j -> sorted_range r j (S i) ->
  (forall x y, (a <= x < j)%nat -> (j < y <= i)%nat ->
     string_le (row_key r x) (row_key r y)) ->
  swaps_in a (S i) r (go_insert a j r) /\
  sorted_range (go_insert a j r) a (S i).
Proof.
  revert r. induction j as [|j IH]; intros r Hj Hi Hlo Hhi Hx; simpl.
  - split; [constructor|]. assert (a = 0)%nat as -> by lia. exact Hhi.
  - destruct (a <? S j)%nat eqn:Ea; simpl.
    2:{ apply Nat.ltb_ge in Ea. assert (a = S j) as -> by lia.
        split; [constructor | exact Hhi]. }
    apply Nat.ltb_lt in Ea.
    destruct (data_Less r (S j) j) eqn:El.
    + apply data_Less_true in El as [El _]; [|lia..].
      destruct (IH (data_Swap r (S j) j)) as [Hs Hsorted].
      * lia.
      * now rewrite data_Swap_length.
      * intros x y Hax Hxy Hy. rewrite !row_key_Swap by lia.
        repeat case_decide; try lia. apply Hlo; lia.
      * intros x y Hax Hxy Hy. rewrite !row_key_Swap by lia.
        repeat case_decide; try lia.
        -- exact El.
        -- apply Hhi; lia.
        -- apply Hx; lia.
        -- apply Hhi; lia.
      * intros x y Hax Hy. rewrite !row_key_Swap by lia.
        repeat case_decide; try lia.
        -- apply Hlo; lia.
        -- apply Hx; lia.
      * split; [|exact Hsorted].
        apply (swaps_in_step _ _ r (S j) j); [lia..|exact Hs].
    + apply data_Less_false in El; [|lia..].
      split; [constructor|]. intros x y Hax Hxy Hy.
      destruct (decide (y < S j)%nat); [apply Hlo; lia|].
      destruct (decide (S j <= x)%nat); [apply Hhi; lia|].
      destruct (decide (y = S j)) as [->|].
      * apply (string_le_trans _ (row_key r j)); [|exact El].
        destruct (decide (x = j)) as [->|]; [apply string_le_refl|].
        apply Hlo; lia.
      * apply Hx; lia.
Qed.

Lemma go_insertionSort_loop_spec (n a i : nat) (r : Rows) :
  (a <= i)%nat -> (i + n <= length r)%nat -> sorted_range r a i ->
  swaps_in a (i + n) r (go_insertionSort_loop n a i r) /\
  sorted_range (go_insertionSort_loop n a i r) a (i + n).
Proof.
  revert i r. induction n as [|n IH]; intros i r Ha Hn Hs; simpl.
  - rewrite Nat.add_0_r. split; [constructor | exact Hs].
  - destruct (go_insert_spec a i i r) as [H1 H2]; [lia | lia | exact Hs | | |].
    + apply sorted_range_small. lia.
    + intros x y Hx Hy. lia.
    + destruct (IH (S i) (go_insert a i r)) as [H3 H4]; [lia | | exact H2 |].
      * rewrite (swaps_in_length _ _ _ _ H1). lia.
      * replace (i + S n)%nat with (S i + n)%nat by lia.
        split; [|exact H4].
        eapply swaps_in_trans; [|exact H3].
        eapply swaps_in_weaken; [| | |exact H1]; lia.
Qed.

Lemma go_insertionSort_spec (r : Rows) (a b : nat) :
  (a <= b <= length r)%nat ->
  swaps_in a b r (go_insertionSort r a b) /\
  sorted_range (go_insertionSort r a b) a b.
Proof.
  intros H. unfold go_insertionSort.
  destruct (decide (b <= a + 1)%nat) as [Hb|Hb].
  - replace (b - (a + 1))%nat with 0%nat by lia. simpl.
    split; [constructor | now apply sorted_range_small].
  - destruct (go_insertionSort_loop_spec (b - (a + 1)) a (a + 1) r)
      as [H1 H2]; [lia | lia | apply sorted_range_small; lia |].
    now replace (a + 1 + (b - (a + 1)))%nat with b in * by lia.
Qed.

Lemma go_shell_pass_spec (n i a : nat) (r : Rows) :
  (a + 6 <= i)%nat -> (i + n <= length r)%nat ->
  swaps_in a (i + n) r (go_shell_pass n i r).
Proof.
  revert i r. induction n as [|n IH]; intros i r Hi Hn; simpl; [constructor|].
  replace (i + S n)%nat with (S i + n)%nat by lia.
  destruct (data_Less r i (i - 6)).
  - apply (swaps_in_step _ _ r i (i - 6)); [lia..|].
    apply IH; [lia|]. rewrite data_Swap_length. lia.
  - apply IH; lia.
Qed.

(** *** [doPivot] *)

Lemma go_scan_less_spec (n : nat) (r : Rows) (pivot a c : nat) :
  (c - a <= n)%nat ->
  (a <= go_scan_less n r pivot a c)%nat /\
  (go_scan_less n r pivot a c <= c \/ go_scan_less n r pivot a c = a)%nat /\
  (forall k, (a <= k < go_scan_less n r pivot a c)%nat ->
     data_Less r k pivot = true) /\
  ((go_scan_less n r pivot a c < c)%nat ->
   data_Less r (go_scan_less n r pivot a c) pivot = false).
Proof.
  revert a. induction n as [|n IH]; intros a Hn; simpl.
  - repeat split; intros; lia.
  - destruct (a <? c)%nat eqn:Ea; simpl.
    2:{ apply Nat.ltb_ge in Ea. repeat split; intros; lia. }
    apply Nat.ltb_lt in Ea.
    destruct (data_Less r a pivot) eqn:El.
    + destruct (IH (S a)) as (H1 & H2 & H3 & H4); [lia|].
      repeat split; try lia.
      * intros k Hk. destruct (decide (k = a)) as [->|]; [exact El|].
        apply H3. lia.
      * exact H4.
    + repeat split; intros; try lia; exact El.
Qed.

Lemma go_scan_not_greater_spec (n : nat) (r : Rows) (pivot b c : nat) :
  (c - b <= n)%nat ->
  (b <= go_scan_not_greater n r pivot b c)%nat /\
  (go_scan_not_greater n r pivot b c <= c
   \/ go_scan_not_greater n r pivot b c = b)%nat /\
  (forall k, (b <= k < go_scan_not_greater n r pivot b c)%nat ->
     data_Less r pivot k = false) /\
  ((go_scan_not_greater n r pivot b c < c)%nat ->
   data_Less r pivot (go_scan_not_greater n r pivot b c) = true).
Proof.
  revert b. induction n as [|n IH]; intros b Hn; simpl.
  - repeat split; intros; lia.
  - destruct (b <? c)%nat eqn:Eb; simpl.
    2:{ apply Nat.ltb_ge in Eb. repeat split; intros; lia. }
    apply Nat.ltb_lt in Eb.
    destruct (data_Less r pivot b) eqn:El; simpl.
    + repeat split; intros; try lia; exact El.
    + destruct (IH (S b)) as (H1 & H2 & H3 & H4); [lia|].
      repeat split; try lia.
      * intros k Hk. destruct (decide (k = b)) as [->|]; [exact El|].
        apply H3. lia.
      * exact H4.
Qed.

Lemma go_scan_greater_spec (n : nat) (r : Rows) (pivot b c : nat) :
  (c - b <= n)%nat ->
  (go_scan_greater n r pivot b c <= c)%nat /\
  (b <= go_scan_greater n r pivot b c
   \/ go_scan_greater n r pivot b c = c)%nat /\
  (forall k, (go_scan_greater n r pivot b c <= k < c)%nat ->
     data_Less r pivot k = true) /\
  ((b < go_scan_greater n r pivot b c)%nat ->
   data_Less r pivot (go_scan_greater n r pivot b c - 1) = false).
Proof.
  revert c. induction n as [|n IH]; intros c Hn; simpl.
  - repeat split; intros; lia.
  - destruct (b <? c)%nat eqn:Eb; simpl.
    2:{ apply Nat.ltb_ge in Eb. repeat split; intros; lia. }
    apply Nat.ltb_lt in Eb.
    destruct (data_Less r pivot (c - 1)) eqn:El; simpl.
    + destruct (IH (c - 1)%nat) as (H1 & H2 & H3 & H4); [lia|].
      repeat split; try lia.
      * intros k Hk. destruct (decide (k = c - 1)%nat) as [->|]; [exact El|].
        apply H3. lia.
      * exact H4.
    + repeat split; intros; try lia; exact El.
Qed.

Lemma go_scan_not_less_spec (n : nat) (r : Rows) (pivot a b : nat) :
  (b - a <= n)%nat ->
  (go_scan_not_less n r pivot a b <= b)%nat /\
  (a <= go_scan_not_less n r pivot a b
   \/ go_scan_not_less n r pivot a b = b)%nat /\
  (forall k, (go_scan_not_less n r pivot a b <= k < b)%nat ->
     data_Less r k pivot = false) /\
  ((a < go_scan_not_less n r pivot a b)%nat ->
   data_Less r (go_scan_not_less n r pivot a b - 1) pivot = true).
Proof.
  revert b. induction n as [|n IH]; intros b Hn; simpl.
  - repeat split; intros; lia.
  - destruct (a <? b)%nat eqn:Eb; simpl.
    2:{ apply Nat.ltb_ge in Eb. repeat split; intros; lia. }
    apply Nat.ltb_lt in Eb.
    destruct (data_Less r (b - 1) pivot) eqn:El; simpl.
    + repeat split; intros; try lia; exact El.
    + destruct (IH (b - 1)%nat) as (H1 & H2 & H3 & H4); [lia|].
      repeat split; try lia.
      * intros k Hk. destruct (decide (k = b - 1)%nat) as [->|]; [exact El|].
        apply H3. lia.
      * exact H4.
Qed.

(** [medianOfThree] leaves the row at [m1] not after the row at [m2]. *)
Lemma go_medianOfThree_spec (r : Rows) (m1 m0 m2 lo hi : nat) :
  (lo <= m1 < hi)%nat -> (lo <= m0 < hi)%nat -> (lo <= m2 < hi)%nat ->
  (hi <= length r)%nat ->
  swaps_in lo hi r (go_medianOfThree r m1 m0 m2) /\
  (m2 <> m1 -> m2 <> m0 ->
   string_le (row_key (go_medianOfThree r m1 m0 m2) m1)
             (row_key (go_medianOfThree r m1 m0 m2) m2)).
Proof.
  intros H1 H0 H2 Hl. unfold go_medianOfThree.
  set (r1 := if data_Less r m1 m0 then data_Swap r m1 m0 else r).
  assert (Hr1 : swaps_in lo hi r r1).
  { subst r1. destruct (data_Less r m1 m0); [|constructor].
    now apply swaps_in_one. }
  assert (Hl1 : length r1 = length r) by now apply swaps_in_length in Hr1.
  assert (E01 : string_le (row_key r1 m0) (row_key r1 m1)).
  { subst r1. destruct (data_Less r m1 m0) eqn:E.
    - apply data_Less_true in E as [E _]; [|lia..].
      rewrite !row_key_Swap by lia.
      repeat case_decide; subst; try lia; try apply string_le_refl; exact E.
    - apply data_Less_false in E; [exact E | lia..]. }
  destruct (data_Less r1 m2 m1) eqn:E21.
  - apply data_Less_true in E21 as [E21 _]; [|lia..].
    set (r2 := data_Swap r1 m2 m1).
    assert (Hr2 : swaps_in lo hi r1 r2) by (apply swaps_in_one; lia).
    assert (Hl2 : length r2 = length r1) by apply data_Swap_length.
    assert (E2 : m2 <> m1 -> string_le (row_key r2 m1) (row_key r2 m2)).
    { intros Hne. subst r2. rewrite !row_key_Swap by lia.
      repeat case_decide; try lia; try congruence; exact E21. }
    assert (E02 : m2 <> m0 -> string_le (row_key r2 m0) (row_key r2 m2)).
    { intros Hne. subst r2. rewrite !row_key_Swap by lia.
      repeat case_decide; subst; try lia; try congruence;
        first [exact E21 | exact E01 | apply string_le_refl]. }
    destruct (data_Less r2 m1 m0) eqn:E10.
    + split.
      * eapply swaps_in_trans; [exact Hr1|].
        eapply swaps_in_trans; [exact Hr2|]. apply swaps_in_one; lia.
      * intros N1 N0. rewrite !row_key_Swap by lia.
        repeat case_decide; subst; try lia; try congruence;
          first [now apply E2 | now apply E02].
    + split; [eapply swaps_in_trans; eauto|]. intros N1 _. now apply E2.
  - apply data_Less_false in E21; [|lia..].
    split; [exact Hr1 | intros _ _; exact E21].
Qed.

Section Partition.
Context (lo hi : nat) (p : string).

Lemma go_partition_spec (fuel : nat) (r : Rows) (b c : nat) :
  (c - b < fuel)%nat ->
  (lo < b)%nat -> (b <= c)%nat -> (c < hi)%nat -> (hi <= length r)%nat ->
  row_key r lo = p ->
  range_all (fun k => string_le k p) r (lo + 1) b -> range_all (fun k => string_le p k) r c hi ->
  let '(r', b', c') := go_partition fuel r lo b c in
  swaps_in (lo + 1) hi r r' /\ b' = c' /\ (b <= b')%nat /\ (c' <= c)%nat /\
  range_all (fun k => string_le k p) r' (lo + 1) b' /\ range_all (fun k => string_le p k) r' c' hi.
Proof.
  revert r b c. induction fuel as [|fuel IH]; intros r b c Hf Hb Hbc Hc Hl Hp Hle Hge;
    [lia|]. simpl.
  destruct (go_scan_not_greater_spec c r lo b c) as (B1 & B2 & B3 & B4); [lia|].
  set (b1 := go_scan_not_greater c r lo b c) in *.
  destruct (go_scan_greater_spec c r lo b1 c) as (C1 & C2 & C3 & C4); [lia|].
  set (c1 := go_scan_greater c r lo b1 c) in *.
  assert (Hle1 : range_all (fun k => string_le k p) r (lo + 1) b1).
  { intros k Hk. destruct (decide (k < b)%nat); [apply Hle; lia|].
    cbv beta. rewrite <- Hp. apply data_Less_false; [lia..|]. apply B3. lia. }
  assert (Hge1 : range_all (fun k => string_le p k) r c1 hi).
  { intros k Hk. destruct (decide (c <= k)%nat); [apply Hge; lia|].
    cbv beta. rewrite <- Hp. apply data_Less_true; [lia..|]. apply C3. lia. }
  destruct (c1 <=? b1)%nat eqn:E.
  - apply Nat.leb_le in E. repeat split; try assumption; try lia. constructor.
  - apply Nat.leb_gt in E.
    assert (Eb : data_Less r lo b1 = true) by (apply B4; lia).
    assert (Ec : data_Less r lo (c1 - 1) = false) by (apply C4; lia).
    assert (b1 <> c1 - 1)%nat by (intros EE; rewrite EE in Eb; congruence).
    apply data_Less_true in Eb as [Eb _]; [|lia..].
    apply data_Less_false in Ec; [|lia..].
    specialize (IH (data_Swap r b1 (c1 - 1)) (S b1) (c1 - 1)%nat).
    destruct (go_partition fuel (data_Swap r b1 (c1 - 1)) lo (S b1) (c1 - 1))
      as [[r' b'] c'].
    destruct IH as (I1 & I2 & I3 & I4 & I5 & I6); try lia.
    + now rewrite data_Swap_length.
    + rewrite row_key_Swap by lia. repeat case_decide; try lia. exact Hp.
    + intros k Hk. rewrite row_key_Swap by lia.
      repeat case_decide; try lia;
        first [apply Hle1; lia | cbv beta; rewrite <- Hp; exact Ec].
    + intros k Hk. rewrite row_key_Swap by lia.
      repeat case_decide; try lia;
        first [apply Hge1; lia | cbv beta; rewrite <- Hp; exact Eb].
    + repeat split; try assumption; try lia.
      apply (swaps_in_step _ _ r b1 (c1 - 1)%nat); [lia..|exact I1].
Qed.

Lemma go_protect_spec (fuel : nat) (r : Rows) (a b c : nat) :
  (b - a < fuel)%nat ->
  (lo < a)%nat -> (lo < b)%nat -> (b <= c)%nat -> (c <= hi)%nat ->
  (hi <= length r)%nat ->
  row_key r lo = p ->
  range_all (fun k => string_le k p) r (lo + 1) b -> range_all (fun k => k = p) r b c ->
  let '(r', b') := go_protect fuel r lo a b in
  swaps_in (lo + 1) b r r' /\ (lo < b')%nat /\ (b' <= b)%nat /\
  range_all (fun k => string_le k p) r' (lo + 1) b' /\ range_all (fun k => k = p) r' b' c.
Proof.
  revert r a b. induction fuel as [|fuel IH];
    intros r a b Hf Ha Hb Hbc Hc Hl Hp Hle Heq; [lia|]. simpl.
  destruct (go_scan_not_less_spec b r lo a b) as (B1 & B2 & B3 & B4); [lia|].
  set (b1 := go_scan_not_less b r lo a b) in *.
  destruct (go_scan_less_spec b1 r lo a b1) as (A1 & A2 & A3 & A4); [lia|].
  set (a1 := go_scan_less b1 r lo a b1) in *.
  assert (Heq1 : range_all (fun k => k = p) r b1 c).
  { intros k Hk. destruct (decide (b <= k)%nat); [apply Heq; lia|].
    cbv beta. apply string_le_antisym; [apply Hle; lia|].
    rewrite <- Hp. apply data_Less_false; [lia..|]. apply B3. lia. }
  assert (Hle1 : range_all (fun k => string_le k p) r (lo + 1) b1) by (intros k Hk; apply Hle; lia).
  destruct (b1 <=? a1)%nat eqn:E.
  - apply Nat.leb_le in E. repeat split; try assumption; try lia. constructor.
  - apply Nat.leb_gt in E.
    assert (Ea : data_Less r a1 lo = false) by (apply A4; lia).
    assert (Eb : data_Less r (b1 - 1) lo = true) by (apply B4; lia).
    assert (a1 <> b1 - 1)%nat by (intros EE; rewrite EE in Ea; congruence).
    apply data_Less_false in Ea; [|lia..].
    assert (Ea' : row_key r a1 = p).
    { apply string_le_antisym; [apply Hle; lia | now rewrite <- Hp]. }
    specialize (IH (data_Swap r a1 (b1 - 1)) (S a1) (b1 - 1)%nat).
    destruct (go_protect fuel (data_Swap r a1 (b1 - 1)) lo (S a1) (b1 - 1))
      as [r' b'].
    destruct IH as (I1 & I2 & I3 & I4 & I5); try lia.
    + now rewrite data_Swap_length.
    + rewrite row_key_Swap by lia. repeat case_decide; try lia. exact Hp.
    + intros k Hk. rewrite row_key_Swap by lia.
      repeat case_decide; try lia; apply Hle; lia.
    + intros k Hk. rewrite row_key_Swap by lia.
      repeat case_decide; try lia; first [exact Ea' | apply Heq1; lia].
    + repeat split; try assumption; try lia.
      apply (swaps_in_step _ _ r a1 (b1 - 1)%nat); [lia..|].
      eapply swaps_in_weaken; [| | |exact I1]; [lia..|].
      rewrite data_Swap_length. lia.
Qed.

End Partition.

Lemma go_doPivot_spec (r : Rows) (lo hi : nat) :
  (lo + 12 < hi)%nat -> (hi <= length r)%nat ->
  let '(r', mlo, mhi) := go_doPivot r lo hi in
  swaps_in lo hi r r' /\ (lo <= mlo)%nat /\ (mlo < mhi)%nat /\ (mhi <= hi)%nat /\
  exists p : string,
    range_all (fun k => string_le k p) r' lo mlo /\
    range_all (fun k => k = p) r' mlo mhi /\
    range_all (fun k => string_le p k) r' mhi hi.
Proof.
  intros Hlo Hhi. unfold go_doPivot.
  set (m := ((lo + hi) / 2)%nat).
  assert (Hm : (2 * m <= lo + hi < 2 * m + 2)%nat).
  { subst m. pose proof (Nat.div_mod_eq (lo + hi) 2).
    pose proof (Nat.mod_upper_bound (lo + hi) 2). lia. }
  set (r0 := if (40 <? hi - lo)%nat then _ else r).
  assert (H0 : swaps_in lo hi r r0).
  { subst r0. destruct (40 <? hi - lo)%nat eqn:E; [|constructor].
    apply Nat.ltb_lt in E.
    set (s := ((hi - lo) / 8)%nat).
    assert (Hs : (8 * s <= hi - lo)%nat).
    { subst s. pose proof (Nat.div_mod_eq (hi - lo) 8). lia. }
    destruct (go_medianOfThree_spec r lo (lo + s) (lo + 2 * s) lo hi)
      as [M1 _]; [lia..|].
    set (ra := go_medianOfThree r lo (lo + s) (lo + 2 * s)) in *.
    assert (La : length ra = length r) by now apply swaps_in_length in M1.
    destruct (go_medianOfThree_spec ra m (m - s) (m + s) lo hi)
      as [M2 _]; [lia..|].
    set (rb := go_medianOfThree ra m (m - s) (m + s)) in *.
    assert (Lb : length rb = length ra) by now apply swaps_in_length in M2.
    destruct (go_medianOfThree_spec rb (hi - 1) (hi - 1 - s) (hi - 1 - 2 * s)
                lo hi) as [M3 _]; [lia..|].
    eapply swaps_in_trans; [exact M1|]. eapply swaps_in_trans; eauto. }
  clearbody r0.
  assert (L0 : length r0 = length r) by now apply swaps_in_length in H0.
  destruct (go_medianOfThree_spec r0 lo m (hi - 1) lo hi) as [H1 Hmed];
    [lia..|].
  set (r1 := go_medianOfThree r0 lo m (hi - 1)) in *. clearbody r1.
  assert (L1 : length r1 = length r0) by now apply swaps_in_length in H1.
  specialize (Hmed ltac:(lia) ltac:(lia)).
  set (p := row_key r1 lo).
  destruct (go_scan_less_spec hi r1 lo (lo + 1) (hi - 1)) as (A1 & A2 & A3 & _);
    [lia|].
  set (a := go_scan_less hi r1 lo (lo + 1) (hi - 1)) in *. clearbody a.
  pose proof (go_partition_spec lo hi p hi r1 a (hi - 1)) as HP.
  destruct (go_partition hi r1 lo a (hi - 1)) as [[r2 b] c].
  destruct HP as (P1 & P2 & P3 & P4 & P5 & P6); [lia..|reflexivity| | |].
  { intros k Hk. apply data_Less_true; [lia..|]. apply A3. lia. }
  { intros k Hk. assert (k = hi - 1)%nat as -> by lia. exact Hmed. }
  subst c.
  assert (L2 : length r2 = length r1) by now apply swaps_in_length in P1.
  assert (K2 : row_key r2 lo = p) by (apply (swaps_in_outside _ _ _ _ _ P1); lia).
  assert (Hb : (lo < b)%nat) by lia.
  set (blk := if negb (hi - b <? 5)%nat && _ then _ else _).
  assert (D : let '(r3, b0, c, _) := blk in
              swaps_in (lo + 1) hi r2 r3 /\ (lo < b0)%nat /\ (b0 <= c)%nat /\
              (c <= hi)%nat /\ (b0 <= b)%nat /\
              range_all (fun k => string_le k p) r3 (lo + 1) b0 /\
              range_all (fun k => k = p) r3 b0 c /\
              range_all (fun k => string_le p k) r3 c hi).
  { subst blk.
    destruct (negb (hi - b <? 5)%nat && (hi - b <? (hi - lo) `div` 4)%nat) eqn:Ec.
    2:{ repeat split; try assumption; try lia; [constructor|].
        intros k Hk. lia. }
    apply andb_true_iff in Ec as [E5 E4].
    apply negb_true_iff, Nat.ltb_ge in E5. apply Nat.ltb_lt in E4.
    pose proof (Nat.div_mod_eq (hi - lo) 4) as Hq.
    pose proof (Nat.mod_upper_bound (hi - lo) 4 ltac:(lia)) as Hq'.
    set (q := ((hi - lo) `div` 4)%nat) in *. clearbody q.
    assert (Hmb : (lo < m /\ m + 3 <= b /\ b + 5 <= hi)%nat) by lia.
    set (st1 := if negb (data_Less r2 lo (hi - 1)) then _ else _).
    assert (S1 : let '(r3, c, _) := st1 in
              swaps_in (lo + 1) hi r2 r3 /\ (b <= c)%nat /\ (c <= hi)%nat /\
              range_all (fun k => string_le k p) r3 (lo + 1) b /\
              range_all (fun k => k = p) r3 b c /\
              range_all (fun k => string_le p k) r3 c hi).
    { subst st1. destruct (data_Less r2 lo (hi - 1)) eqn:E; simpl.
      - repeat split; try assumption; try lia; [constructor|].
        intros k Hk; lia.
      - apply data_Less_false in E; [|lia..]. rewrite K2 in E.
        assert (E' : row_key r2 (hi - 1) = p).
        { apply string_le_antisym; [exact E | apply P6; lia]. }
        repeat split; try lia.
        + apply swaps_in_one; lia.
        + intros k Hk. rewrite row_key_Swap by lia.
          repeat case_decide; try lia. apply P5; lia.
        + intros k Hk. rewrite row_key_Swap by lia.
          repeat case_decide; try lia. exact E'.
        + intros k Hk. rewrite row_key_Swap by lia.
          repeat case_decide; try lia; apply P6; lia. }
    destruct st1 as [[r3 c] d1].
    destruct S1 as (T1 & T2 & T3 & T4 & T5 & T6).
    assert (L3 : length r3 = length r2) by now apply swaps_in_length in T1.
    assert (K3 : row_key r3 lo = p).
    { rewrite <- K2. apply (swaps_in_outside _ _ _ _ _ T1); lia. }
    set (st2 := if negb (data_Less r3 (b - 1) lo) then _ else _).
    assert (S2 : let '(b0, _) := st2 in
              (b - 1 <= b0 <= b)%nat /\ range_all (fun k => k = p) r3 b0 c).
    { subst st2. destruct (data_Less r3 (b - 1) lo) eqn:E; simpl.
      - split; [lia | exact T5].
      - apply data_Less_false in E; [|lia..]. rewrite K3 in E.
        split; [lia|]. intros k Hk.
        destruct (decide (k = b - 1)%nat) as [->|]; [|apply T5; lia].
        apply string_le_antisym; [apply T4; lia | exact E]. }
    destruct st2 as [b0 d2]. destruct S2 as [U1 U2].
    destruct (data_Less r3 m lo) eqn:E; simpl.
    - repeat split; try assumption; try lia.
      intros k Hk. apply T4; lia.
    - apply data_Less_false in E; [|lia..]. rewrite K3 in E.
      assert (E' : row_key r3 m = p).
      { apply string_le_antisym; [apply T4; lia | exact E]. }
      repeat split; try lia.
      + eapply swaps_in_trans; [exact T1|]. apply swaps_in_one; lia.
      + intros k Hk. rewrite row_key_Swap by lia.
        repeat case_decide; try lia; apply T4; lia.
      + intros k Hk. rewrite row_key_Swap by lia.
        repeat case_decide; try lia; first [exact E' | apply U2; lia].
      + intros k Hk. rewrite row_key_Swap by lia.
        repeat case_decide; try lia; apply T6; lia. }
  destruct blk as [[[r3 b0] c] prot].
  destruct D as (D1 & D2 & D3 & D4 & D5 & D6 & D7 & D8).
  assert (L3 : length r3 = length r2) by now apply swaps_in_length in D1.
  assert (K3 : row_key r3 lo = p).
  { rewrite <- K2. apply (swaps_in_outside _ _ _ _ _ D1); lia. }
  set (pr := if prot then _ else _).
  assert (R : let '(r4, b1) := pr in
              swaps_in (lo + 1) b0 r3 r4 /\ (lo < b1)%nat /\ (b1 <= b0)%nat /\
              range_all (fun k => string_le k p) r4 (lo + 1) b1 /\
              range_all (fun k => k = p) r4 b1 c).
  { subst pr. destruct prot.
    - apply (go_protect_spec lo hi p hi r3 a b0 c); try assumption; lia.
    - repeat split; try assumption; try lia. constructor. }
  destruct pr as [r4 b1].
  destruct R as (R1 & R2 & R3 & R4 & R5).
  assert (L4 : length r4 = length r3) by now apply swaps_in_length in R1.
  assert (K4 : row_key r4 lo = p).
  { rewrite <- K3. apply (swaps_in_outside _ _ _ _ _ R1); lia. }
  assert (R6 : range_all (fun k => string_le p k) r4 c hi).
  { intros k Hk. rewrite (swaps_in_outside _ _ _ _ k R1) by lia. apply D8; lia. }
  split.
  { eapply swaps_in_trans; [exact H0|]. eapply swaps_in_trans; [exact H1|].
    eapply swaps_in_trans;
      [apply (swaps_in_weaken (lo + 1) hi lo hi r1 r2); [lia..|exact P1]|].
    eapply swaps_in_trans;
      [apply (swaps_in_weaken (lo + 1) hi lo hi r2 r3); [lia..|exact D1]|].
    eapply swaps_in_trans;
      [apply (swaps_in_weaken (lo + 1) b0 lo hi r3 r4); [lia..|exact R1]|].
    apply swaps_in_one; lia. }
  do 3 (split; [lia|]). exists p. repeat split.
  - intros k Hk. rewrite row_key_Swap by lia.
    repeat case_decide; try lia; apply R4; lia.
  - intros k Hk. rewrite row_key_Swap by lia.
    repeat case_decide; try lia; first [exact K4 | apply R5; lia].
  - intros k Hk. rewrite row_key_Swap by lia.
    repeat case_decide; try lia; apply R6; lia.
Qed.

(** *** [heapSort] *)

Lemma go_siftDown_spec (fuel : nat) (r : Rows) (root hi first root0 : nat) :
  (hi - root <= fuel)%nat -> (first + hi <= length r)%nat ->
  (root0 <= root)%nat ->
  heap_but r first hi root0 (Some root) ->
  (forall p c, (root0 <= p)%nat -> heap_child p root -> heap_child root c ->
     (c < hi)%nat ->
     string_le (row_key r (first + c)) (row_key r (first + p))) ->
  swaps_in (first + root) (first + hi) r (go_siftDown fuel r root hi first) /\
  heap_but (go_siftDown fuel r root hi first) first hi root0 None.
Proof.
  revert r root. induction fuel as [|fuel IH];
    intros r root Hf Hl H0 Hheap Hgrand; cbn [go_siftDown].
  { split; [constructor|]. intros p c Hp Hc Hhi _.
    apply Hheap; trivial. unfold heap_child in Hc. intros [= ->]. lia. }
  destruct (hi <=? 2 * root + 1)%nat eqn:E.
  { apply Nat.leb_le in E. split; [constructor|]. intros p c Hp Hc Hhi _.
    apply Hheap; trivial. unfold heap_child in Hc. intros [= ->]. lia. }
  apply Nat.leb_gt in E.
  set (child := if _ && _ then (2 * root + 1 + 1)%nat else (2 * root + 1)%nat).
  assert (Hchild : heap_child root child /\ (child < hi)%nat /\
            forall c, heap_child root c -> (c < hi)%nat ->
              string_le (row_key r (first + c)) (row_key r (first + child))).
  { subst child. unfold heap_child.
    destruct (2 * root + 1 + 1 <? hi)%nat eqn:E2; cbn [andb].
    - apply Nat.ltb_lt in E2.
      destruct (data_Less r (first + (2 * root + 1)) (first + (2 * root + 1) + 1))
        eqn:El.
      + apply data_Less_true in El as [El _]; [|lia..].
        split; [lia|]. split; [lia|]. intros c [->| ->] Hc.
        * now replace (first + (2 * root + 1 + 1))%nat
            with (first + (2 * root + 1) + 1)%nat by lia.
        * replace (2 * root + 2)%nat with (2 * root + 1 + 1)%nat by lia.
          apply string_le_refl.
      + apply data_Less_false in El; [|lia..].
        split; [lia|]. split; [lia|]. intros c [->| ->] Hc.
        * apply string_le_refl.
        * now replace (first + (2 * root + 2))%nat
            with (first + (2 * root + 1) + 1)%nat by lia.
    - apply Nat.ltb_ge in E2. split; [lia|]. split; [lia|].
      intros c [->| ->] Hc; [apply string_le_refl | lia]. }
  clearbody child. destruct Hchild as (Hc1 & Hc2 & Hc3).
  destruct (data_Less r (first + root) (first + child)) eqn:El; simpl.
  - apply data_Less_true in El as [El _]; [|unfold heap_child in *; lia..].
    destruct (IH (data_Swap r (first + root) (first + child)) child)
      as [I1 I2].
    + unfold heap_child in *. lia.
    + now rewrite data_Swap_length.
    + unfold heap_child in *. lia.
    + intros p c Hp Hc Hhi Hskip.
      assert (p <> child) by congruence.
      rewrite !row_key_Swap by (unfold heap_child in *; lia).
      destruct (decide (p = root)) as [->|Hpr].
      * repeat case_decide; try (unfold heap_child in *; lia).
        -- exact El.
        -- now apply Hc3.
      * repeat case_decide; try (unfold heap_child in *; lia).
        -- apply (Hgrand p child); trivial.
           now replace root with c by lia.
        -- apply Hheap; trivial. congruence.
    + intros p c Hp Hpc Hcc Hhi.
      assert (p = root) as -> by (unfold heap_child in *; lia).
      rewrite !row_key_Swap by (unfold heap_child in *; lia).
      repeat case_decide; try (unfold heap_child in *; lia).
      apply Hheap; trivial; [unfold heap_child in *; lia|].
      intros [= ->]. unfold heap_child in *. lia.
    + split; [|exact I2].
      apply (swaps_in_step _ _ r (first + root) (first + child));
        [unfold heap_child in *; lia..|].
      eapply swaps_in_weaken; [| | |exact I1];
        [unfold heap_child in *; lia | lia |].
      rewrite data_Swap_length. lia.
  - apply data_Less_false in El; [|unfold heap_child in *; lia..].
    split; [constructor|]. intros p c Hp Hc Hhi _.
    destruct (decide (p = root)) as [->|Hpr].
    + eapply string_le_trans; [apply Hc3; eassumption | exact El].
    + apply Hheap; trivial. congruence.
Qed.

Lemma go_heapify_spec (n : nat) (r : Rows) (hi first : nat) :
  (first + hi <= length r)%nat ->
  heap_but r first hi n None ->
  swaps_in first (first + hi) r (go_heapify n r hi first) /\
  heap_but (go_heapify n r hi first) first hi 0 None.
Proof.
  revert r. induction n as [|i IH]; intros r Hl Hh; simpl.
  - split; [constructor | exact Hh].
  - destruct (go_siftDown_spec hi r i hi first i) as [S1 S2]; [lia..| | |].
    + intros p c Hp Hc Hhi Hskip. apply Hh; trivial; try discriminate.
      destruct (decide (p = i)); [congruence | lia].
    + intros p c Hp Hpi _ _. unfold heap_child in Hpi. lia.
    + destruct (IH (go_siftDown hi r i hi first)) as [I1 I2].
      * rewrite (swaps_in_length _ _ _ _ S1). lia.
      * exact S2.
      * split; [|exact I2]. eapply swaps_in_trans; [|exact I1].
        eapply swaps_in_weaken; [| | |exact S1]; lia.
Qed.

(** The root of a heap is not less than any of its rows. *)
Lemma heap_root_max (r : Rows) (first hi : nat) :
  heap_but r first hi 0 None ->
  forall k, (k < hi)%nat ->
    string_le (row_key r (first + k)) (row_key r (first + 0)).
Proof.
  intros Hh k. induction k as [k IH] using lt_wf_ind. intros Hk.
  destruct k as [|k]; [apply string_le_refl|].
  pose proof (Nat.div_mod_eq k 2) as Hd.
  pose proof (Nat.mod_upper_bound k 2 ltac:(lia)) as Hm.
  eapply string_le_trans; [|apply (IH (k / 2)%nat); lia].
  apply Hh; [lia | unfold heap_child; lia | lia | discriminate].
Qed.

Lemma go_heap_pop_spec (n : nat) (r : Rows) (first hi : nat) :
  (n <= hi)%nat -> (first + hi <= length r)%nat ->
  heap_but r first n 0 None ->
  sorted_range r (first + n) (first + hi) ->
  (forall x y, (first <= x < first + n)%nat -> (first + n <= y < first + hi)%nat ->
     string_le (row_key r x) (row_key r y)) ->
  swaps_in first (first + hi) r (go_heap_pop n r first) /\
  sorted_range (go_heap_pop n r first) first (first + hi).
Proof.
  revert r. induction n as [|i IH]; intros r Hn Hl Hh Hs Hx; simpl.
  - split; [constructor|]. now rewrite Nat.add_0_r in Hs.
  - assert (Hmax' : forall x, (first <= x < first + S i)%nat ->
              string_le (row_key r x) (row_key r first)).
    { intros x Hx1. pose proof (heap_root_max r first (S i) Hh (x - first)) as H.
      rewrite Nat.add_0_r in H. replace (first + (x - first))%nat with x in H by lia.
      apply H. lia. }
    set (r1 := data_Swap r first (first + i)).
    assert (K1 : forall k, row_key r1 k
              = if decide (k = first + i)%nat then row_key r first
                else if decide (k = first) then row_key r (first + i)
                else row_key r k).
    { intros k. subst r1. now rewrite row_key_Swap by lia. }
    assert (L1 : length r1 = length r) by apply data_Swap_length.
    assert (W1 : swaps_in first (first + hi) r r1)
      by (apply swaps_in_one; lia).
    clearbody r1.
    destruct (go_siftDown_spec i r1 0 i first 0) as [S1 S2]; [lia..| | |].
    + intros p c Hp Hc Hhi Hskip. rewrite !K1.
      assert (p <> 0)%nat by congruence.
      repeat case_decide; try (unfold heap_child in *; lia).
      apply Hh; trivial; try discriminate; lia.
    + intros p c _ Hp0 _ _. unfold heap_child in Hp0. lia.
    + set (r2 := go_siftDown i r1 0 i first) in *. clearbody r2.
      rewrite Nat.add_0_r in S1.
      assert (L2 : length r2 = length r1) by now apply swaps_in_length in S1.
      destruct (IH r2) as [I1 I2]; [lia | lia | exact S2 | | |].
      * intros x y Hx1 Hxy Hy.
        rewrite !(swaps_in_outside _ _ _ _ _ S1) by lia. rewrite !K1.
        repeat case_decide; try lia; first [apply Hx; lia | apply Hs; lia].
      * intros x y Hx1 Hy.
        rewrite (swaps_in_outside _ _ _ _ y S1) by lia.
        revert x Hx1.
        apply (swaps_in_range_all
                 (fun k => string_le k (row_key r1 y)) _ _ _ _ _ _ S1);
          [lia..|].
        intros x Hx1. rewrite !K1.
        repeat case_decide; try lia; first [apply Hmax'; lia | apply Hx; lia].
      * split; [|exact I2].
        eapply swaps_in_trans; [exact W1|].
        eapply swaps_in_trans; [|exact I1].
        eapply swaps_in_weaken; [| | |exact S1]; lia.
Qed.

Lemma go_heapSort_spec (r : Rows) (a b : nat) :
  (a <= b <= length r)%nat ->
  swaps_in a b r (go_heapSort r a b) /\ sorted_range (go_heapSort r a b) a b.
Proof.
  intros H. unfold go_heapSort.
  assert (E : (a + (b - a) = b)%nat) by lia.
  destruct (go_heapify_spec ((b - a - 1) / 2 + 1) r (b - a) a) as [H1 H2].
  - lia.
  - intros p c Hp Hc Hhi _. exfalso.
    pose proof (Nat.div_mod_eq (b - a - 1) 2).
    pose proof (Nat.mod_upper_bound (b - a - 1) 2 ltac:(lia)).
    unfold heap_child in Hc. lia.
  - set (r1 := go_heapify _ r (b - a) a) in *. clearbody r1.
    destruct (go_heap_pop_spec (b - a) r1 a (b - a)) as [P1 P2].
    + lia.
    + rewrite (swaps_in_length _ _ _ _ H1). lia.
    + exact H2.
    + intros i j Hi Hij Hj. lia.
    + intros x y Hx Hy. lia.
    + rewrite E in *. split; [eapply swaps_in_trans; eauto | exact P2].
Qed.

(** *** [quickSort] and [Sort] *)

(** Two sorted ranges around rows that print like the pivot make one
    sorted range. *)
Lemma sorted_range_join (r : Rows) (a mlo mhi b : nat) (p : string) :
  sorted_range r a mlo -> sorted_range r mhi b ->
  range_all (fun k => string_le k p) r a mlo ->
  range_all (fun k => k = p) r mlo mhi ->
  range_all (fun k => string_le p k) r mhi b ->
  sorted_range r a b.
Proof.
  intros Hlo Hhi Hle Heq Hge i j Hi Hij Hj.
  assert (Ki : (i < mlo)%nat \/ (mlo <= i < mhi)%nat \/ (mhi <= i)%nat) by lia.
  assert (Kj : (j < mlo)%nat \/ (mlo <= j < mhi)%nat \/ (mhi <= j)%nat) by lia.
  destruct Ki as [Ki|[Ki|Ki]], Kj as [Kj|[Kj|Kj]]; try lia;
    first
      [ apply Hlo; lia
      | apply Hhi; lia
      | rewrite (Heq i), (Heq j) by lia; apply string_le_refl
      | rewrite (Heq j) by lia; apply Hle; lia
      | rewrite (Heq i) by lia; apply Hge; lia
      | apply (string_le_trans _ p); [apply Hle | apply Hge]; lia ].
Qed.

Lemma range_all_outside (P : string -> Prop) (a b c d : nat) (r r' : Rows) :
  swaps_in a b r r' -> (d <= a \/ b <= c)%nat ->
  range_all P r c d -> range_all P r' c d.
Proof.
  intros H Hd HP k Hk. rewrite (swaps_in_outside a b r r') by (assumption || lia).
  now apply HP.
Qed.

Lemma go_quickSort_spec (fuel : nat) (r : Rows) (a b maxDepth : nat) :
  (b - a < fuel)%nat -> (a <= b <= length r)%nat ->
  exists r', go_quickSort fuel r a b maxDepth = Some r' /\
             swaps_in a b r r' /\ sorted_range r' a b.
Proof.
  revert r a b maxDepth. induction fuel as [|fuel IH];
    intros r a b maxDepth Hf Hab; [lia|]. cbn [go_quickSort].
  destruct (12 <? b - a)%nat eqn:E12.
  - apply Nat.ltb_lt in E12. destruct maxDepth as [|maxDepth].
    { eexists. split; [reflexivity|]. apply go_heapSort_spec. lia. }
    pose proof (go_doPivot_spec r a b ltac:(lia) ltac:(lia)) as HP.
    destruct (go_doPivot r a b) as [[r1 mlo] mhi].
    destruct HP as (W1 & M1 & M2 & M3 & p & Hle & Heq & Hge).
    assert (L1 : length r1 = length r) by now apply swaps_in_length in W1.
    destruct (mlo - a <? b - mhi)%nat.
    + destruct (IH r1 a mlo maxDepth) as (r2 & -> & W2 & S2); [lia..|].
      assert (L2 : length r2 = length r1) by now apply swaps_in_length in W2.
      destruct (IH r2 mhi b maxDepth) as (r3 & -> & W3 & S3); [lia..|].
      exists r3. split; [reflexivity|]. split.
      * eapply swaps_in_trans; [exact W1|].
        eapply swaps_in_trans;
          [apply (swaps_in_weaken a mlo a b r1 r2); [lia..|exact W2]|].
        apply (swaps_in_weaken mhi b a b r2 r3); [lia..|exact W3].
      * apply (sorted_range_join r3 a mlo mhi b p).
        -- apply (swaps_in_sorted_outside _ _ _ _ _ _ W3); [lia|exact S2].
        -- exact S3.
        -- apply (range_all_outside _ _ _ _ _ _ _ W3); [lia|].
           apply (swaps_in_range_all _ _ _ _ _ _ _ W2); [lia..|exact Hle].
        -- apply (range_all_outside _ _ _ _ _ _ _ W3); [lia|].
           apply (range_all_outside _ _ _ _ _ _ _ W2); [lia|exact Heq].
        -- apply (swaps_in_range_all _ _ _ _ _ _ _ W3); [lia..|].
           apply (range_all_outside _ _ _ _ _ _ _ W2); [lia|exact Hge].
    + destruct (IH r1 mhi b maxDepth) as (r2 & -> & W2 & S2); [lia..|].
      assert (L2 : length r2 = length r1) by now apply swaps_in_length in W2.
      destruct (IH r2 a mlo maxDepth) as (r3 & -> & W3 & S3); [lia..|].
      exists r3. split; [reflexivity|]. split.
      * eapply swaps_in_trans; [exact W1|].
        eapply swaps_in_trans;
          [apply (swaps_in_weaken mhi b a b r1 r2); [lia..|exact W2]|].
        apply (swaps_in_weaken a mlo a b r2 r3); [lia..|exact W3].
      * apply (sorted_range_join r3 a mlo mhi b p).
        -- exact S3.
        -- apply (swaps_in_sorted_outside _ _ _ _ _ _ W3); [lia|exact S2].
        -- apply (swaps_in_range_all _ _ _ _ _ _ _ W3); [lia..|].
           apply (range_all_outside _ _ _ _ _ _ _ W2); [lia|exact Hle].
        -- apply (range_all_outside _ _ _ _ _ _ _ W3); [lia|].
           apply (range_all_outside _ _ _ _ _ _ _ W2); [lia|exact Heq].
        -- apply (range_all_outside _ _ _ _ _ _ _ W3); [lia|].
           apply (swaps_in_range_all _ _ _ _ _ _ _ W2); [lia..|exact Hge].
  - apply Nat.ltb_ge in E12. destruct (1 <? b - a)%nat eqn:E1.
    + eexists. split; [reflexivity|].
      assert (W : swaps_in a b r (go_shell_pass (b - (a + 6)) (a + 6) r)).
      { destruct (decide (b <= a + 6)%nat) as [Hb|Hb].
        - replace (b - (a + 6))%nat with 0%nat by lia. constructor.
        - replace b with (a + 6 + (b - (a + 6)))%nat at 1 by lia.
          apply go_shell_pass_spec; lia. }
      set (r1 := go_shell_pass _ _ r) in *. clearbody r1.
      destruct (go_insertionSort_spec r1 a b) as [W2 S2].
      * rewrite (swaps_in_length _ _ _ _ W). lia.
      * split; [eapply swaps_in_trans; eauto | exact S2].
    + apply Nat.ltb_ge in E1. exists r.
      split; [reflexivity|]. split; [constructor|].
      apply sorted_range_small. lia.
Qed.

(** [sort.Sort] returns for every row sequence, having reached it through
    [Swap] only and left it in ascending order. *)
Lemma go_Sort_sorts (r : Rows) :
  exists s, go_Sort r = Some s /\ sort_swaps r s /\ sort_ascending s.
Proof.
  unfold go_Sort, Rows_Len.
  destruct (go_quickSort_spec (S (length r)) r 0 (length r)
              (go_maxDepth (length r))) as (s & E & W & S); [lia..|].
  exists s. split; [exact E|]. split; [now apply swaps_in_sort_swaps in W|].
  intros i j Hij. unfold Rows_Len in Hij.
  pose proof (swaps_in_length _ _ _ _ W) as L.
  specialize (S i j ltac:(lia) ltac:(lia) ltac:(lia)).
  unfold row_key, string_le in S. unfold Rows_Less.
  destruct (lookup_lt_is_Some_2 s i) as [x Hx]; [lia|].
  destruct (lookup_lt_is_Some_2 s j) as [y Hy]; [lia|].
  rewrite Hx, Hy in *. now rewrite S.
Qed.

Lemma sort_Sort_meets_contract : sort_Sort_contract sort_Sort.
Proof.
  intros r. unfold sort_Sort.
  destruct (go_Sort_sorts r) as (s & -> & H). exact H.
Qed.

(** *** What the contract determines *)

(** A list has at most one sorted arrangement when the order is
    antisymmetric on its elements. *)
Lemma StronglySorted_Permutation_unique {A : Type} (R : A -> A -> Prop)
    (l1 l2 : list A) :
  (forall x y, In x l1 -> In y l1 -> R x y -> R y x -> x = y) ->
  StronglySorted R l1 -> StronglySorted R l2 -> Permutation l1 l2 -> l1 = l2.
Proof.
  revert l2. induction l1 as [|x l1 IH]; intros l2 Hanti H1 H2 Hp.
  - now apply Permutation_nil in Hp.
  - destruct l2 as [|y l2]; [now apply Permutation_sym, Permutation_nil in Hp|].
    apply StronglySorted_inv in H1 as [H1 Hx], H2 as [H2 Hy].
    rewrite List.Forall_forall in Hx, Hy.
    assert (x = y) as <-.
    { assert (In y (x :: l1)) as [E|Hy1]
        by (apply (Permutation_in y (Permutation_sym Hp)); now left); [assumption|].
      assert (In x (y :: l2)) as [E|Hx2]
        by (apply (Permutation_in x Hp); now left); [congruence|].
      apply Hanti; simpl; auto. }
    f_equal. apply IH; auto.
    + intros a b Ha Hb. apply Hanti; now right.
    + now apply Permutation_cons_inv in Hp.
Qed.

Lemma StronglySorted_map_Sprintf_s (r : Rows) :
  StronglySorted Row_le r -> StronglySorted string_le (map Sprintf_s r).
Proof.
  induction 1 as [|x r _ IH Hx]; simpl; constructor; [assumption|].
  now apply List.Forall_map.
Qed.

(** Two sorted arrangements of the same rows print alike, row by row; they
    are equal when different rows print differently. *)
Lemma sorted_arrangements (r a b : Rows) :
  Permutation r a -> StronglySorted Row_le a ->
  Permutation r b -> StronglySorted Row_le b ->
  map Sprintf_s a = map Sprintf_s b /\ (distinct_renderings r -> a = b).
Proof.
  intros Pa Sa Pb Sb.
  assert (Pab : Permutation a b) by now rewrite <- Pa.
  split.
  - apply (StronglySorted_Permutation_unique string_le);
      auto using StronglySorted_map_Sprintf_s, Permutation_map.
    intros x y _ _. apply string_le_antisym.
  - intros Hd. apply (StronglySorted_Permutation_unique Row_le); auto.
    intros x y Hx Hy Hxy Hyx.
    apply Hd; [now apply (Permutation_in x (Permutation_sym Pa))
              | now apply (Permutation_in y (Permutation_sym Pa)) |].
    now apply string_le_antisym.
Qed.

(** C3 (amended). For every snapshot the Sorter produces a permutation of
    its input that is in ascending order of the rows' renderings
    [fmt.Sprintf("%s", row)], compared byte by byte: the fields in column
    order, separated by single spaces, between square brackets. The order
    is purely textual over the colour-annotated strings. *)
Theorem Sorter_sorts_by_rendering (sorter : Rows -> Rows) (r : Rows) :
  sort_Sort_contract sorter ->
  Permutation r (sorter r) /\
  StronglySorted
    (fun a b => String.ltb (Sprintf_s b) (Sprintf_s a) = false) (sorter r) /\
  forall row, Sprintf_s row = "[" +:+ String.concat " " row +:+ "]".
Proof.
  intros H. destruct (sort_Sort_contract_sorted sorter r H) as [Hp Hs].
  repeat split; assumption.
Qed.

Lemma Sorter_sorts_by_rendering_witness :
  Permutation [tie_row2; tie_row1; main_header]
    (insertionSort [tie_row2; tie_row1; main_header]) /\
  StronglySorted
    (fun a b => String.ltb (Sprintf_s b) (Sprintf_s a) = false)
    (insertionSort [tie_row2; tie_row1; main_header]) /\
  forall row, Sprintf_s row = "[" +:+ String.concat " " row +:+ "]".
Proof.
  exact (Sorter_sorts_by_rendering insertionSort
           [tie_row2; tie_row1; main_header] insertionSort_contract).
Defined.

(** The rows of [two_pending_pods]: as fields the first row comes first
    (["Pending"] is a proper prefix of ["Pending PodScheduled"]), as
    renderings it comes second (after ["Pending "] the first rendering
    goes on with its node field [a2], the second with [PodScheduled]). *)
Lemma two_pending_pods_rows :
  getPods (plain_env "") "node-" (Listed two_pending_pods)
  = Returns [ ["[pod]"; "default"; "web"; "Pending"; "a2"; "10.0.0.2"; "5m"];
              ["[pod]"; "default"; "web"; "Pending PodScheduled"; "a1";
               "10.0.0.1"; "5m"] ].
Proof. vm_compute. reflexivity. Qed.

(** C3, as stated, fails: there is a snapshot, made of two rows the pod
    fetcher builds, that no sorter meeting the contract of [sort.Sort]
    leaves in the order of the fields read left to right. *)
Lemma Sorter_not_by_fields :
  exists r : Rows,
    getPods (plain_env "") "node-" (Listed two_pending_pods) = Returns r /\
    sort_Sort_contract insertionSort /\
    forall sorter, sort_Sort_contract sorter -> ~ fields_ascending (sorter r).
Proof.
  eexists. split; [apply two_pending_pods_rows|].
  split; [apply insertionSort_contract|].
  intros sorter H Hf.
  match type of Hf with
  | fields_ascending (sorter ?r) =>
      destruct (sort_Sort_contract_sorted sorter r H) as [Hp Hs]
  end.
  apply Permutation_length_2_inv in Hp as [E|E]; rewrite E in *; clear E.
  - apply StronglySorted_inv in Hs as [_ Hs].
    apply Forall_inv in Hs. vm_compute in Hs. discriminate.
  - apply StronglySorted_inv in Hf as [_ Hf].
    apply Forall_inv in Hf. vm_compute in Hf. now apply Hf.
Qed.

(** C6 (amended). Two runs of the Sorter on identical input sequences
    produce identical output sequences. Applying the Sorter to its own
    output gives a sequence whose rows have the same renderings
    [fmt.Sprintf("%s", row)] position by position; it is value-equal to
    that output whenever no two different rows of the input have the same
    rendering. This holds of every sorter that meets the contract of
    [sort.Sort], as [sort_Sort] does. *)
Theorem Sorter_determined_up_to_ties (sorter : Rows -> Rows) (r r' : Rows) :
  sort_Sort_contract sorter ->
  (r = r' -> sorter r = sorter r') /\
  map Sprintf_s (sorter (sorter r)) = map Sprintf_s (sorter r) /\
  (distinct_renderings r -> sorter (sorter r) = sorter r).
Proof.
  intros H. split; [now intros ->|].
  destruct (sort_Sort_contract_sorted sorter r H) as [Pa Sa].
  destruct (sort_Sort_contract_sorted sorter (sorter r) H) as [Pb Sb].
  assert (Pb' : Permutation r (sorter (sorter r))) by now rewrite Pa at 1.
  destruct (sorted_arrangements r _ _ Pb' Sb Pa Sa) as [E D].
  auto.
Qed.

Lemma Sorter_determined_up_to_ties_witness :
  sort_Sort [tie_row1; sample_pod_row; main_header]
  = sort_Sort [tie_row1; sample_pod_row; main_header] /\
  map Sprintf_s (sort_Sort (sort_Sort [tie_row1; sample_pod_row; main_header]))
  = map Sprintf_s (sort_Sort [tie_row1; sample_pod_row; main_header]) /\
  sort_Sort (sort_Sort [tie_row1; sample_pod_row; main_header])
  = sort_Sort [tie_row1; sample_pod_row; main_header].
Proof.
  destruct (Sorter_determined_up_to_ties sort_Sort
              [tie_row1; sample_pod_row; main_header]
              [tie_row1; sample_pod_row; main_header]
              sort_Sort_meets_contract)
    as (R & E & D).
  split; [now apply R|]. split; [exact E|]. apply D.
  intros a b [<-|[<-|[<-|[]]]] [<-|[<-|[<-|[]]]]; vm_compute; congruence.
Defined.

(** C6, as stated, fails. [tie_row1] and [tie_row2] are different rows
    that [Less] cannot tell apart. [sort.Sort], as Go's library has it up
    to release 1.18, sorts [tied_rows_swapped] into [tied_rows], and
    [tied_rows], its own output, into [tied_rows_swapped]: in each run
    [doPivot] takes the middle row, the first of the two, for the pivot,
    passes over the second, which is not greater, and puts the pivot
    behind it. Both sequences are in ascending order and print alike. *)
Lemma Sorter_not_idempotent_on_ties :
  go_Sort tied_rows_swapped = Some tied_rows /\
  go_Sort tied_rows = Some tied_rows_swapped /\
  tied_rows_swapped <> tied_rows /\
  map Sprintf_s tied_rows_swapped = map Sprintf_s tied_rows /\
  sort_ascending tied_rows /\
  sort_ascending tied_rows_swapped.
Proof.
  split; [vm_compute; reflexivity|].
  split; [vm_compute; reflexivity|].
  split; [discriminate|].
  split; [reflexivity|].
  split; apply sort_ascending_StronglySorted;
    repeat (constructor; [|repeat constructor]); constructor.
Qed.

(** ** The fetchers and [render] *)

Lemma range_items_Forall {A : Type} (P : Row -> Prop)
    (body : A -> Result (option Row)) (items : list A) (rows0 rows : Rows) :
  (forall item row, body item = Returns (Some row) -> P row) ->
  List.Forall P rows0 ->
  range_items body items rows0 = Returns rows -> List.Forall P rows.
Proof.
  intros Hbody. revert rows0.
  induction items as [|item items IH]; intros rows0 H0; simpl.
  - now intros [= <-].
  - destruct (body item) as [[row|]| |] eqn:E; try discriminate.
    + apply IH. apply List.Forall_app. split; [assumption|].
      constructor; [|constructor]. eapply Hbody, E.
    + now apply IH.
Qed.

(** A loop whose body skips every item returns the rows it started with. *)
Lemma range_items_all_skipped {A : Type} (body : A -> Result (option Row))
    (items : list A) (rows0 : Rows) :
  List.Forall (fun item => body item = Returns None) items ->
  range_items body items rows0 = Returns rows0.
Proof.
  induction 1 as [|item items E _ IH]; simpl; [reflexivity|].
  now rewrite E.
Qed.

(** A loop whose body never ends the process returns. *)
Lemma range_items_returns {A : Type} (body : A -> Result (option Row))
    (items : list A) (rows0 : Rows) :
  List.Forall (fun item => exists o, body item = Returns o) items ->
  exists rows, range_items body items rows0 = Returns rows.
Proof.
  intros H. revert rows0.
  induction H as [|item items [o E] _ IH]; intros rows0; simpl; [eauto|].
  rewrite E. destruct o; apply IH.
Qed.

(** A loop stops with the panic of the first item whose body panics, when
    no body calls [log.Fatal]. *)
Lemma range_items_panics {A : Type} (body : A -> Result (option Row))
    (items : list A) (rows0 : Rows) (bad : A) :
  (forall item, body item <> LogFatal) ->
  In bad items -> body bad = NilPanic ->
  range_items body items rows0 = NilPanic.
Proof.
  intros Hnf Hin Hbad. revert rows0.
  induction items as [|item items IH]; intros rows0; [destruct Hin|].
  simpl. destruct (body item) as [[row|]| |] eqn:E.
  - destruct Hin as [->|Hin]; [congruence | now apply IH].
  - destruct Hin as [->|Hin]; [congruence | now apply IH].
  - now destruct (Hnf item).
  - reflexivity.
Qed.

Section FetcherRows.
Context (env : Env).

Lemma getNodes_body_seven (node : Node) (row : Row) :
  getNodes_body env node = Returns (Some row) -> seven_fields row.
Proof.
  unfold getNodes_body. destruct (other_namespace _ _); [discriminate|].
  now intros [= <-].
Qed.

Lemma getServices_body_seven (service : Service) (row : Row) :
  getServices_body env service = Returns (Some row) -> seven_fields row.
Proof.
  unfold getServices_body.
  destruct (String.eqb _ "kube-system"); [discriminate|].
  destruct (other_namespace _ _); [discriminate|].
  now intros [= <-].
Qed.

Lemma getDeployments_body_seven (dep : Deployment) (row : Row) :
  getDeployments_body env dep = Returns (Some row) -> seven_fields row.
Proof.
  unfold getDeployments_body.
  destruct (String.eqb _ "kube-system"); [discriminate|].
  destruct (other_namespace _ _); [discriminate|].
  destruct (dep_Spec_Replicas dep); [|discriminate].
  now intros [= <-].
Qed.

Lemma getPods_body_seven (lcpNodes : string) (pod : Pod) (row : Row) :
  getPods_body env lcpNodes pod = Returns (Some row) -> seven_fields row.
Proof.
  unfold getPods_body.
  destruct (String.eqb _ "kube-system"); [discriminate|].
  destruct (other_namespace _ _); [discriminate|].
  now intros [= <-].
Qed.

(** Every row a fetcher sends has seven fields. *)
Lemma getNodes_seven nodes rows :
  getNodes env nodes = Returns rows -> List.Forall seven_fields rows.
Proof.
  destruct nodes as [items|]; [|discriminate].
  apply range_items_Forall; [apply getNodes_body_seven | constructor].
Qed.

Lemma getServices_seven services rows :
  getServices env services = Returns rows -> List.Forall seven_fields rows.
Proof.
  destruct services as [items|]; [|discriminate].
  apply range_items_Forall; [apply getServices_body_seven | constructor].
Qed.

Lemma getDeployments_seven deps rows :
  getDeployments env deps = Returns rows -> List.Forall seven_fields rows.
Proof.
  destruct deps as [items|]; [|discriminate].
  apply range_items_Forall; [apply getDeployments_body_seven | constructor].
Qed.

Lemma getPods_seven lcpNodes pods rows :
  getPods env lcpNodes pods = Returns rows -> List.Forall seven_fields rows.
Proof.
  destruct pods as [items|]; [|discriminate].
  apply range_items_Forall; [apply getPods_body_seven | constructor].
Qed.
End FetcherRows.

(** [render] passes its check exactly on rows as long as the header, and
    then hands over the rows in the order given. *)
Lemma render_check_returns (header : Row) (rows : Rows) :
  List.Forall (fun row => length row = length header) rows ->
  render_check header rows = Returns tt.
Proof.
  induction 1 as [|row rows E _ IH]; simpl; [reflexivity|].
  now rewrite E, Nat.eqb_refl.
Qed.

Lemma render_seven (rows : Rows) :
  List.Forall seven_fields rows ->
  render main_header rows
  = Returns {| table_header := main_header; table_rows := rows |}.
Proof.
  intros H. unfold render. now rewrite render_check_returns.
Qed.

Lemma render_fatal (header : Row) (rows : Rows) :
  List.Exists (fun row => length row <> length header) rows ->
  render header rows = LogFatal.
Proof.
  intros H. unfold render.
  enough (render_check header rows = LogFatal) as -> by reflexivity.
  induction H as [row rows E|row rows _ IH]; simpl.
  - destruct (Nat.eqb_spec (length header) (length row)); [congruence|reflexivity].
  - rewrite IH. now destruct (negb _).
Qed.

(** C9. With a non-empty namespace flag the node fetcher sends no row:
    nodes are cluster-scoped, their namespace is empty and differs from
    the flag, so every item is skipped. *)
Theorem getNodes_with_flag_empty (env : Env) (items : list Node) :
  flagNamespace env <> "" ->
  List.Forall (fun node => Namespace (node_ObjectMeta node) = "") items ->
  getNodes env (Listed items) = Returns [].
Proof.
  intros Hflag Hns. simpl. apply range_items_all_skipped.
  eapply List.Forall_impl; [|exact Hns]. intros node E.
  unfold getNodes_body, other_namespace. rewrite E.
  destruct (String.eqb_spec (flagNamespace env) ""); [contradiction|].
  destruct (String.eqb_spec "" (flagNamespace env)); [congruence|].
  reflexivity.
Qed.

Lemma getNodes_with_flag_empty_witness :
  getNodes (plain_env "default") (Listed sample_nodes) = Returns [].
Proof.
  apply (getNodes_with_flag_empty (plain_env "default") sample_nodes).
  - discriminate.
  - repeat constructor.
Defined.

(** Without the flag the same nodes give two rows. *)
Lemma getNodes_without_flag :
  getNodes (plain_env "") (Listed sample_nodes)
  = Returns [ ["[node]"; ""; "node-a1"; "Ready"; ""; "10.0.0.1"; "5m"];
              ["[node]"; ""; "node-a2"; "Ready"; ""; "10.0.0.2"; "5m"] ].
Proof. vm_compute. reflexivity. Qed.

Lemma getDeployments_body_not_fatal (env : Env) (dep : Deployment) :
  getDeployments_body env dep <> LogFatal.
Proof.
  unfold getDeployments_body.
  destruct (String.eqb _ _); [discriminate|].
  destruct (other_namespace _ _); [discriminate|].
  destruct (dep_Spec_Replicas dep); discriminate.
Qed.

Lemma getDeployments_body_panics (env : Env) (dep : Deployment) :
  dep_listed env dep ->
  (getDeployments_body env dep = NilPanic <-> dep_Spec_Replicas dep = None).
Proof.
  intros [E1 E2]. unfold getDeployments_body. rewrite E1, E2.
  destruct (dep_Spec_Replicas dep); split; congruence.
Qed.

(** C10. The deployment fetcher dereferences [Spec.Replicas] of every
    item it does not skip. It returns when every listed deployment has
    the field set; an item it does not skip with the field unset makes it
    panic. *)
Theorem getDeployments_nil_Replicas (env : Env) (items : list Deployment) :
  (forall dep, dep_listed env dep ->
     (getDeployments_body env dep = NilPanic <-> dep_Spec_Replicas dep = None)) /\
  (List.Forall (fun dep => dep_Spec_Replicas dep <> None) items ->
   exists rows, getDeployments env (Listed items) = Returns rows) /\
  (forall dep, In dep items -> dep_listed env dep ->
     dep_Spec_Replicas dep = None ->
     getDeployments env (Listed items) = NilPanic).
Proof.
  split; [apply getDeployments_body_panics|]. split.
  - intros H. simpl. apply range_items_returns.
    eapply List.Forall_impl; [|exact H]. intros dep Hdep. simpl in Hdep.
    unfold getDeployments_body.
    destruct (String.eqb _ _); [eauto|].
    destruct (other_namespace _ _); [eauto|].
    destruct (dep_Spec_Replicas dep); [eauto|contradiction].
  - intros dep Hin Hl Hnil. simpl.
    apply (range_items_panics _ _ _ dep);
      [apply getDeployments_body_not_fatal | assumption |].
    now apply getDeployments_body_panics.
Qed.

Lemma getDeployments_nil_Replicas_witness :
  (exists rows,
     getDeployments (plain_env "") (Listed [sample_deployment (Some 2)])
     = Returns rows) /\
  getDeployments (plain_env "")
    (Listed [sample_deployment (Some 2); sample_deployment None])
  = NilPanic.
Proof.
  split.
  - apply (getDeployments_nil_Replicas (plain_env "")
             [sample_deployment (Some 2)]).
    repeat constructor. discriminate.
  - apply (getDeployments_nil_Replicas (plain_env "")
             [sample_deployment (Some 2); sample_deployment None])
      with (dep := sample_deployment None).
    + simpl. tauto.
    + split; reflexivity.
    + reflexivity.
Defined.

(** ** The cycle *)

Section CycleFacts.
Context (sorter : Rows -> Rows) (fetched : list (Result Rows)).

Lemma run_reachable (schedule : list Action) (p p' : Process) :
  reachable sorter fetched p ->
  run sorter fetched schedule p = Some p' ->
  reachable sorter fetched p'.
Proof.
  revert p. induction schedule as [|a schedule IH]; intros p Hp Hrun.
  - simpl in Hrun. now injection Hrun as <-.
  - destruct p as [c|]; simpl in Hrun; [|discriminate].
    destruct (step sorter fetched a c) as [p1|] eqn:E; [|discriminate].
    apply (IH p1); [|assumption]. eapply reachable_step; eassumption.
Qed.

(** Nothing runs once the process has ended. *)
Lemma run_Exited (a : Action) (schedule : list Action) :
  run sorter fetched (a :: schedule) Exited = None.
Proof. reflexivity. Qed.

Lemma all_FDone_lookup (fs : list FetcherPC) (i : nat) (f : FetcherPC) :
  forallb is_FDone fs = true -> fs !! i = Some f -> f = FDone.
Proof.
  revert i. induction fs as [|g fs IH]; intros [|i] H E; simpl in *;
    try discriminate; apply andb_prop in H as [Hg Hfs].
  - injection E as <-. now destruct g.
  - eauto.
Qed.

(** A fetcher whose [List] call fails stays where it is until it ends
    the process; meanwhile [main] waits and the screen stays empty. *)
Lemma failed_fetcher_held_back (i : nat) (p : Process) :
  (i < 4)%nat -> fetched !! i = Some LogFatal ->
  reachable sorter fetched p -> held_back i p.
Proof.
  intros Hi Hf H. induction H as [|c a p Hc IH Hstep].
  - do 4 (destruct i as [|i]; [repeat split|]). lia.
  - destruct IH as (Hfi & Hm & Hs).
    destruct a as [j|j|j| | | | | | ]; simpl in Hstep.
    + destruct (fetchers c !! j) as [[]|] eqn:E; try discriminate.
      destruct (fetched !! j) as [[r| |]|] eqn:E2; try discriminate;
        injection Hstep as <-; simpl; trivial.
      destruct (decide (j = i)) as [->|Hne]; [congruence|].
      now rewrite list_lookup_insert_ne.
    + destruct (fetchers c !! j) as [[]|] eqn:E; try discriminate.
      destruct (collector c); try discriminate.
      destruct (closed c); injection Hstep as <-; simpl; trivial.
      destruct (decide (j = i)) as [->|Hne]; [congruence|].
      now rewrite list_lookup_insert_ne.
    + destruct (fetchers c !! j) as [[]|] eqn:E; try discriminate.
      injection Hstep as <-; simpl.
      destruct (decide (j = i)) as [->|Hne]; [congruence|].
      now rewrite list_lookup_insert_ne.
    + destruct (collector c); try discriminate.
      now injection Hstep as <-.
    + destruct (collector c); try discriminate.
      destruct (closed c); try discriminate. now injection Hstep as <-.
    + rewrite Hm in Hstep.
      destruct (forallb is_FDone (fetchers c)) eqn:E; [|discriminate].
      pose proof (all_FDone_lookup _ _ _ E Hfi). discriminate.
    + now rewrite Hm in Hstep.
    + now rewrite Hm in Hstep.
    + now rewrite Hm in Hstep.
Qed.

(** A property of the rows the fetchers return holds of every row a
    cycle holds, the sorter only permuting [rows]. *)
Lemma cycle_rows_all_reachable (P : Row -> Prop) (p : Process) :
  (forall r, Permutation r (sorter r)) ->
  (forall i r, fetched !! i = Some (Returns r) -> List.Forall P r) ->
  reachable sorter fetched p ->
  match p with Exited => True | Running c => cycle_rows_all P c end.
Proof.
  intros Hsort Hfetched H. induction H as [|c a p Hc IH Hstep].
  - repeat split; repeat constructor.
  - destruct IH as (Hrows & Hfs & Hcoll).
    destruct a as [j|j|j| | | | | | ]; simpl in Hstep.
    + destruct (fetchers c !! j) as [[]|] eqn:E; try discriminate.
      destruct (fetched !! j) as [[r| |]|] eqn:E2; try discriminate;
        injection Hstep as <-; trivial.
      repeat split; simpl; try assumption.
      apply Forall_insert; eauto.
    + destruct (fetchers c !! j) as [[|r| |]|] eqn:E; try discriminate.
      destruct (collector c); try discriminate.
      destruct (closed c); injection Hstep as <-; trivial.
      repeat split; simpl; try assumption.
      * now apply Forall_insert.
      * rewrite List.Forall_forall in Hfs.
        apply (Hfs (FSend r)), list_elem_of_In, list_elem_of_lookup. eauto.
    + destruct (fetchers c !! j) as [[]|] eqn:E; try discriminate.
      injection Hstep as <-.
      repeat split; simpl; try assumption. now apply Forall_insert.
    + destruct (collector c) as [|r|] eqn:E; try discriminate.
      injection Hstep as <-.
      repeat split; simpl; try assumption.
      apply List.Forall_app. now split.
    + destruct (collector c) eqn:E; try discriminate.
      destruct (closed c); try discriminate. injection Hstep as <-.
      repeat split; simpl; assumption.
    + destruct (main c); try discriminate.
      destruct (forallb is_FDone (fetchers c)); try discriminate.
      injection Hstep as <-. repeat split; simpl; assumption.
    + destruct (main c); try discriminate. injection Hstep as <-.
      repeat split; simpl; assumption.
    + destruct (main c); try discriminate. injection Hstep as <-.
      repeat split; simpl; try assumption.
      rewrite List.Forall_forall in *. intros row Hrow.
      apply Hrows. now apply (Permutation_in row (Permutation_sym (Hsort (rows c)))).
    + destruct (main c); try discriminate.
      destruct (render main_header (rows c)); injection Hstep as <-; trivial.
      repeat split; simpl; assumption.
Qed.
End CycleFacts.

Lemma list_failed_LogFatal (env : Env) (lcpNodes : string) (i : nat)
    nodes services deps pods :
  list_failed i nodes services deps pods ->
  (i < 4)%nat /\
  cycle_fetched env lcpNodes nodes services deps pods !! i = Some LogFatal.
Proof.
  do 4 (destruct i as [|i]; [intros ->; split; [lia | reflexivity]|]).
  intros [].
Qed.

(** C8. A fetcher whose [List] call returns an error ends the whole
    process by [log.Fatal]: it returns no rows and never reaches its send;
    in every state of the cycle it is still at its start, [main] still
    waits and nothing has been rendered; its step ends the process, and
    nothing runs after that (no retry). *)
Theorem list_error_ends_process (env : Env) (lcpNodes : string)
    (sorter : Rows -> Rows)
    (nodes : ListResult Node) (services : ListResult Service)
    (deps : ListResult Deployment) (pods : ListResult Pod)
    (i : nat) (p : Process) :
  list_failed i nodes services deps pods ->
  reachable sorter (cycle_fetched env lcpNodes nodes services deps pods) p ->
  (getNodes env ListError = LogFatal /\
   getServices env ListError = LogFatal /\
   getDeployments env ListError = LogFatal /\
   getPods env lcpNodes ListError = LogFatal) /\
  cycle_fetched env lcpNodes nodes services deps pods !! i = Some LogFatal /\
  held_back i p /\
  (forall c, p = Running c ->
     step sorter (cycle_fetched env lcpNodes nodes services deps pods)
       (AList i) c = Some Exited) /\
  (forall a schedule,
     run sorter (cycle_fetched env lcpNodes nodes services deps pods)
       (a :: schedule) Exited = None).
Proof.
  intros Hfail Hreach.
  destruct (list_failed_LogFatal env lcpNodes i _ _ _ _ Hfail) as [Hi Hf].
  pose proof (failed_fetcher_held_back _ _ i p Hi Hf Hreach) as Hheld.
  split; [repeat split|]. split; [assumption|]. split; [assumption|].
  split; [|reflexivity].
  intros c ->. destruct Hheld as (Hfi & _ & _).
  unfold step. now rewrite Hfi, Hf.
Qed.

Lemma list_error_ends_process_witness :
  run insertionSort sample_fetched_pods_failed
    [AList 0; ASend 0; AAppend; ADone 0; AList 1] (Running cycle_start)
  = Some (Running
            (sample_state sample_fetched_pods_failed
               [AList 0; ASend 0; AAppend; ADone 0; AList 1])) /\
  held_back 3
    (Running
       (sample_state sample_fetched_pods_failed
          [AList 0; ASend 0; AAppend; ADone 0; AList 1])) /\
  step insertionSort sample_fetched_pods_failed (AList 3)
    (sample_state sample_fetched_pods_failed
       [AList 0; ASend 0; AAppend; ADone 0; AList 1])
  = Some Exited.
Proof.
  assert (Hrun :
    run insertionSort sample_fetched_pods_failed
      [AList 0; ASend 0; AAppend; ADone 0; AList 1] (Running cycle_start)
    = Some (Running
              (sample_state sample_fetched_pods_failed
                 [AList 0; ASend 0; AAppend; ADone 0; AList 1])))
    by (vm_compute; reflexivity).
  split; [exact Hrun|].
  pose proof (run_reachable _ _ _ _ _ (reachable_start _ _) Hrun) as Hr.
  destruct (list_error_ends_process (plain_env "") sample_lcpNodes
              insertionSort (Listed sample_nodes) (Listed [sample_service])
              (Listed [sample_deployment (Some 2)]) ListError 3 _
              eq_refl Hr)
    as (_ & _ & Hheld & Hstep & _).
  split; [exact Hheld | now apply Hstep].
Defined.

(** C7. Every row a fetcher sends has seven fields, as the header has; so
    in every state of a cycle the check of [render] passes on [rows], and
    [render] hands the header and the rows, in the order given, to the
    table writer. *)
Theorem fetched_rows_render (env : Env) (lcpNodes : string)
    (sorter : Rows -> Rows)
    (nodes : ListResult Node) (services : ListResult Service)
    (deps : ListResult Deployment) (pods : ListResult Pod) :
  sort_Sort_contract sorter ->
  (forall r, getNodes env nodes = Returns r -> List.Forall seven_fields r) /\
  (forall r, getServices env services = Returns r -> List.Forall seven_fields r) /\
  (forall r, getDeployments env deps = Returns r -> List.Forall seven_fields r) /\
  (forall r, getPods env lcpNodes pods = Returns r -> List.Forall seven_fields r) /\
  seven_fields main_header /\
  forall c,
    reachable sorter (cycle_fetched env lcpNodes nodes services deps pods)
      (Running c) ->
    List.Forall seven_fields (rows c) /\
    render main_header (rows c)
    = Returns {| table_header := main_header; table_rows := rows c |} /\
    (main c = MRender ->
     step sorter (cycle_fetched env lcpNodes nodes services deps pods)
       ARender c
     = Some (Running
               (set_main MSleep
                  (set_screen
                     (Some {| table_header := main_header;
                              table_rows := rows c |}) c)))).
Proof.
  intros Hsort.
  split; [apply getNodes_seven|]. split; [apply getServices_seven|].
  split; [apply getDeployments_seven|]. split; [apply getPods_seven|].
  split; [reflexivity|].
  intros c Hc.
  assert (H7 : List.Forall seven_fields (rows c)).
  { apply (cycle_rows_all_reachable sorter
             (cycle_fetched env lcpNodes nodes services deps pods)
             seven_fields (Running c)
             (fun r => proj1 (sort_Sort_contract_sorted sorter r Hsort)));
      [|exact Hc].
    intros i r. unfold cycle_fetched.
    do 4 (destruct i as [|i];
          [simpl; intros [= E];
           eauto using getNodes_seven, getServices_seven,
             getDeployments_seven, getPods_seven|]).
    discriminate. }
  split; [assumption|]. split; [now apply render_seven|].
  intros Hm. unfold step. now rewrite Hm, render_seven.
Qed.

Lemma fetched_rows_render_witness :
  run insertionSort sample_fetched mixed_schedule_sorted (Running cycle_start)
  = Some (Running (sample_state sample_fetched mixed_schedule_sorted)) /\
  List.Forall seven_fields
    (rows (sample_state sample_fetched mixed_schedule_sorted)) /\
  step insertionSort sample_fetched ARender
    (sample_state sample_fetched mixed_schedule_sorted)
  = Some (Running
            (set_main MSleep
               (set_screen
                  (Some {| table_header := main_header;
                           table_rows :=
                             rows (sample_state sample_fetched
                                     mixed_schedule_sorted) |})
                  (sample_state sample_fetched mixed_schedule_sorted)))).
Proof.
  assert (Hrun :
    run insertionSort sample_fetched mixed_schedule_sorted
      (Running cycle_start)
    = Some (Running (sample_state sample_fetched mixed_schedule_sorted)))
    by (vm_compute; reflexivity).
  split; [exact Hrun|].
  pose proof (run_reachable _ _ _ _ _ (reachable_start _ _) Hrun) as Hr.
  destruct (fetched_rows_render (plain_env "") sample_lcpNodes insertionSort
              (Listed sample_nodes) (Listed [sample_service])
              (Listed [sample_deployment (Some 2)])
              (Listed [sample_pod "Running"
                         [{| cond_Type := "Ready"; cond_Status := "True" |}]
                         "node-a1" "10.1.0.5"])
              insertionSort_contract)
    as (_ & _ & _ & _ & _ & H).
  destruct (H _ Hr) as (H7 & _ & Hstep).
  split; [exact H7 | apply Hstep; vm_compute; reflexivity].
Defined.

(** The channel is unbuffered: while the collector holds a value it has
    not appended, the next send is not enabled. *)
Lemma send_waits_for_collector :
  run insertionSort sample_fetched
    [AList 0; AList 1; ASend 0; ASend 1] (Running cycle_start) = None.
Proof. reflexivity. Qed.

(** When the collector appends before [main] sorts, the table shows the
    five rows of the sample cluster. *)
Lemma orderly_schedule_complete :
  run insertionSort sample_fetched orderly_schedule (Running cycle_start)
  = Some (Running (sample_state sample_fetched orderly_schedule)) /\
  main (sample_state sample_fetched orderly_schedule) = MSleep /\
  collector (sample_state sample_fetched orderly_schedule) = CExit /\
  exists t,
    screen (sample_state sample_fetched orderly_schedule) = Some t /\
    Permutation (fetched_rows sample_fetched) (table_rows t) /\
    length (table_rows t) = 5%nat.
Proof.
  do 3 (split; [vm_compute; reflexivity|]).
  exists {| table_header := main_header;
            table_rows := insertionSort (fetched_rows sample_fetched) |}.
  split; [vm_compute; reflexivity|]. split; [|vm_compute; reflexivity].
  apply sort_swaps_Permutation, insertionSort_contract.
Qed.

(** C1: a schedule of the cycle in which the table is rendered without
    the rows of the pod fetcher. The four fetchers have sent and are done,
    [main] has left [wg.Wait()], closed the channel, sorted and rendered;
    the collector still holds the pod rows it received and has not yet
    appended them. Five rows were fetched, four are on the screen. *)
Theorem racy_schedule_drops_rows :
  run insertionSort sample_fetched racy_schedule (Running cycle_start)
  = Some (Running (sample_state sample_fetched racy_schedule)) /\
  fetchers (sample_state sample_fetched racy_schedule)
  = [FDone; FDone; FDone; FDone] /\
  main (sample_state sample_fetched racy_schedule) = MSleep /\
  collector (sample_state sample_fetched racy_schedule)
  = CAppend [sample_pod_row] /\
  In sample_pod_row (fetched_rows sample_fetched) /\
  length (fetched_rows sample_fetched) = 5%nat /\
  exists t,
    screen (sample_state sample_fetched racy_schedule) = Some t /\
    length (table_rows t) = 4%nat /\
    ~ In sample_pod_row (table_rows t).
Proof.
  do 4 (split; [vm_compute; reflexivity|]).
  split; [vm_compute; tauto|]. split; [vm_compute; reflexivity|].
  exists {| table_header := main_header;
            table_rows :=
              [ ["[deploy]"; "default"; "web"; "1/2/2 Available"; ""; ""; "5m"];
                ["[node]"; ""; "node-a1"; "Ready"; ""; "10.0.0.1"; "5m"];
                ["[node]"; ""; "node-a2"; "Ready"; ""; "10.0.0.2"; "5m"];
                ["[svc]"; "default"; "web"; ""; ""; "10.96.0.7 http"; "5m"] ] |}.
  split; [vm_compute; reflexivity|]. split; [reflexivity|].
  simpl. intros [H|[H|[H|[H|[]]]]]; discriminate.
Qed.

(* ===================================================================== *)
(** * Part III: further properties of the code                            *)
(* ===================================================================== *)

(** ** [truncate], continued *)

Lemma append_inj_len (a a' b b' : string) :
  a +:+ b = a' +:+ b' -> len a = len a' -> a = a' /\ b = b'.
Proof.
  revert a'. induction a as [|x a IH]; intros [|x' a'] H Hl;
    simpl in Hl; try discriminate.
  - rewrite !append_nil in H. now split.
  - rewrite !append_cons in H. injection H as -> H.
    destruct (IH a' H) as [-> ->]; [lia | split; reflexivity].
Qed.

(** X1. [truncate] never returns more than 20 characters, and never more
    characters than it was given. *)
Theorem truncate_length (s : string) :
  (len (truncate s) <= 20)%nat /\ (len (truncate s) <= len s)%nat.
Proof.
  destruct (Nat.lt_ge_cases (len s) 20) as [H|H].
  - rewrite truncate_short by assumption. lia.
  - destruct (truncate_long s H) as (p & mid & suf & Hs & Hp & Hsuf & Ht).
    rewrite Ht, !len_append, Hp, Hsuf. simpl. lia.
Qed.

(** X2. [truncate] is idempotent: a shortened name is not shortened
    further. *)
Theorem truncate_idempotent (s : string) :
  truncate (truncate s) = truncate s.
Proof.
  destruct (Nat.lt_ge_cases (len s) 20) as [H|H].
  - rewrite (truncate_short s H). now apply truncate_short.
  - destruct (truncate_long s H) as (p & mid & suf & Hs & Hp & Hsuf & Ht).
    destruct (truncate_long (truncate s))
      as (p' & mid' & suf' & Hs' & Hp' & Hsuf' & Ht').
    { rewrite Ht, !len_append, Hp, Hsuf. simpl. lia. }
    rewrite Ht'. rewrite Ht in Hs'.
    destruct (append_inj_len p p' _ _ Hs') as [<- Hrest]; [congruence|].
    assert (Hmid : len mid' = 3%nat).
    { apply (f_equal len) in Hrest. rewrite !len_append in Hrest.
      simpl in Hrest. lia. }
    destruct (append_inj_len "..." mid' suf suf' Hrest) as [_ <-];
      [now rewrite Hmid|].
    now rewrite Ht.
Qed.

(** ** [lcp], continued *)

Lemma prefix_append (p r : string) : String.prefix p (p +:+ r) = true.
Proof.
  induction p as [|c p IH]; [apply prefix_nil|].
  now rewrite append_cons, prefix_cons.
Qed.

Lemma prefix_split (p s : string) :
  String.prefix p s = true -> exists r, s = p +:+ r.
Proof.
  revert s. induction p as [|c p IH]; intros s H.
  - exists s. reflexivity.
  - destruct s as [|d s]; simpl in H; [discriminate|].
    destruct (Ascii.ascii_dec c d) as [<-|]; [|discriminate].
    destruct (IH s H) as [r ->]. exists r. reflexivity.
Qed.

Lemma strings_TrimPrefix_append (p r : string) :
  strings_TrimPrefix (p +:+ r) p = r.
Proof.
  unfold strings_TrimPrefix, strings_HasPrefix, slice_from.
  rewrite prefix_append, len_append, substring_skip_append.
  replace (len p + len r - len p)%nat with (len r) by lia.
  apply substring_0_full.
Qed.

Lemma lcp_two_or_more (l0 l1 : string) (rest : list string)
    (mn mx : string) :
  is_lex_min mn (l0 :: l1 :: rest) -> is_lex_max mx (l0 :: l1 :: rest) ->
  lcp (l0 :: l1 :: rest) = common_prefix mn mx.
Proof.
  intros Hmn Hmx. rewrite lcp_minmax_common_prefix.
  pose proof (lcp_minmax_spec l0 (l1 :: rest)) as [Hmin Hmax].
  now rewrite (is_lex_min_unique _ _ _ Hmin Hmn),
              (is_lex_max_unique _ _ _ Hmax Hmx).
Qed.

Lemma lcp_prefix_of_element (l : list string) (s : string) :
  In s l -> String.prefix (lcp l) s = true.
Proof.
  destruct l as [|l0 [|l1 rest]].
  - intros [].
  - intros [<-|[]]. apply prefix_refl.
  - intros Hs. rewrite lcp_minmax_common_prefix.
    pose proof (lcp_minmax_spec l0 (l1 :: rest)) as [Hmin Hmax].
    apply common_prefix_between; [now apply Hmin | now apply Hmax].
Qed.

Lemma prefix_common_prefix (p a b : string) :
  String.prefix p a = true -> String.prefix p b = true ->
  String.prefix p (common_prefix a b) = true.
Proof.
  revert a b. induction p as [|c p IH]; intros a b Ha Hb;
    [apply prefix_nil|].
  destruct a as [|x a]; simpl in Ha; [discriminate|].
  destruct b as [|y b]; simpl in Hb; [discriminate|].
  destruct (Ascii.ascii_dec c x) as [<-|]; [|discriminate].
  destruct (Ascii.ascii_dec c y) as [<-|]; [|discriminate].
  simpl common_prefix. rewrite Ascii.eqb_refl, prefix_cons. now apply IH.
Qed.

(** X3. The prefix [main] computes at its start is stripped cleanly from
    the name of every node it was computed from: the prefix followed by
    what [strings.TrimPrefix] leaves is the node name again. With a single
    node the prefix is the whole name and nothing is left of it. *)
Theorem main_lcpNodes_trims (nodes : list Node) (node : Node) :
  In node nodes ->
  main_lcpNodes nodes
    +:+ strings_TrimPrefix (Name (node_ObjectMeta node)) (main_lcpNodes nodes)
  = Name (node_ObjectMeta node) /\
  (nodes = [node] ->
   strings_TrimPrefix (Name (node_ObjectMeta node)) (main_lcpNodes nodes) = "").
Proof.
  intros Hin. unfold main_lcpNodes. split.
  - assert (H : In (Name (node_ObjectMeta node))
                  (map (fun n => Name (node_ObjectMeta n)) nodes))
      by (apply in_map_iff; eauto).
    apply lcp_prefix_of_element, prefix_split in H as [r Hr].
    rewrite Hr at 1. rewrite strings_TrimPrefix_append. now symmetry.
  - intros ->. simpl.
    rewrite <- (append_empty_r (Name (node_ObjectMeta node))) at 1.
    apply strings_TrimPrefix_append.
Qed.

Lemma main_lcpNodes_trims_witness :
  main_lcpNodes sample_nodes
    +:+ strings_TrimPrefix (Name (node_ObjectMeta sample_node))
          (main_lcpNodes sample_nodes)
  = Name (node_ObjectMeta sample_node) /\
  strings_TrimPrefix (Name (node_ObjectMeta sample_node))
    (main_lcpNodes [sample_node]) = "".
Proof.
  split.
  - apply (main_lcpNodes_trims sample_nodes sample_node). simpl. tauto.
  - apply (main_lcpNodes_trims [sample_node] sample_node);
      [simpl; tauto | reflexivity].
Defined.

(** X4. [lcp] returns the longest common prefix: every string that is a
    prefix of all the elements of a non-empty list is a prefix of the
    result. *)
Theorem lcp_longest (l : list string) (p : string) :
  l <> [] ->
  (forall s, In s l -> String.prefix p s = true) ->
  String.prefix p (lcp l) = true.
Proof.
  intros Hne Hp. destruct l as [|l0 [|l1 rest]]; [contradiction| |].
  - apply Hp. now left.
  - rewrite lcp_minmax_common_prefix.
    pose proof (lcp_minmax_spec l0 (l1 :: rest)) as [[Hmin _] [Hmax _]].
    apply prefix_common_prefix; auto.
Qed.

Lemma lcp_longest_witness :
  String.prefix "node-" (lcp ["node-a1"; "node-a2"; "node-b1"]) = true.
Proof.
  apply (lcp_longest ["node-a1"; "node-a2"; "node-b1"] "node-").
  - discriminate.
  - intros s [<-|[<-|[<-|[]]]]; reflexivity.
Defined.

Lemma is_lex_min_Permutation (l l' : list string) (m : string) :
  Permutation l l' -> is_lex_min m l -> is_lex_min m l'.
Proof.
  intros P [Hin Hle]. split.
  - now apply (Permutation_in m P).
  - intros s Hs. apply Hle. now apply (Permutation_in s (Permutation_sym P)).
Qed.

Lemma is_lex_max_Permutation (l l' : list string) (m : string) :
  Permutation l l' -> is_lex_max m l -> is_lex_max m l'.
Proof.
  intros P [Hin Hle]. split.
  - now apply (Permutation_in m P).
  - intros s Hs. apply Hle. now apply (Permutation_in s (Permutation_sym P)).
Qed.

(** X5. [lcp] does not depend on the order in which the names are
    listed. *)
Theorem lcp_Permutation (l l' : list string) :
  Permutation l l' -> lcp l = lcp l'.
Proof.
  intros P. destruct l as [|l0 [|l1 rest]].
  - now apply Permutation_nil in P as ->.
  - now apply Permutation_length_1_inv in P as ->.
  - pose proof (Permutation_length P) as Hlen.
    destruct l' as [|l0' [|l1' rest']]; try discriminate.
    pose proof (lcp_minmax_spec l0 (l1 :: rest)) as [Hmin Hmax].
    rewrite lcp_minmax_common_prefix. symmetry.
    apply lcp_two_or_more.
    + now apply (is_lex_min_Permutation _ _ _ P).
    + now apply (is_lex_max_Permutation _ _ _ P).
Qed.

Lemma lcp_Permutation_witness :
  lcp ["node-a2"; "node-b1"; "node-a1"] = lcp ["node-a1"; "node-a2"; "node-b1"].
Proof.
  apply (lcp_Permutation ["node-a2"; "node-b1"; "node-a1"]
           ["node-a1"; "node-a2"; "node-b1"]).
  apply Permutation_sym.
  apply (Permutation_cons_app ["node-a2"; "node-b1"] [] "node-a1").
  reflexivity.
Defined.

(** ** [Rows.Swap] and [Rows.Less], continued *)

(** X6. [Swap] panics exactly when an index is out of range; otherwise it
    keeps the length, exchanges the rows at the two indices, leaves every
    other row in place, and is undone by the same [Swap]. *)
Theorem Rows_Swap_exchanges (r : Rows) (i j : nat) :
  (Rows_Swap r i j = None <-> ~ (i < Rows_Len r /\ j < Rows_Len r)%nat) /\
  forall r', Rows_Swap r i j = Some r' ->
    Rows_Len r' = Rows_Len r /\
    r' !! i = r !! j /\ r' !! j = r !! i /\
    (forall k, k <> i -> k <> j -> r' !! k = r !! k) /\
    Rows_Swap r' i j = Some r.
Proof.
  unfold Rows_Swap, Rows_Len.
  destruct (r !! i) as [ri|] eqn:Ei; [destruct (r !! j) as [rj|] eqn:Ej|].
  - pose proof (lookup_lt_Some _ _ _ Ei) as Hi.
    pose proof (lookup_lt_Some _ _ _ Ej) as Hj.
    split; [split; [discriminate | intros H; exfalso; apply H; lia]|].
    intros r' [= <-].
    assert (Li : <[j:=ri]> (<[i:=rj]> r) !! i = Some rj).
    { destruct (decide (i = j)) as [<-|Hne].
      - rewrite list_lookup_insert_eq by (rewrite length_insert; lia). congruence.
      - rewrite list_lookup_insert_ne by congruence.
        now rewrite list_lookup_insert_eq. }
    assert (Lj : <[j:=ri]> (<[i:=rj]> r) !! j = Some ri)
      by (rewrite list_lookup_insert_eq by (rewrite length_insert; lia); reflexivity).
    split; [now rewrite !length_insert|].
    split; [assumption|]. split; [assumption|]. split.
    + intros k Hki Hkj. now rewrite !list_lookup_insert_ne by congruence.
    + rewrite Li, Lj. f_equal. apply list_eq. intros k.
      destruct (decide (k = j)) as [->|Hkj].
      * rewrite list_lookup_insert_eq by (rewrite !length_insert; lia).
        now symmetry.
      * rewrite list_lookup_insert_ne by congruence.
        destruct (decide (k = i)) as [->|Hki].
        -- rewrite list_lookup_insert_eq by (rewrite !length_insert; lia).
           now symmetry.
        -- now rewrite !list_lookup_insert_ne by congruence.
  - apply lookup_ge_None in Ej.
    split; [split; [lia | reflexivity] | discriminate].
  - apply lookup_ge_None in Ei.
    split; [split; [lia | reflexivity] | discriminate].
Qed.

Lemma Rows_Less_lookup (r : Rows) (i j : nat) (b : bool) :
  Rows_Less r i j = Some b ->
  exists ri rj, r !! i = Some ri /\ r !! j = Some rj /\ Row_less ri rj = b.
Proof.
  unfold Rows_Less.
  destruct (r !! i) as [ri|]; [|discriminate].
  destruct (r !! j) as [rj|]; [|discriminate].
  intros [= <-]. eauto.
Qed.

Lemma Row_less_irrefl (a : Row) : Row_less a a = false.
Proof.
  unfold Row_less, String.ltb. now rewrite string_compare_refl.
Qed.

Lemma Row_less_asym (a b : Row) : Row_less a b = true -> Row_less b a = false.
Proof. intros H. apply ltb_true_le in H. exact H. Qed.

Lemma Row_less_trans (a b c : Row) :
  Row_less a b = true -> Row_less b c = true -> Row_less a c = true.
Proof.
  unfold Row_less. rewrite !ltb_compare. apply string_compare_lt_trans.
Qed.

Lemma Row_less_tie (a b : Row) :
  Row_less a b = false -> Row_less b a = false -> Sprintf_s a = Sprintf_s b.
Proof. intros H1 H2. now apply string_le_antisym. Qed.

(** X7. [Less] is the kind of order [sort.Sort] asks for: no row is less
    than itself, two rows are never each less than the other, [Less] is
    transitive, and so is being tied (neither row less than the other),
    tied rows being the rows with the same rendering. *)
Theorem Rows_Less_strict_weak_order (r : Rows) (i j k : nat) :
  Rows_Less r i i <> Some true /\
  (Rows_Less r i j = Some true -> Rows_Less r j i = Some false) /\
  (Rows_Less r i j = Some true -> Rows_Less r j k = Some true ->
   Rows_Less r i k = Some true) /\
  (Rows_Less r i j = Some false -> Rows_Less r j i = Some false ->
   Rows_Less r j k = Some false -> Rows_Less r k j = Some false ->
   Rows_Less r i k = Some false /\ Rows_Less r k i = Some false) /\
  (forall ri rj, r !! i = Some ri -> r !! j = Some rj ->
     (Rows_Less r i j = Some false /\ Rows_Less r j i = Some false
      <-> Sprintf_s ri = Sprintf_s rj)).
Proof.
  split; [|split; [|split; [|split]]].
  - intros (ri & ri' & E1 & E2 & H)%Rows_Less_lookup.
    assert (ri' = ri) as -> by congruence.
    now rewrite Row_less_irrefl in H.
  - intros (ri & rj & Ei & Ej & H)%Rows_Less_lookup.
    unfold Rows_Less. rewrite Ei, Ej. f_equal. now apply Row_less_asym.
  - intros (ri & rj & Ei & Ej & H1)%Rows_Less_lookup
           (rj' & rk & Ej' & Ek & H2)%Rows_Less_lookup.
    assert (rj' = rj) as -> by congruence.
    unfold Rows_Less. rewrite Ei, Ek. f_equal.
    now apply (Row_less_trans ri rj rk).
  - intros (ri & rj & Ei & Ej & H1)%Rows_Less_lookup
           (rj1 & ri1 & Ej1 & Ei1 & H2)%Rows_Less_lookup
           (rj2 & rk & Ej2 & Ek & H3)%Rows_Less_lookup
           (rk1 & rj3 & Ek1 & Ej3 & H4)%Rows_Less_lookup.
    assert (rj1 = rj) as -> by congruence.
    assert (rj2 = rj) as -> by congruence.
    assert (rj3 = rj) as -> by congruence.
    assert (ri1 = ri) as -> by congruence.
    assert (rk1 = rk) as -> by congruence.
    pose proof (Row_less_tie ri rj H1 H2) as T1.
    pose proof (Row_less_tie rj rk H3 H4) as T2.
    unfold Rows_Less. rewrite Ei, Ek. unfold Row_less in *.
    rewrite T1, T2. unfold String.ltb.
    rewrite string_compare_refl. split; reflexivity.
  - intros ri rj Ei Ej. unfold Rows_Less. rewrite Ei, Ej. split.
    + intros [[= H1] [= H2]]. now apply Row_less_tie.
    + intros T. unfold String.ltb. rewrite T, string_compare_refl.
      split; reflexivity.
Qed.

(** X8. What [sort.Sort] can make of a row sequence by calling [Swap] is
    exactly its permutations: swaps neither lose nor repeat a row, and
    every arrangement is within reach. *)
Theorem sort_swaps_iff_Permutation (r r' : Rows) :
  sort_swaps r r' <-> Permutation r r'.
Proof.
  split; [apply sort_swaps_Permutation | apply Permutation_sort_swaps].
Qed.

(** ** [render], continued *)

(** X9. [render] prints the header and the rows, in the order given,
    exactly when every row is as long as the header; it ends the process
    by [log.Fatalf] exactly when some row is not; it never panics. An
    empty snapshot prints the header alone. *)
Theorem render_checks_lengths (header : Row) (rows : Rows) :
  (render header rows
   = Returns {| table_header := header; table_rows := rows |}
   <-> List.Forall (fun row => length row = length header) rows) /\
  (render header rows = LogFatal
   <-> List.Exists (fun row => length row <> length header) rows) /\
  render header rows <> NilPanic /\
  render header [] = Returns {| table_header := header; table_rows := [] |}.
Proof.
  assert (Hdec : forall row : list string,
            {length row = length header} + {length row <> length header})
    by (intros row; apply Nat.eq_dec).
  destruct (List.Forall_Exists_dec _ Hdec rows) as [Hall|Hex].
  - pose proof (render_check_returns header rows Hall) as E.
    unfold render. rewrite E.
    split; [tauto|]. split; [|split; [discriminate | reflexivity]].
    split; [discriminate|]. intros Hex. exfalso.
    rewrite List.Forall_forall in Hall.
    apply List.Exists_exists in Hex as (row & Hin & Hne). auto.
  - pose proof (render_fatal header rows Hex) as E. rewrite E.
    split; [|split; [tauto | split; [discriminate | reflexivity]]].
    split; [discriminate|]. intros Hall. exfalso.
    rewrite List.Forall_forall in Hall.
    apply List.Exists_exists in Hex as (row & Hin & Hne). auto.
Qed.

(** ** The fetchers, continued *)

(** The loop of a fetcher whose body never calls [log.Fatal]: it panics
    when the body panics on some item, and otherwise returns one row for
    every item the body gives a row for. *)
Lemma range_items_cases {A : Type} (body : A -> Result (option Row))
    (items : list A) (rows0 : Rows) :
  (forall item, body item <> LogFatal) ->
  (List.Exists (fun item => body item = NilPanic) items /\
   range_items body items rows0 = NilPanic) \/
  (List.Forall (fun item => body item <> NilPanic) items /\
   exists rows,
     range_items body items rows0 = Returns (rows0 ++ rows) /\
     length rows
     = length (List.filter (fun item => is_row (body item)) items)).
Proof.
  intros Hnf. revert rows0.
  induction items as [|item items IH]; intros rows0; simpl.
  - right. split; [constructor|]. exists []. now rewrite app_nil_r.
  - destruct (body item) as [[row|]| |] eqn:E; simpl.
    + destruct (IH (rows0 ++ [row])) as [[Hex Hr]|[Hall (rows & Hr & Hl)]].
      * left. split; [now apply List.Exists_cons_tl | assumption].
      * right. split; [constructor; [congruence | assumption]|].
        exists (row :: rows). rewrite Hr, <- app_assoc. simpl.
        split; [reflexivity | now rewrite Hl].
    + destruct (IH rows0) as [[Hex Hr]|[Hall (rows & Hr & Hl)]].
      * left. split; [now apply List.Exists_cons_tl | assumption].
      * right. split; [constructor; [congruence | assumption]|]. eauto.
    + now destruct (Hnf item).
    + left. split; [now apply List.Exists_cons_hd | reflexivity].
Qed.

Lemma filter_ext_length {A : Type} (f g : A -> bool) (l : list A) :
  (forall x, f x = g x) ->
  length (List.filter f l) = length (List.filter g l).
Proof.
  intros H. induction l as [|x l IH]; simpl; [reflexivity|].
  rewrite H. destruct (g x); simpl; now rewrite IH.
Qed.

Section FetcherShown.
Context (env : Env).

Lemma getNodes_body_is_row (node : Node) :
  getNodes_body env node <> LogFatal /\
  getNodes_body env node <> NilPanic /\
  is_row (getNodes_body env node)
  = negb (other_namespace env (Namespace (node_ObjectMeta node))).
Proof.
  unfold getNodes_body. destruct (other_namespace _ _); repeat split; discriminate.
Qed.

Lemma getServices_body_is_row (service : Service) :
  getServices_body env service <> LogFatal /\
  getServices_body env service <> NilPanic /\
  is_row (getServices_body env service)
  = shown env (Namespace (svc_ObjectMeta service)).
Proof.
  unfold getServices_body, shown.
  destruct (String.eqb _ "kube-system"); [repeat split; discriminate|].
  destruct (other_namespace _ _); repeat split; discriminate.
Qed.

Lemma getPods_body_is_row (lcpNodes : string) (pod : Pod) :
  getPods_body env lcpNodes pod <> LogFatal /\
  getPods_body env lcpNodes pod <> NilPanic /\
  is_row (getPods_body env lcpNodes pod)
  = shown env (Namespace (pod_ObjectMeta pod)).
Proof.
  unfold getPods_body, shown.
  destruct (String.eqb _ "kube-system"); [repeat split; discriminate|].
  destruct (other_namespace _ _); repeat split; discriminate.
Qed.

Lemma getDeployments_body_is_row (dep : Deployment) :
  (getDeployments_body env dep = NilPanic <->
   shown env (Namespace (dep_ObjectMeta dep)) = true /\
   dep_Spec_Replicas dep = None) /\
  (getDeployments_body env dep <> NilPanic ->
   is_row (getDeployments_body env dep)
   = shown env (Namespace (dep_ObjectMeta dep))).
Proof.
  unfold getDeployments_body, shown.
  destruct (String.eqb _ "kube-system");
    [split; [split; [discriminate | intros [[=] _]] | reflexivity]|].
  destruct (other_namespace _ _);
    [split; [split; [discriminate | intros [[=] _]] | reflexivity]|].
  destruct (dep_Spec_Replicas dep); simpl.
  - split; [split; [discriminate | intros [_ [=]]] | reflexivity].
  - split; [tauto | congruence].
Qed.

Lemma total_body_returns {A : Type} (body : A -> Result (option Row))
    (keep : A -> bool) (items : list A) :
  (forall item, body item <> LogFatal /\ body item <> NilPanic /\
                is_row (body item) = keep item) ->
  exists rows,
    range_items body items [] = Returns rows /\
    length rows = length (List.filter keep items).
Proof.
  intros H.
  destruct (range_items_cases body items [] (fun item => proj1 (H item)))
    as [[Hex _]|[_ (rows & Hr & Hl)]].
  - exfalso. apply List.Exists_exists in Hex as (item & _ & E).
    now destruct (H item) as (_ & Hp & _).
  - exists rows. split; [exact Hr|]. rewrite Hl.
    apply filter_ext_length. intros item. apply H.
Qed.
End FetcherShown.

(** X10. After a successful [List] call the node, service and pod
    fetchers always return, neither calling [log.Fatal] nor panicking.
    They send one row for every node that the namespace flag lets
    through, and one row for every service and every pod that is not in
    [kube-system] and that the flag lets through. *)
Theorem fetchers_show_kept_items (env : Env) (lcpNodes : string)
    (nodes : list Node) (services : list Service) (pods : list Pod) :
  (exists rows,
     getNodes env (Listed nodes) = Returns rows /\
     length rows
     = length (List.filter
                 (fun n => negb (other_namespace env
                                   (Namespace (node_ObjectMeta n)))) nodes)) /\
  (exists rows,
     getServices env (Listed services) = Returns rows /\
     length rows
     = length (List.filter
                 (fun s => shown env (Namespace (svc_ObjectMeta s)))
                 services)) /\
  (exists rows,
     getPods env lcpNodes (Listed pods) = Returns rows /\
     length rows
     = length (List.filter
                 (fun p => shown env (Namespace (pod_ObjectMeta p))) pods)).
Proof.
  split; [|split]; simpl.
  - apply total_body_returns, getNodes_body_is_row.
  - apply total_body_returns, getServices_body_is_row.
  - apply total_body_returns, getPods_body_is_row.
Qed.

(** X11. The deployment fetcher panics exactly when a deployment that is
    shown (outside [kube-system], let through by the flag) has
    [Spec.Replicas] unset; a skipped deployment may have it unset. It
    never calls [log.Fatal] after a successful [List] call, and when it
    returns it sends one row for every deployment shown. *)
Theorem getDeployments_panics_iff (env : Env) (items : list Deployment) :
  (getDeployments env (Listed items) = NilPanic <->
   List.Exists
     (fun dep => shown env (Namespace (dep_ObjectMeta dep)) = true /\
                 dep_Spec_Replicas dep = None) items) /\
  getDeployments env (Listed items) <> LogFatal /\
  (forall rows,
     getDeployments env (Listed items) = Returns rows ->
     length rows
     = length (List.filter
                 (fun dep => shown env (Namespace (dep_ObjectMeta dep)))
                 items)).
Proof.
  simpl.
  destruct (range_items_cases (getDeployments_body env) items []
              (getDeployments_body_not_fatal env))
    as [[Hex Hr]|[Hall (rows & Hr & Hl)]]; rewrite Hr.
  - split; [|split; [discriminate | discriminate]].
    split; [intros _ | reflexivity].
    eapply List.Exists_impl; [|exact Hex]. intros dep E.
    now apply getDeployments_body_is_row.
  - split; [|split; [discriminate|]].
    + split; [discriminate|]. intros Hex. exfalso.
      apply List.Exists_exists in Hex as (dep & Hin & Hbad).
      rewrite List.Forall_forall in Hall.
      apply (Hall dep Hin). now apply getDeployments_body_is_row.
    + intros rows' [= <-]. rewrite Hl.
      rewrite List.Forall_forall in Hall. clear Hr Hl.
      induction items as [|dep items IH]; simpl; [reflexivity|].
      rewrite (proj2 (getDeployments_body_is_row env dep))
        by (apply Hall; now left).
      destruct (shown env _); simpl; rewrite IH; auto;
        intros d Hd; apply Hall; now right.
Qed.

Lemma shown_kube_system_flag (env : Env) (ns : string) :
  flagNamespace env = "kube-system" -> shown env ns = false.
Proof.
  intros Hflag. unfold shown, other_namespace. rewrite Hflag.
  destruct (String.eqb ns "kube-system"); reflexivity.
Qed.

Lemma skipped_body_returns_nil {A : Type} (body : A -> Result (option Row))
    (items : list A) :
  (forall item, body item = Returns None) ->
  range_items body items [] = Returns [].
Proof.
  intros H. apply range_items_all_skipped.
  apply List.Forall_forall. auto.
Qed.

(** X12. With [-namespace kube-system] the table is empty: the service,
    deployment and pod fetchers skip [kube-system] itself and the flag
    skips every other namespace, and the nodes, whose namespace is empty,
    are skipped as well. The deployment fetcher does not panic then,
    whatever [Spec.Replicas] is. *)
Theorem kube_system_flag_shows_nothing (env : Env) (lcpNodes : string)
    (nodes : list Node) (services : list Service)
    (deps : list Deployment) (pods : list Pod) :
  flagNamespace env = "kube-system" ->
  List.Forall (fun node => Namespace (node_ObjectMeta node) = "") nodes ->
  fetched_rows
    (cycle_fetched env lcpNodes (Listed nodes) (Listed services)
       (Listed deps) (Listed pods)) = [] /\
  getServices env (Listed services) = Returns [] /\
  getDeployments env (Listed deps) = Returns [] /\
  getPods env lcpNodes (Listed pods) = Returns [].
Proof.
  intros Hflag Hnodes.
  assert (Hs : getServices env (Listed services) = Returns []).
  { apply skipped_body_returns_nil. intros s.
    pose proof (shown_kube_system_flag env (Namespace (svc_ObjectMeta s)) Hflag) as H.
    unfold getServices_body, shown in *.
    destruct (String.eqb _ "kube-system"); [reflexivity|].
    destruct (other_namespace _ _); [reflexivity | discriminate]. }
  assert (Hd : getDeployments env (Listed deps) = Returns []).
  { apply skipped_body_returns_nil. intros d.
    pose proof (shown_kube_system_flag env (Namespace (dep_ObjectMeta d)) Hflag) as H.
    unfold getDeployments_body, shown in *.
    destruct (String.eqb _ "kube-system"); [reflexivity|].
    destruct (other_namespace _ _); [reflexivity | discriminate]. }
  assert (Hp : getPods env lcpNodes (Listed pods) = Returns []).
  { apply skipped_body_returns_nil. intros p.
    pose proof (shown_kube_system_flag env (Namespace (pod_ObjectMeta p)) Hflag) as H.
    unfold getPods_body, shown in *.
    destruct (String.eqb _ "kube-system"); [reflexivity|].
    destruct (other_namespace _ _); [reflexivity | discriminate]. }
  assert (Hn : getNodes env (Listed nodes) = Returns []).
  { apply range_items_all_skipped.
    eapply List.Forall_impl; [|exact Hnodes]. intros node E.
    unfold getNodes_body, other_namespace. now rewrite E, Hflag. }
  split; [|auto].
  unfold cycle_fetched, fetched_rows. now rewrite Hn, Hs, Hd, Hp.
Qed.

Lemma kube_system_flag_shows_nothing_witness :
  fetched_rows
    (cycle_fetched (plain_env "kube-system") sample_lcpNodes
       (Listed sample_nodes) (Listed [sample_service])
       (Listed [sample_deployment None])
       (Listed two_pending_pods)) = [] /\
  getServices (plain_env "kube-system") (Listed [sample_service]) = Returns [] /\
  getDeployments (plain_env "kube-system") (Listed [sample_deployment None])
  = Returns [] /\
  getPods (plain_env "kube-system") sample_lcpNodes (Listed two_pending_pods)
  = Returns [].
Proof.
  apply (kube_system_flag_shows_nothing (plain_env "kube-system")
           sample_lcpNodes sample_nodes [sample_service]
           [sample_deployment None] two_pending_pods).
  - reflexivity.
  - repeat constructor.
Defined.

Lemma NoDup_snoc {A : Type} (l : list A) (a : A) :
  List.NoDup l -> ~ In a l -> List.NoDup (l ++ [a]).
Proof.
  induction 1 as [|x l Hx Hnd IH]; intros Ha; simpl.
  - constructor; [intros [] | constructor].
  - constructor.
    + rewrite in_app_iff. simpl. intros [H|[->|[]]]; [auto|].
      apply Ha. now left.
    + apply IH. intros H. apply Ha. now right.
Qed.

(** The invariant of the address loop of [getNodes]: the addresses kept
    are distinct, they are the keys of [addressesMap] set to [true], and
    they are the addresses seen so far. *)
Lemma node_addresses_step_inv (seen : list NodeAddress)
    (st : gmap string bool * list string) (addr : NodeAddress) :
  node_addresses_inv seen st ->
  node_addresses_inv (seen ++ [addr]) (node_addresses_step st addr).
Proof.
  destruct st as [m out]. intros (Hnd & Hm & Hin). simpl in *.
  unfold node_addresses_step, node_addresses_inv.
  destruct (m !! Address addr) as [[|]|] eqn:E.
  - simpl. split; [assumption|]. split; [assumption|].
    intros a. rewrite Hin, map_app, in_app_iff. simpl.
    split; [tauto|]. intros [H|[<-|[]]]; [assumption|].
    apply Hin, Hm, E.
  - simpl.
    assert (Hfresh : ~ In (Address addr) out) by (rewrite <- Hm; congruence).
    split; [|split].
    + now apply NoDup_snoc.
    + intros a. rewrite in_app_iff. simpl.
      destruct (decide (Address addr = a)) as [<-|Hne].
      * rewrite lookup_insert_eq. tauto.
      * rewrite lookup_insert_ne by assumption. rewrite Hm. tauto.
    + intros a. rewrite map_app, !in_app_iff, Hin. reflexivity.
  - simpl.
    assert (Hfresh : ~ In (Address addr) out) by (rewrite <- Hm; congruence).
    split; [|split].
    + now apply NoDup_snoc.
    + intros a. rewrite in_app_iff. simpl.
      destruct (decide (Address addr = a)) as [<-|Hne].
      * rewrite lookup_insert_eq. tauto.
      * rewrite lookup_insert_ne by assumption. rewrite Hm. tauto.
    + intros a. rewrite map_app, !in_app_iff, Hin. reflexivity.
Qed.

Lemma node_addresses_fold_inv (addrs seen : list NodeAddress)
    (st : gmap string bool * list string) :
  node_addresses_inv seen st ->
  node_addresses_inv (seen ++ addrs) (fold_left node_addresses_step addrs st).
Proof.
  revert seen st. induction addrs as [|addr addrs IH]; intros seen st H; simpl.
  - now rewrite app_nil_r.
  - replace (seen ++ addr :: addrs) with ((seen ++ [addr]) ++ addrs)
      by now rewrite <- app_assoc.
    apply IH. now apply node_addresses_step_inv.
Qed.

(** X13. The address field of a node row lists every address of the node
    once: the addresses kept are pairwise distinct and are exactly the
    addresses the node reports. *)
Theorem node_addresses_distinct (node : Node) :
  List.NoDup (node_addresses node) /\
  forall a, In a (node_addresses node)
            <-> In a (map Address (node_Addresses node)).
Proof.
  pose proof (node_addresses_fold_inv (node_Addresses node) [] (∅, [])) as H.
  destruct H as (Hnd & _ & Hin).
  - split; [constructor|]. split; [|reflexivity].
    intros a. simpl. rewrite lookup_empty. split; [discriminate | tauto].
  - split; assumption.
Qed.

(** ** The cycle, continued *)

Lemma some_not_FDone (fs : list FetcherPC) :
  forallb is_FDone fs = false ->
  exists i f, fs !! i = Some f /\ is_FDone f = false.
Proof.
  induction fs as [|g fs IH]; simpl; [discriminate|].
  destruct (is_FDone g) eqn:E; simpl.
  - intros H. destruct (IH H) as (i & f & Hi & Hf). exists (S i), f. auto.
  - intros _. exists 0%nat, g. auto.
Qed.

Lemma all_FDone_insert (fs : list FetcherPC) (j : nat) (f g : FetcherPC) :
  fs !! j = Some f -> is_FDone f = false ->
  forall m, (m = MWait \/ forallb is_FDone fs = true) -> m = MWait.
Proof.
  intros Hj Hf m [H|H]; [assumption|].
  rewrite (all_FDone_lookup fs j f H Hj) in Hf. discriminate.
Qed.

Section CycleInvariants.
Context (sorter : Rows -> Rows) (fetched : list (Result Rows)).

Lemma render_main_header (r : Rows) (t : Table) :
  render main_header r = Returns t ->
  t = {| table_header := main_header; table_rows := r |}.
Proof.
  unfold render. destruct (render_check main_header r); congruence.
Qed.

Lemma cycle_inv_step (a : Action) (c c' : Cycle) :
  cycle_inv c -> step sorter fetched a c = Some (Running c') -> cycle_inv c'.
Proof.
  intros (Hlen & Hdone & Hclosed & Hexit & Hscreen) Hstep.
  destruct a as [j|j|j| | | | | | ]; simpl in Hstep.
  - destruct (fetchers c !! j) as [[]|] eqn:E; try discriminate.
    destruct (fetched !! j) as [[r| |]|]; try discriminate.
    injection Hstep as <-. unfold cycle_inv. simpl.
    pose proof (all_FDone_insert _ j FStart FStart E eq_refl _ Hdone) as Hm.
    rewrite length_insert. repeat split; auto.
  - destruct (fetchers c !! j) as [[|r| |]|] eqn:E; try discriminate.
    destruct (collector c) eqn:Ec; try discriminate.
    destruct (closed c) eqn:Ecl; try discriminate.
    injection Hstep as <-. unfold cycle_inv. simpl.
    pose proof (all_FDone_insert _ j (FSend r) FStart E eq_refl _ Hdone) as Hm.
    rewrite length_insert, Ecl. repeat split; auto. discriminate.
  - destruct (fetchers c !! j) as [[]|] eqn:E; try discriminate.
    injection Hstep as <-. unfold cycle_inv. simpl.
    pose proof (all_FDone_insert _ j FSent FStart E eq_refl _ Hdone) as Hm.
    rewrite length_insert. repeat split; auto.
  - destruct (collector c) as [|r|] eqn:Ec; try discriminate.
    injection Hstep as <-. unfold cycle_inv. simpl.
    repeat split; auto; [discriminate|].
    destruct (screen c) as [t|]; [|assumption].
    destruct Hscreen as (Hm & Hh & late & Hl).
    repeat split; auto. exists (late ++ r). now rewrite Hl, app_assoc.
  - destruct (collector c) eqn:Ec; try discriminate.
    destruct (closed c) eqn:Ecl; try discriminate.
    injection Hstep as <-. unfold cycle_inv. simpl.
    rewrite Ecl. repeat split; auto.
  - destruct (main c) eqn:Em; try discriminate.
    destruct (forallb is_FDone (fetchers c)) eqn:Ed; try discriminate.
    injection Hstep as <-. unfold cycle_inv. simpl.
    repeat split; auto.
    destruct (screen c) as [t|]; [|discriminate].
    destruct Hscreen as (Hm & _). discriminate.
  - destruct (main c) eqn:Em; try discriminate.
    injection Hstep as <-. unfold cycle_inv. simpl.
    repeat split; auto.
    + destruct Hdone as [|]; [discriminate | auto].
    + destruct (screen c) as [t|]; [|discriminate].
      destruct Hscreen as (Hm & _). discriminate.
  - destruct (main c) eqn:Em; try discriminate.
    injection Hstep as <-. unfold cycle_inv. simpl.
    repeat split; auto.
    + destruct Hdone as [|]; [discriminate | auto].
    + destruct (screen c) as [t|]; [|discriminate].
      destruct Hscreen as (Hm & _). discriminate.
  - destruct (main c) eqn:Em; try discriminate.
    destruct (render main_header (rows c)) as [t| |] eqn:Er; try discriminate.
    injection Hstep as <-. unfold cycle_inv. simpl.
    apply render_main_header in Er as ->. simpl.
    repeat split; auto.
    + destruct Hdone as [|]; [discriminate | auto].
    + exists []. now rewrite app_nil_r.
Qed.

Lemma cycle_inv_reachable (c : Cycle) :
  reachable sorter fetched (Running c) -> cycle_inv c.
Proof.
  intros H. remember (Running c) as p eqn:Ep. revert c Ep.
  induction H as [|c0 a p Hc IH Hstep]; intros c Ep.
  - injection Ep as <-. unfold cycle_inv. simpl.
    repeat split; auto; discriminate.
  - subst p. eapply cycle_inv_step; [apply IH; reflexivity | eassumption].
Qed.

(** *** Where the rows are *)

Lemma zip_pending_insert_same (fs : list FetcherPC)
    (os : list (Result Rows)) (j : nat) (f g : FetcherPC) (o : Result Rows) :
  fs !! j = Some f -> os !! j = Some o ->
  pending_rows g o = pending_rows f o ->
  zip_with pending_rows (<[j := g]> fs) os = zip_with pending_rows fs os.
Proof.
  revert os j. induction fs as [|x fs IH]; intros [|y os] [|j] Hf Ho E;
    simpl in *; try discriminate; try reflexivity.
  - injection Hf as ->. injection Ho as ->. now rewrite E.
  - f_equal. now apply IH.
Qed.

Lemma zip_pending_insert_sent (fs : list FetcherPC)
    (os : list (Result Rows)) (j : nat) (r : Rows) (o : Result Rows) :
  fs !! j = Some (FSend r) -> os !! j = Some o ->
  Permutation (r ++ concat (zip_with pending_rows (<[j := FSent]> fs) os))
              (concat (zip_with pending_rows fs os)).
Proof.
  revert os j. induction fs as [|x fs IH]; intros [|y os] [|j] Hf Ho;
    simpl in *; try discriminate.
  - injection Hf as ->. reflexivity.
  - rewrite <- (IH os j Hf Ho). rewrite !app_assoc.
    apply Permutation_app_tail, Permutation_app_comm.
Qed.

Lemma in_flight_all_done (fs : list FetcherPC) (os : list (Result Rows)) :
  forallb is_FDone fs = true -> in_flight fs os = [].
Proof.
  unfold in_flight. revert os.
  induction fs as [|f fs IH]; intros [|o os] H; simpl in *; try reflexivity.
  apply andb_prop in H as [Hf H]. destruct f; try discriminate.
  simpl. now apply IH.
Qed.

Lemma in_flight_start (os : list (Result Rows)) :
  length os = 4%nat ->
  in_flight [FStart; FStart; FStart; FStart] os = fetched_rows os.
Proof.
  destruct os as [|o1 [|o2 [|o3 [|o4 [|]]]]]; try discriminate.
  reflexivity.
Qed.

(** Every fetched row is in one place: in [rows], with the collector, or
    still with its fetcher. *)
Lemma rows_conserved (c : Cycle) :
  length fetched = 4%nat ->
  (forall r, Permutation r (sorter r)) ->
  reachable sorter fetched (Running c) ->
  Permutation
    (rows c ++ collector_held (collector c) ++ in_flight (fetchers c) fetched)
    (fetched_rows fetched).
Proof.
  intros Hlen Hsort H. remember (Running c) as p eqn:Ep. revert c Ep.
  induction H as [|c0 a p Hc IH Hstep]; intros c Ep.
  - injection Ep as <-. simpl. now rewrite in_flight_start.
  - subst p. specialize (IH c0 eq_refl).
    pose proof (cycle_inv_reachable c0 Hc) as (Hl4 & _).
    destruct a as [j|j|j| | | | | | ]; simpl in Hstep.
    + destruct (fetchers c0 !! j) as [[]|] eqn:E; try discriminate.
      destruct (fetched !! j) as [[r| |]|] eqn:E2; try discriminate.
      injection Hstep as <-. simpl. unfold in_flight in *.
      now rewrite (zip_pending_insert_same _ _ j FStart (FSend r) (Returns r)).
    + destruct (fetchers c0 !! j) as [[|r| |]|] eqn:E; try discriminate.
      destruct (collector c0) eqn:Ec; try discriminate.
      destruct (closed c0); try discriminate.
      injection Hstep as <-. simpl in *. unfold in_flight in *.
      destruct (lookup_lt_is_Some_2 fetched j) as [o Ho];
        [apply lookup_lt_Some in E; lia|].
      now rewrite (zip_pending_insert_sent _ _ j r o E Ho).
    + destruct (fetchers c0 !! j) as [[]|] eqn:E; try discriminate.
      injection Hstep as <-. simpl. unfold in_flight in *.
      destruct (lookup_lt_is_Some_2 fetched j) as [o Ho];
        [apply lookup_lt_Some in E; lia|].
      now rewrite (zip_pending_insert_same _ _ j FSent FDone o).
    + destruct (collector c0) as [|r|] eqn:Ec; try discriminate.
      injection Hstep as <-. simpl in *. now rewrite <- app_assoc.
    + destruct (collector c0) eqn:Ec; try discriminate.
      destruct (closed c0); try discriminate.
      injection Hstep as <-. simpl in *. assumption.
    + destruct (main c0); try discriminate.
      destruct (forallb is_FDone (fetchers c0)); try discriminate.
      injection Hstep as <-. assumption.
    + destruct (main c0); try discriminate.
      injection Hstep as <-. assumption.
    + destruct (main c0); try discriminate.
      injection Hstep as <-. simpl. now rewrite <- (Hsort (rows c0)).
    + destruct (main c0); try discriminate.
      destruct (render main_header (rows c0)); try discriminate.
      injection Hstep as <-. assumption.
Qed.

(** *** The weight of a cycle *)

Lemma weight_insert (fs : list FetcherPC) (j : nat) (f g : FetcherPC) :
  fs !! j = Some f ->
  (list_sum (map fetcher_weight (<[j := g]> fs)) + fetcher_weight f
   = list_sum (map fetcher_weight fs) + fetcher_weight g)%nat.
Proof.
  revert j. induction fs as [|x fs IH]; intros [|j] H; simpl in *;
    try discriminate.
  - injection H as ->. lia.
  - specialize (IH j H). lia.
Qed.

Lemma step_lowers_weight (a : Action) (c : Cycle) (p : Process) :
  step sorter fetched a c = Some p ->
  (process_weight p < cycle_weight c)%nat.
Proof.
  intros Hstep. unfold cycle_weight.
  destruct a as [j|j|j| | | | | | ]; simpl in Hstep.
  - destruct (fetchers c !! j) as [[]|] eqn:E; try discriminate.
    pose proof (weight_insert _ j _ FDone E) as H0.
    destruct (fetched !! j) as [[r| |]|]; try discriminate;
      injection Hstep as <-; simpl in *;
      try (pose proof (weight_insert _ j _ (FSend r) E)); simpl in *; unfold cycle_weight in *; simpl in *; lia.
  - destruct (fetchers c !! j) as [[|r| |]|] eqn:E; try discriminate.
    pose proof (weight_insert _ j _ (FSend r) E) as H0.
    pose proof (weight_insert _ j _ FSent E) as H1.
    destruct (collector c); try discriminate.
    destruct (closed c); injection Hstep as <-; simpl in *; unfold cycle_weight in *; simpl in *; lia.
  - destruct (fetchers c !! j) as [[]|] eqn:E; try discriminate.
    pose proof (weight_insert _ j _ FDone E) as H1.
    injection Hstep as <-; simpl in *; unfold cycle_weight in *; simpl in *; lia.
  - destruct (collector c); try discriminate.
    injection Hstep as <-; simpl in *; unfold cycle_weight in *; simpl in *; lia.
  - destruct (collector c); try discriminate.
    destruct (closed c); try discriminate.
    injection Hstep as <-; simpl in *; unfold cycle_weight in *; simpl in *; lia.
  - destruct (main c); try discriminate.
    destruct (forallb is_FDone (fetchers c)); try discriminate.
    injection Hstep as <-; simpl in *; unfold cycle_weight in *; simpl in *; lia.
  - destruct (main c); try discriminate.
    injection Hstep as <-; simpl in *; unfold cycle_weight in *; simpl in *; lia.
  - destruct (main c); try discriminate.
    injection Hstep as <-; simpl in *; unfold cycle_weight in *; simpl in *; lia.
  - destruct (main c); try discriminate.
    destruct (render main_header (rows c)); injection Hstep as <-; simpl in *; unfold cycle_weight in *; simpl in *; lia.
Qed.

Lemma run_lowers_weight (schedule : list Action) (p p' : Process) :
  run sorter fetched schedule p = Some p' ->
  (length schedule + process_weight p' <= process_weight p)%nat.
Proof.
  revert p. induction schedule as [|a schedule IH]; intros p H; simpl in *.
  - injection H as <-. lia.
  - destruct p as [c|]; [|discriminate].
    destruct (step sorter fetched a c) as [p1|] eqn:E; [|discriminate].
    apply step_lowers_weight in E. apply IH in H. simpl. lia.
Qed.

End CycleInvariants.

Lemma racy_state_reachable :
  reachable insertionSort sample_fetched
    (Running (sample_state sample_fetched racy_schedule)).
Proof.
  apply (run_reachable _ _ racy_schedule (Running cycle_start));
    [constructor | vm_compute; reflexivity].
Qed.

Lemma orderly_state_reachable :
  reachable insertionSort sample_fetched
    (Running (sample_state sample_fetched orderly_schedule)).
Proof.
  apply (run_reachable _ _ orderly_schedule (Running cycle_start));
    [constructor | vm_compute; reflexivity].
Qed.

Lemma sort_Sort_contract_Permutation (sorter : Rows -> Rows) :
  sort_Sort_contract sorter -> forall r, Permutation r (sorter r).
Proof. intros H r. apply sort_swaps_Permutation, H. Qed.





(** X16. No fetcher ever sends on the closed channel: [close(ch)] runs
    only after the four fetchers have sent and called [wg.Done()], so the
    send of a fetcher never panics. *)
Theorem no_send_on_closed_channel (sorter : Rows -> Rows)
    (fetched : list (Result Rows)) (c : Cycle) (i : nat) :
  reachable sorter fetched (Running c) ->
  (closed c = true -> forallb is_FDone (fetchers c) = true) /\
  step sorter fetched (ASend i) c <> Some Exited.
Proof.
  intros Hc.
  pose proof (cycle_inv_reachable sorter fetched c Hc)
    as (_ & Hdone & Hclosed & _).
  assert (H : closed c = true -> forallb is_FDone (fetchers c) = true).
  { intros Hcl. destruct Hdone as [Hm|H]; [|exact H].
    rewrite Hm, Hcl in Hclosed. discriminate. }
  split; [exact H|]. simpl.
  destruct (fetchers c !! i) as [[|r| |]|] eqn:E; try discriminate.
  destruct (collector c); try discriminate.
  destruct (closed c); [|discriminate].
  pose proof (all_FDone_lookup _ _ _ (H eq_refl) E). discriminate.
Qed.

Lemma no_send_on_closed_channel_witness :
  (closed (sample_state sample_fetched racy_schedule) = true ->
   forallb is_FDone (fetchers (sample_state sample_fetched racy_schedule))
   = true) /\
  step insertionSort sample_fetched (ASend 3)
    (sample_state sample_fetched racy_schedule) <> Some Exited.
Proof.
  apply (no_send_on_closed_channel insertionSort sample_fetched
           (sample_state sample_fetched racy_schedule) 3).
  apply racy_state_reachable.
Defined.

(** X17. A cycle is never stuck: in every state some goroutine can take a
    step, until [main] has rendered and sleeps, the four fetchers are done
    and the collector has returned. *)
Theorem cycle_never_stuck (sorter : Rows -> Rows)
    (fetched : list (Result Rows)) (c : Cycle) :
  length fetched = 4%nat ->
  reachable sorter fetched (Running c) ->
  (main c = MSleep /\ collector c = CExit /\
   forallb is_FDone (fetchers c) = true /\ screen c <> None) \/
  exists a p, step sorter fetched a c = Some p.
Proof.
  intros Hlen Hc.
  pose proof (cycle_inv_reachable sorter fetched c Hc)
    as (Hl4 & Hdone & Hclosed & Hex & Hscreen).
  destruct (main c) eqn:Em.
  - (* in wg.Wait() *)
    right. destruct (forallb is_FDone (fetchers c)) eqn:Ed.
    + exists AWait. simpl. rewrite Em, Ed. eauto.
    + destruct (some_not_FDone _ Ed) as (i & f & Hi & Hf).
      destruct (lookup_lt_is_Some_2 fetched i) as [o Ho];
        [apply lookup_lt_Some in Hi; lia|].
      destruct f as [|r| |]; try discriminate.
      * exists (AList i). simpl. rewrite Hi, Ho. destruct o; eauto.
      * destruct (collector c) as [|r'|] eqn:Ec.
        -- exists (ASend i). simpl. rewrite Hi, Ec. destruct (closed c); eauto.
        -- exists AAppend. simpl. rewrite Ec. eauto.
        -- rewrite (Hex eq_refl) in Hclosed. discriminate.
      * exists (ADone i). simpl. rewrite Hi. eauto.
  - right. exists AClose. simpl. rewrite Em. eauto.
  - right. exists ASort. simpl. rewrite Em. eauto.
  - right. exists ARender. simpl. rewrite Em.
    destruct (render main_header (rows c)); eauto.
  - destruct (collector c) as [|r|] eqn:Ec.
    + right. exists ACollectorExit. simpl. rewrite Ec, Hclosed. eauto.
    + right. exists AAppend. simpl. rewrite Ec. eauto.
    + left. repeat split.
      * destruct Hdone as [|H]; [discriminate | exact H].
      * destruct (screen c); [discriminate | contradiction].
Qed.

Lemma cycle_never_stuck_witness :
  (main (sample_state sample_fetched racy_schedule) = MSleep /\
   collector (sample_state sample_fetched racy_schedule) = CExit /\
   forallb is_FDone (fetchers (sample_state sample_fetched racy_schedule))
   = true /\
   screen (sample_state sample_fetched racy_schedule) <> None) \/
  exists a p,
    step insertionSort sample_fetched a
      (sample_state sample_fetched racy_schedule) = Some p.
Proof.
  apply (cycle_never_stuck insertionSort sample_fetched
           (sample_state sample_fetched racy_schedule)).
  - reflexivity.
  - apply racy_state_reachable.
Defined.

(** X18. A cycle ends: no schedule of a cycle has more than 21 steps,
    whatever the fetchers return and however the goroutines are
    interleaved. *)
Theorem cycle_at_most_21_steps (sorter : Rows -> Rows)
    (fetched : list (Result Rows)) (schedule : list Action) (p : Process) :
  run sorter fetched schedule (Running cycle_start) = Some p ->
  (length schedule <= 21)%nat.
Proof.
  intros H. apply run_lowers_weight in H. simpl in H.
  unfold cycle_weight in H. simpl in H. lia.
Qed.

Lemma cycle_at_most_21_steps_witness :
  (length orderly_schedule <= 21)%nat /\ length orderly_schedule = 21%nat.
Proof.
  split; [|reflexivity].
  apply (cycle_at_most_21_steps insertionSort sample_fetched orderly_schedule
           (Running (sample_state sample_fetched orderly_schedule))).
  vm_compute. reflexivity.
Defined.

(** X19. [sort.Sort(rows)] returns for every row sequence: the quicksort
    of the library, run on the [Len], [Less] and [Swap] of [Rows], uses up
    neither its recursion nor its loops. It reaches the rows through
    [Swap] only, so its result is a permutation of its input, and it
    leaves the rows in ascending order as determined by [Less]. *)
Theorem sort_Sort_sorts_rows (r : Rows) :
  exists s : Rows,
    go_Sort r = Some s /\ sort_swaps r s /\ Permutation r s /\
    sort_ascending s /\ StronglySorted Row_le s.
Proof.
  destruct (go_Sort_sorts r) as (s & E & Hs & Ha).
  exists s. split; [exact E|]. split; [exact Hs|].
  split; [now apply sort_swaps_Permutation|].
  split; [exact Ha | now apply sort_ascending_StronglySorted].
Qed.
